(** * A growable array over raw storage: [RawMemory<T>] and [Vector<T>]

    Shallow embedding of [advanced-vector/vector.h].

    - [size_t] is a 64-bit unsigned integer: sizes, capacities and indices
      are [N], and every [+], [-], [*] the code does on them is written
      with its wrap-around ([SizeT]).
    - A block of raw storage is a list of slots.  A slot either holds a
      live object ([Live x]) or no object ([Raw]).  Pointers into a block
      are indices; pointer arithmetic does not wrap.
    - A [RawMemory] owns its block exclusively (its copy operations are
      deleted), so blocks are modelled by value.
    - The element type is a parameter ([Element]): which of its
      constructors and assignments throw, what a moved-from object holds,
      the two type traits the code branches on, [sizeof(T)], and whether
      its destructor and its copy are trivial.
    - [Allocate(n)] asks [operator new] for [n * sizeof(T)] bytes, the
      product taken in [size_t]: when it wraps, the block has fewer than
      [n] slots while [capacity_] is [n].
    - A member function that can throw returns a [result]: the object as it
      is left, and whether the call returned or an exception left it.
    - [assert] is compiled out ([NDEBUG]); where the C++ behaviour is
      undefined (an object destroyed or read in a slot that holds none, an
      index past the block) the model leaves the block as it is.  What it
      computes there is the mildest outcome, not one the language
      promises: [destroy_at_defined] and [copy_assign_at_defined] say when
      the two steps the code takes on raw storage are defined, and the
      theorems on calls that take them are stated for the element types
      for which they are. *)

From stdpp Require Import base numbers list gmap.

Local Open Scope N_scope.

(** ** [size_t] arithmetic *)

Module SizeT.
Definition modulus : N := 2 ^ 64.
Definition add (a b : N) : N := (a + b) mod modulus.
Definition sub (a b : N) : N := (a + modulus - b) mod modulus.
Definition mul (a b : N) : N := (a * b) mod modulus.
End SizeT.

(** ** Raw storage *)

Inductive slot (T : Type) : Type :=
  | Raw
  | Live (x : T).
Arguments Raw {T}.
Arguments Live {T} x.

Definition live_value {T} (s : slot T) : option T :=
  match s with
  | Raw => None
  | Live x => Some x
  end.

Definition is_live {T} (s : slot T) : bool :=
  match s with
  | Raw => false
  | Live _ => true
  end.

(** [buffer_] is the allocation [T* buffer_] points to (empty for
    [nullptr]); [capacity_] is the field of the same name. *)
Record RawMemory (T : Type) : Type := MkRawMemory {
  buffer_ : list (slot T);
  capacity_ : N
}.
Arguments MkRawMemory {T} buffer_ capacity_.
Arguments buffer_ {T} r.
Arguments capacity_ {T} r.

Record Vector (T : Type) : Type := MkVector {
  data_ : RawMemory T;
  size_ : N
}.
Arguments MkVector {T} data_ size_.
Arguments data_ {T} v.
Arguments size_ {T} v.

(** ** The element type

    What [Vector<T>] asks of [T], and of the allocator.  A constructor or
    assignment either throws or gives the target the value of its source;
    a throwing operation leaves its operands as they were.  Destructors do
    not throw. *)
Class Element (T : Type) : Type := {
  (** [T()]: the value built, or [None] when the constructor throws. *)
  value_init : option T;
  (** [T(const T&)] throws when copying this value. *)
  copy_throws : T → bool;
  (** [T(T&&)] throws when moving from this value. *)
  move_throws : T → bool;
  (** What a moved-from object holds. *)
  moved_from : T → T;
  (** [operator=(const T&)] throws when assigning this value. *)
  copy_assign_throws : T → bool;
  (** [operator=(T&&)] throws when assigning this value. *)
  move_assign_throws : T → bool;
  (** [operator new] throws [std::bad_alloc] for a block of that many slots. *)
  alloc_fails : N → bool;
  is_nothrow_move_constructible : bool;
  is_copy_constructible : bool;
  (** [sizeof(T)], a [size_t] that is not 0. *)
  sizeof_T : N;
  (** [std::is_trivially_destructible_v<T>]: [~T()] does nothing. *)
  is_trivially_destructible : bool;
  (** [std::is_trivially_copyable_v<T>]: the storage [operator new] gives
      holds objects of type [T] without a constructor call, and
      [operator=] copies the bytes of its source. *)
  is_trivially_copyable : bool;
  nothrow_move_sound :
    is_nothrow_move_constructible = true → ∀ x, move_throws x = false;
  sizeof_T_range : 0 < sizeof_T < SizeT.modulus;
  trivially_copyable_is_destructible :
    is_trivially_copyable = true → is_trivially_destructible = true
}.

(** An attempt at a step that may throw: the storage it worked on, as it is
    when the step completes or when the exception leaves it. *)
Inductive attempt (A : Type) : Type :=
  | Done (a : A)
  | Threw (a : A).
Arguments Done {A} a.
Arguments Threw {A} a.

(** The storage an attempt has reached, completed or not. *)
Definition reached {A : Type} (a : attempt A) : A :=
  match a with
  | Done x => x
  | Threw x => x
  end.

Section Algorithms.
Context {T : Type} `{E : Element T}.

(** [std::destroy_at(buf + i)]: the slot holds no object afterwards.  On
    a slot that holds none, or past the block, the block is left as it
    is, which is what a trivial [~T()] does there. *)
Definition destroy_at (buf : list (slot T)) (i : nat) : list (slot T) :=
  <[i := Raw]> buf.

(** [std::destroy_at(buf + i)] is defined when the slot holds a live
    object, or when [~T()] is trivial and so does nothing; on a slot that
    holds no object, or past the block, a destructor that does something
    is undefined. *)
Definition destroy_at_defined (buf : list (slot T)) (i : nat) : Prop :=
  is_trivially_destructible = true ∨ ∃ x, buf !! i = Some (Live x).

(** [std::destroy_n(buf + first, n)], also the loop of [DestroyN]. *)
Fixpoint destroy_n (buf : list (slot T)) (first n : nat) : list (slot T) :=
  match n with
  | O => buf
  | S n' => destroy_n (destroy_at buf first) (S first) n'
  end.

(** [new (buf + i) T(...)], the constructor having built [x]. *)
Definition construct_at (buf : list (slot T)) (i : nat) (x : T)
  : list (slot T) :=
  <[i := Live x]> buf.

(** [std::uninitialized_value_construct_n(buf + first, n)]: [d0] is the
    first slot of the call; on a throw the objects built so far are
    destroyed. *)
Fixpoint uninitialized_value_construct_from
    (buf : list (slot T)) (d0 first n : nat) : attempt (list (slot T)) :=
  match n with
  | O => Done buf
  | S n' =>
      match value_init with
      | None => Threw (destroy_n buf d0 (first - d0))
      | Some x =>
          uninitialized_value_construct_from
            (construct_at buf first x) d0 (S first) n'
      end
  end.

Definition uninitialized_value_construct_n
    (buf : list (slot T)) (first n : nat) : attempt (list (slot T)) :=
  uninitialized_value_construct_from buf first first n.

(** [std::uninitialized_copy_n(src + first, n, dst + d)]: the source is
    a different block, left as it is. *)
Fixpoint uninitialized_copy_from
    (src : list (slot T)) (first n : nat)
    (dst : list (slot T)) (d0 d : nat) : attempt (list (slot T)) :=
  match n with
  | O => Done dst
  | S n' =>
      match src !! first with
      | Some (Live x) =>
          if copy_throws x then Threw (destroy_n dst d0 (d - d0))
          else uninitialized_copy_from src (S first) n'
                 (construct_at dst d x) d0 (S d)
      | _ => uninitialized_copy_from src (S first) n' dst d0 (S d)
      end
  end.

Definition uninitialized_copy_n
    (src : list (slot T)) (first n : nat) (dst : list (slot T)) (d : nat)
  : attempt (list (slot T)) :=
  uninitialized_copy_from src first n dst d d.

(** [std::uninitialized_move_n(src + first, n, dst + d)] between two
    blocks: the pair is (source block, destination block).  Each source
    object is left moved-from. *)
Fixpoint uninitialized_move_from
    (src : list (slot T)) (first n : nat)
    (dst : list (slot T)) (d0 d : nat)
  : attempt (list (slot T) * list (slot T)) :=
  match n with
  | O => Done (src, dst)
  | S n' =>
      match src !! first with
      | Some (Live x) =>
          if move_throws x then Threw (src, destroy_n dst d0 (d - d0))
          else uninitialized_move_from
                 (<[first := Live (moved_from x)]> src) (S first) n'
                 (construct_at dst d x) d0 (S d)
      | _ => uninitialized_move_from src (S first) n' dst d0 (S d)
      end
  end.

Definition uninitialized_move_n
    (src : list (slot T)) (first n : nat) (dst : list (slot T)) (d : nat)
  : attempt (list (slot T) * list (slot T)) :=
  uninitialized_move_from src first n dst d d.

(** The relocation every growing path does:
    [if constexpr (nothrow-move || !copyable) uninitialized_move_n
     else uninitialized_copy_n]. *)
Definition relocate_n (by_move : bool)
    (src : list (slot T)) (first n : nat) (dst : list (slot T)) (d : nat)
  : attempt (list (slot T) * list (slot T)) :=
  if by_move then uninitialized_move_n src first n dst d
  else
    match uninitialized_copy_n src first n dst d with
    | Done dst' => Done (src, dst')
    | Threw dst' => Threw (src, dst')
    end.

(** [buf[i] = value] with the copy assignment of [T]: the slot holds
    [value] afterwards.  On a slot no constructor has run on, that is what
    the assignment of a trivially copyable [T] gives. *)
Definition copy_assign_at (buf : list (slot T)) (i : nat) (value : T)
  : option (list (slot T)) :=
  if copy_assign_throws value then None else Some (<[i := Live value]> buf).


(** [buf[i] = std::move(value)] for a [value] outside the block. *)
Definition move_assign_at (buf : list (slot T)) (i : nat) (value : T)
  : option (list (slot T)) :=
  if move_assign_throws value then None else Some (<[i := Live value]> buf).

(** [buf[d] = std::move(buf[i])] inside one block. *)
Definition move_assign_within (buf : list (slot T)) (i d : nat)
  : option (list (slot T)) :=
  match buf !! i with
  | Some (Live x) =>
      if move_assign_throws x then None
      else Some (<[i := Live (moved_from x)]> (<[d := Live x]> buf))
  | _ => Some buf
  end.

(** [std::move(buf + first, buf + first + n, buf + d)]: front to back. *)
Fixpoint move_range (buf : list (slot T)) (first n d : nat)
  : attempt (list (slot T)) :=
  match n with
  | O => Done buf
  | S n' =>
      match move_assign_within buf first d with
      | None => Threw buf
      | Some buf' => move_range buf' (S first) n' (S d)
      end
  end.

(** [std::move_backward(buf + first, buf + first + n, buf + d_last)]:
    back to front, the last source going to [d_last - 1]. *)
Fixpoint move_backward (buf : list (slot T)) (first n d_last : nat)
  : attempt (list (slot T)) :=
  match n with
  | O => Done buf
  | S n' =>
      match move_assign_within buf (first + n') (d_last - 1) with
      | None => Threw buf
      | Some buf' => move_backward buf' first n' (d_last - 1)
      end
  end.

(** [std::uninitialized_move_n(buf + i, 1, buf + d)] inside one block. *)
Definition uninitialized_move_1_within (buf : list (slot T)) (i d : nat)
  : attempt (list (slot T)) :=
  match buf !! i with
  | Some (Live x) =>
      if move_throws x then Threw buf
      else Done (<[i := Live (moved_from x)]> (construct_at buf d x))
  | _ => Done buf
  end.

End Algorithms.

(** ** Results of member functions *)

(** A call either returns [r] or is left by an exception; [self] is the
    vector afterwards.  [lost] lists the objects that were still alive in a
    block when that block was released: their destructors never run. *)
Inductive result (T R : Type) : Type :=
  | Returned (r : R) (self : Vector T) (lost : list T)
  | Raised (self : Vector T) (lost : list T).
Arguments Returned {T R} r self lost.
Arguments Raised {T R} self lost.

Definition self_of {T R} (o : result T R) : Vector T :=
  match o with
  | Returned _ v _ => v
  | Raised v _ => v
  end.

Definition lost_of {T R} (o : result T R) : list T :=
  match o with
  | Returned _ _ l => l
  | Raised _ l => l
  end.

Definition has_returned {T R} (o : result T R) : bool :=
  match o with
  | Returned _ _ _ => true
  | Raised _ _ => false
  end.

Section RawMemoryOps.
Context {T : Type} `{E : Element T}.

(** The slots of a block of [n * sizeof(T)] bytes, the product taken in
    [size_t]: [n] of them unless the product wraps, fewer if it does. *)
Definition block_slots (n : N) : N := SizeT.mul n sizeof_T / sizeof_T.

(** [Allocate(n)]: [nullptr] for [n == 0], else the raw block
    [operator new(n * sizeof(T))] gives. *)
Definition Allocate (n : N) : option (list (slot T)) :=
  if n =? 0 then Some []
  else if alloc_fails n then None
  else Some (replicate (N.to_nat (block_slots n)) Raw).

(** [Deallocate(buf)] runs no destructor: what was alive is lost. *)
Definition Deallocate (buf : list (slot T)) : list T :=
  omap live_value buf.

(** [RawMemory()] *)
Definition RawMemory_default : RawMemory T := MkRawMemory [] 0.

(** [RawMemory(size_t capacity)] *)
Definition RawMemory_sized (capacity : N) : option (RawMemory T) :=
  match Allocate capacity with
  | None => None
  | Some buf => Some (MkRawMemory buf capacity)
  end.

(** [RawMemory::Swap]: the pair is (this, other) afterwards. *)
Definition RawMemory_Swap (this other : RawMemory T)
  : RawMemory T * RawMemory T :=
  (MkRawMemory (buffer_ other) (capacity_ other),
   MkRawMemory (buffer_ this) (capacity_ this)).

End RawMemoryOps.

Section VectorOps.
Context {T : Type} `{E : Element T}.

Definition Size (v : Vector T) : N := size_ v.

Definition Capacity (v : Vector T) : N := capacity_ (data_ v).

(** The vector with the slots of its block replaced. *)
Definition with_buffer (v : Vector T) (buf : list (slot T)) : Vector T :=
  MkVector (MkRawMemory buf (capacity_ (data_ v))) (size_ v).

(** [operator[](index)]: the slot [data_[index]]. *)
Definition at_index (v : Vector T) (index : N) : option (slot T) :=
  buffer_ (data_ v) !! N.to_nat index.

(** The trait test of [Reserve], [PushBack(const T&)], [EmplaceBack]
    and [Emplace]. *)
Definition relocate_by_move : bool :=
  is_nothrow_move_constructible || negb is_copy_constructible.

(** [Vector()] *)
Definition Vector_default : Vector T := MkVector RawMemory_default 0.

(** [Vector(size_t size)]; [None] when an exception leaves the
    constructor (the block is then released with nothing alive in it). *)
Definition Vector_sized (size : N) : option (Vector T) :=
  match RawMemory_sized size with
  | None => None
  | Some data =>
      match uninitialized_value_construct_n (buffer_ data) 0 (N.to_nat size) with
      | Done buf => Some (MkVector (MkRawMemory buf (capacity_ data)) size)
      | Threw _ => None
      end
  end.

(** [Vector(const Vector& other)] *)
Definition Vector_copy (other : Vector T) : option (Vector T) :=
  match RawMemory_sized (size_ other) with
  | None => None
  | Some data =>
      match uninitialized_copy_n (buffer_ (data_ other)) 0
              (N.to_nat (size_ other)) (buffer_ data) 0 with
      | Done buf =>
          Some (MkVector (MkRawMemory buf (capacity_ data)) (size_ other))
      | Threw _ => None
      end
  end.

(** [Vector(Vector&& other)]: the pair is (new vector, other afterwards). *)
Definition Vector_move (other : Vector T) : Vector T * Vector T :=
  let '(data, other_data) := RawMemory_Swap RawMemory_default (data_ other) in
  (MkVector data (size_ other), MkVector other_data 0).

(** [~Vector()]: [DestroyN(data_, size_)], then the block is released. *)
Definition Vector_destroy (v : Vector T) : list T :=
  Deallocate (destroy_n (buffer_ (data_ v)) 0 (N.to_nat (size_ v))).

(** [Swap(other)]: the pair is (this, other) afterwards. *)
Definition Swap (this other : Vector T) : Vector T * Vector T :=
  let '(data, other_data) := RawMemory_Swap (data_ this) (data_ other) in
  (MkVector data (size_ other), MkVector other_data (size_ this)).

(** The tail shared by the growing paths: the old objects are destroyed,
    [data_.Swap(new_data)], and [new_data] (now the old block) is
    released.  Gives the new [data_] and what was lost. *)
Definition adopt (old : list (slot T)) (v : Vector T) (new_buf : list (slot T))
    (new_capacity : N) : RawMemory T * list T :=
  let old' := destroy_n old 0 (N.to_nat (size_ v)) in
  let '(data, new_data) :=
    RawMemory_Swap (MkRawMemory old' (capacity_ (data_ v)))
                   (MkRawMemory new_buf new_capacity) in
  (data, Deallocate (buffer_ new_data)).

(** [Reserve(new_capacity)] *)
Definition Reserve (new_capacity : N) (v : Vector T) : result T unit :=
  if Capacity v <? new_capacity then
    match RawMemory_sized new_capacity with
    | None => Raised v []
    | Some new_data =>
        match relocate_n relocate_by_move (buffer_ (data_ v)) 0
                (N.to_nat (size_ v)) (buffer_ new_data) 0 with
        | Threw (old, nb) => Raised (with_buffer v old) (Deallocate nb)
        | Done (old, nb) =>
            let '(data, lost) := adopt old v nb (capacity_ new_data) in
            Returned tt (MkVector data (size_ v)) lost
        end
    end
  else Returned tt v [].

(** [Resize(new_size)] *)
Definition Resize (new_size : N) (v : Vector T) : result T unit :=
  if new_size <? size_ v then
    let buf := destroy_n (buffer_ (data_ v)) (N.to_nat new_size)
                 (N.to_nat (SizeT.sub (size_ v) new_size)) in
    Returned tt (MkVector (data_ (with_buffer v buf)) new_size) []
  else if size_ v <? new_size then
    match Reserve new_size v with
    | Raised v' lost => Raised v' lost
    | Returned _ v' lost =>
        match uninitialized_value_construct_n (buffer_ (data_ v'))
                (N.to_nat (size_ v'))
                (N.to_nat (SizeT.sub new_size (size_ v'))) with
        | Threw buf => Raised (with_buffer v' buf) lost
        | Done buf =>
            Returned tt (MkVector (data_ (with_buffer v' buf)) new_size) lost
        end
    end
  else Returned tt v [].

(** [PushBack(const T& value)] *)
Definition PushBack_copy (value : T) (v : Vector T) : result T unit :=
  if size_ v =? Capacity v then
    match RawMemory_sized (if size_ v =? 0 then 1 else SizeT.mul (size_ v) 2) with
    | None => Raised v []
    | Some new_data =>
        match copy_assign_at (buffer_ new_data) (N.to_nat (size_ v)) value with
        | None => Raised v (Deallocate (buffer_ new_data))
        | Some nb0 =>
            match relocate_n relocate_by_move (buffer_ (data_ v)) 0
                    (N.to_nat (size_ v)) nb0 0 with
            | Threw (old, nb) => Raised (with_buffer v old) (Deallocate nb)
            | Done (old, nb) =>
                let '(data, lost) := adopt old v nb (capacity_ new_data) in
                Returned tt (MkVector data (SizeT.add (size_ v) 1)) lost
            end
        end
    end
  else
    match copy_assign_at (buffer_ (data_ v)) (N.to_nat (size_ v)) value with
    | None => Raised v []
    | Some buf =>
        Returned tt (MkVector (data_ (with_buffer v buf)) (SizeT.add (size_ v) 1)) []
    end.

(** [PushBack(U&& value)].  [made] is what [T(std::forward<U>(value))]
    builds, [None] when that constructor throws; [copy_constructible_U]
    is [std::is_copy_constructible_v<U>]. *)
Definition PushBack_forward (copy_constructible_U : bool) (made : option T)
    (v : Vector T) : result T unit :=
  if size_ v <? Capacity v then
    match made with
    | None => Raised v []
    | Some x =>
        let buf := construct_at (buffer_ (data_ v)) (N.to_nat (size_ v)) x in
        Returned tt (MkVector (data_ (with_buffer v buf)) (SizeT.add (size_ v) 1)) []
    end
  else
    let new_size := SizeT.add (size_ v) 1 in
    let new_capacity := N.max (SizeT.mul (Capacity v) 2) new_size in
    match RawMemory_sized new_capacity with
    | None => Raised v []
    | Some new_data =>
        match made with
        | None => Raised v (Deallocate (buffer_ new_data))
        | Some x =>
            let nb0 := construct_at (buffer_ new_data) (N.to_nat (size_ v)) x in
            match relocate_n
                    (is_nothrow_move_constructible || negb copy_constructible_U)
                    (buffer_ (data_ v)) 0 (N.to_nat (size_ v)) nb0 0 with
            | Threw (old, nb) =>
                (* catch (...) { destroy_n(new_data + size_, 1); throw; } *)
                Raised (with_buffer v old)
                       (Deallocate (destroy_n nb (N.to_nat (size_ v)) 1))
            | Done (old, nb) =>
                let '(data, lost) := adopt old v nb (capacity_ new_data) in
                Returned tt (MkVector data (SizeT.add (size_ v) 1)) lost
            end
        end
    end.

(** [EmplaceBack(args...)].  [made] is what [T(args...)] builds.  The
    reference returned is given as the index of the slot. *)
Definition EmplaceBack (made : option T) (v : Vector T) : result T N :=
  let index := size_ v in
  if size_ v =? Capacity v then
    match RawMemory_sized (if size_ v =? 0 then 1 else SizeT.mul (size_ v) 2) with
    | None => Raised v []
    | Some new_data =>
        match made with
        | None => Raised v (Deallocate (buffer_ new_data))
        | Some x =>
            let nb0 := construct_at (buffer_ new_data) (N.to_nat (size_ v)) x in
            match relocate_n relocate_by_move (buffer_ (data_ v)) 0
                    (N.to_nat (size_ v)) nb0 0 with
            | Threw (old, nb) => Raised (with_buffer v old) (Deallocate nb)
            | Done (old, nb) =>
                let '(data, lost) := adopt old v nb (capacity_ new_data) in
                Returned index (MkVector data (SizeT.add (size_ v) 1)) lost
            end
        end
    end
  else
    match made with
    | None => Raised v []
    | Some x =>
        let buf := construct_at (buffer_ (data_ v)) (N.to_nat (size_ v)) x in
        Returned index (MkVector (data_ (with_buffer v buf)) (SizeT.add (size_ v) 1)) []
    end.

End VectorOps.

Section VectorOps2.
Context {T : Type} `{E : Element T}.

(** [Emplace(pos, args...)].  [pos] is the offset [pos - begin()];
    [made] is what [T(args...)] builds.  The iterator returned is given
    as an offset from [begin()]. *)
Definition Emplace (pos : N) (made : option T) (v : Vector T) : result T N :=
  let offset := pos in
  if size_ v <? Capacity v then
    if negb (pos =? size_ v) then
      match made with
      | None => Raised v []
      | Some value_to_emplace =>
          let last := N.to_nat (SizeT.sub (size_ v) 1) in
          match uninitialized_move_1_within (buffer_ (data_ v)) last
                  (N.to_nat (size_ v)) with
          | Threw buf => Raised (with_buffer v buf) []
          | Done buf1 =>
              match move_backward buf1 (N.to_nat offset)
                      (last - N.to_nat offset) (N.to_nat (size_ v)) with
              | Threw buf => Raised (with_buffer v buf) []
              | Done buf2 =>
                  match move_assign_at buf2 (N.to_nat offset) value_to_emplace with
                  | None => Raised (with_buffer v buf2) []
                  | Some buf3 =>
                      Returned offset
                        (MkVector (data_ (with_buffer v buf3))
                                  (SizeT.add (size_ v) 1)) []
                  end
              end
          end
      end
    else
      match made with
      | None => Raised v []
      | Some x =>
          let buf := construct_at (buffer_ (data_ v)) (N.to_nat (size_ v)) x in
          Returned offset
            (MkVector (data_ (with_buffer v buf)) (SizeT.add (size_ v) 1)) []
      end
  else
    match RawMemory_sized
            (N.max (SizeT.mul (Capacity v) 2) (SizeT.add (size_ v) 1)) with
    | None => Raised v []
    | Some new_data =>
        match made with
        | None => Raised v (Deallocate (buffer_ new_data))
        | Some x =>
            let nb0 := construct_at (buffer_ new_data) (N.to_nat offset) x in
            match relocate_n relocate_by_move (buffer_ (data_ v)) 0
                    (N.to_nat offset) nb0 0 with
            | Threw (old, nb) => Raised (with_buffer v old) (Deallocate nb)
            | Done (old1, nb1) =>
                match relocate_n relocate_by_move old1 (N.to_nat offset)
                        (N.to_nat (SizeT.sub (size_ v) offset)) nb1
                        (N.to_nat offset + 1) with
                | Threw (old, nb) => Raised (with_buffer v old) (Deallocate nb)
                | Done (old, nb) =>
                    let '(data, lost) := adopt old v nb (capacity_ new_data) in
                    Returned offset (MkVector data (SizeT.add (size_ v) 1)) lost
                end
            end
        end
    end.

(** [Insert(pos, const T& value)] *)
Definition Insert_copy (pos : N) (value : T) (v : Vector T) : result T N :=
  Emplace pos (if copy_throws value then None else Some value) v.

(** [Insert(pos, T&& value)] *)
Definition Insert_move (pos : N) (value : T) (v : Vector T) : result T N :=
  Emplace pos (if move_throws value then None else Some value) v.

(** [Erase(pos)], [pos] and the iterator returned as offsets from
    [begin()]. *)
Definition Erase (pos : N) (v : Vector T) : result T N :=
  let distance := pos in
  match move_range (buffer_ (data_ v)) (N.to_nat pos + 1)
          (N.to_nat (size_ v) - (N.to_nat pos + 1)) (N.to_nat pos) with
  | Threw buf => Raised (with_buffer v buf) []
  | Done buf =>
      let buf' := destroy_at buf (N.to_nat (size_ v)) in
      Returned distance
        (MkVector (data_ (with_buffer v buf')) (SizeT.sub (size_ v) 1)) []
  end.

(** [PopBack()], which is [noexcept]. *)
Definition PopBack (v : Vector T) : Vector T :=
  if size_ v =? 0 then v
  else
    let buf := destroy_at (buffer_ (data_ v)) (N.to_nat (size_ v)) in
    MkVector (data_ (with_buffer v buf)) (SizeT.sub (size_ v) 1).

(** [for (i = first; i != first + n; ++i) dst[i] = src[i];] *)
Fixpoint copy_assign_loop (dst src : list (slot T)) (i n : nat)
  : attempt (list (slot T)) :=
  match n with
  | O => Done dst
  | S n' =>
      match src !! i with
      | Some (Live x) =>
          match copy_assign_at dst i x with
          | None => Threw dst
          | Some dst' => copy_assign_loop dst' src (S i) n'
          end
      | _ => copy_assign_loop dst src (S i) n'
      end
  end.

(** [operator=(const Vector& rhs)] for [this != &rhs]. *)
Definition copy_assign (this rhs : Vector T) : result T unit :=
  if Capacity this <? size_ rhs then
    match Vector_copy rhs with
    | None => Raised this []
    | Some rhs_copy =>
        let '(this', rhs_copy') := Swap this rhs_copy in
        Returned tt this' (Vector_destroy rhs_copy')
    end
  else if size_ this <=? Size rhs then
    match copy_assign_loop (buffer_ (data_ this)) (buffer_ (data_ rhs)) 0
            (N.to_nat (size_ this)) with
    | Threw buf => Raised (with_buffer this buf) []
    | Done buf =>
        match uninitialized_copy_n (buffer_ (data_ rhs)) (N.to_nat (size_ this))
                (N.to_nat (SizeT.sub (size_ rhs) (size_ this)))
                buf (N.to_nat (size_ this)) with
        | Threw buf' => Raised (with_buffer this buf') []
        | Done buf' =>
            Returned tt (MkVector (data_ (with_buffer this buf')) (size_ rhs)) []
        end
    end
  else
    match copy_assign_loop (buffer_ (data_ this)) (buffer_ (data_ rhs)) 0
            (N.to_nat (size_ rhs)) with
    | Threw buf => Raised (with_buffer this buf) []
    | Done buf =>
        let i := size_ rhs in
        let buf' := destroy_n buf (N.to_nat i)
                      (N.to_nat (SizeT.sub (size_ this) (size_ rhs))) in
        Returned tt (MkVector (data_ (with_buffer this buf')) i) []
    end.

End VectorOps2.

(** ** Objects at addresses

    [operator=] compares [this] with the address of its argument, and
    [Swap] may be handed the object itself, so the two-object member
    functions are also given over a store of vectors. *)

Inductive completion : Type :=
  | Normal
  | Exceptional.

Section Store.
Context {T : Type} `{E : Element T}.

Definition loc : Type := positive.

(** [a.Swap(b)] on the objects at [a] and [b].  When [a = b] both writes
    store the same value: [std::swap(x, x)] leaves [x] as it is. *)
Definition Swap_at (a b : loc) (σ : gmap loc (Vector T)) : gmap loc (Vector T) :=
  match σ !! a, σ !! b with
  | Some va, Some vb =>
      let '(va', vb') := Swap va vb in
      <[a := va']> (<[b := vb']> σ)
  | _, _ => σ
  end.

(** [*this = rhs] *)
Definition assign_copy_at (this rhs : loc) (σ : gmap loc (Vector T))
  : completion * gmap loc (Vector T) * list T :=
  if decide (this = rhs) then (Normal, σ, [])
  else
    match σ !! this, σ !! rhs with
    | Some l, Some r =>
        match copy_assign l r with
        | Returned _ l' lost => (Normal, <[this := l']> σ, lost)
        | Raised l' lost => (Exceptional, <[this := l']> σ, lost)
        end
    | _, _ => (Normal, σ, [])
    end.

(** [*this = std::move(other)], which is [noexcept]. *)
Definition assign_move_at (this other : loc) (σ : gmap loc (Vector T))
  : gmap loc (Vector T) :=
  if decide (this = other) then σ else Swap_at this other σ.

End Store.

(** ** Two element types *)

(** [int]: nothing throws, a moved-from [int] keeps its value, allocation
    succeeds. *)
Definition int_element : Element Z := {|
  value_init := Some 0%Z;
  copy_throws := λ _, false;
  move_throws := λ _, false;
  moved_from := λ x, x;
  copy_assign_throws := λ _, false;
  move_assign_throws := λ _, false;
  alloc_fails := λ _, false;
  is_nothrow_move_constructible := true;
  is_copy_constructible := true;
  sizeof_T := 4;
  is_trivially_destructible := true;
  is_trivially_copyable := true;
  nothrow_move_sound := λ _ _, eq_refl;
  sizeof_T_range := conj eq_refl eq_refl;
  trivially_copyable_is_destructible := λ _, eq_refl
|}.

(** A copyable class of 8 bytes with a destructor of its own, whose move
    constructor is not [noexcept] and whose copy and move constructors
    throw on a negative payload; a moved-from object holds [0]. *)
Program Definition brittle_element : Element Z := {|
  value_init := Some 0%Z;
  copy_throws := λ x, (x <? 0)%Z;
  move_throws := λ x, (x <? 0)%Z;
  moved_from := λ _, 0%Z;
  copy_assign_throws := λ x, (x <? 0)%Z;
  move_assign_throws := λ x, (x <? 0)%Z;
  alloc_fails := λ _, false;
  is_nothrow_move_constructible := false;
  is_copy_constructible := true;
  sizeof_T := 8;
  is_trivially_destructible := false;
  is_trivially_copyable := false;
  sizeof_T_range := conj eq_refl eq_refl
|}.
Next Obligation. discriminate. Qed.
Next Obligation. discriminate. Qed.

(** ** Well-formed vectors *)

Section WellFormed.
Context {T : Type} `{E : Element T}.

(** The block has [capacity_] slots, [capacity_] is a [size_t], [size_]
    does not exceed it, the first [size_] slots hold live objects, and the
    block is one [operator new] can have given: its [capacity_ * sizeof(T)]
    bytes are counted by a [size_t]. *)
Definition well_formed (v : Vector T) : Prop :=
  length (buffer_ (data_ v)) = N.to_nat (capacity_ (data_ v)) ∧
  capacity_ (data_ v) < SizeT.modulus ∧
  size_ v ≤ capacity_ (data_ v) ∧
  forallb is_live (take (N.to_nat (size_ v)) (buffer_ (data_ v))) = true ∧
  capacity_ (data_ v) * sizeof_T < SizeT.modulus.

(** Doubling the capacity stays inside [size_t], counted in slots and in
    bytes: a block twice as large is one [operator new] can be asked
    for. *)
Definition fits (v : Vector T) : Prop :=
  2 * capacity_ (data_ v) < SizeT.modulus ∧
  2 * capacity_ (data_ v) * sizeof_T < SizeT.modulus.

(** [v1] has the size of [v] and the elements of [v] below that size. *)
Definition same_prefix (v v1 : Vector T) : Prop :=
  size_ v1 = size_ v ∧
  ∀ i : N, i < size_ v → at_index v1 i = at_index v i.

(** The sequence the vector holds, [begin()] to [end()]: the values of
    the objects in its first [size_] slots. *)
Definition elements (v : Vector T) : list T :=
  omap live_value (take (N.to_nat (size_ v)) (buffer_ (data_ v))).

(** [v'] is well-formed and holds the sequence of [v] with [x] inserted
    at [pos]; its capacity is that of [v] when [v] had room and
    [max(2*capacity, size+1)] otherwise. *)
Definition holds_inserted (v : Vector T) (pos : N) (x : T) (v' : Vector T)
  : Prop :=
  well_formed v' ∧
  elements v'
    = take (N.to_nat pos) (elements v) ++ x :: drop (N.to_nat pos) (elements v) ∧
  capacity_ (data_ v')
    = (if size_ v <? capacity_ (data_ v) then capacity_ (data_ v)
       else N.max (2 * capacity_ (data_ v)) (size_ v + 1)).

(** [buf'] has the length of [buf] and holds a live object in every
    slot below [n] where [buf] holds one. *)
Definition keeps_live (n : nat) (buf buf' : list (slot T)) : Prop :=
  length buf' = length buf ∧
  ∀ i : nat, (i < n)%nat →
    (∃ x, buf !! i = Some (Live x)) → ∃ y, buf' !! i = Some (Live y).

(** The invariant of the data model: [size_] within the capacity, live
    objects in the slots below [size_], no object in the slots from
    [size_] on. *)
Definition invariant (v : Vector T) : Prop :=
  size_ v ≤ capacity_ (data_ v) ∧
  (∀ i : N, i < size_ v →
     ∃ x, buffer_ (data_ v) !! N.to_nat i = Some (Live x)) ∧
  (∀ i : N, size_ v ≤ i < capacity_ (data_ v) →
     buffer_ (data_ v) !! N.to_nat i = Some Raw).

End WellFormed.

(** ** States a program can reach, and runs of appends *)

Section Reachable.
Context {T : Type} `{E : Element T}.

(** No operation of the element type throws and no allocation fails. *)
Definition never_throws : Prop :=
  (∃ x, value_init = Some x) ∧
  (∀ x, copy_throws x = false) ∧
  (∀ x, move_throws x = false) ∧
  (∀ x, copy_assign_throws x = false) ∧
  (∀ x, move_assign_throws x = false) ∧
  (∀ n, alloc_fails n = false).

(** The vectors a program can hold: built by a constructor, then changed
    by the public member functions, called within their preconditions
    and with [size_t] arguments.  A vector left by an exception is still
    there for the caller.  [Insert] is [Emplace]; move assignment is
    [Swap]. *)
Inductive reachable : Vector T → Prop :=
  | reach_default : reachable Vector_default
  | reach_sized size v :
      size < SizeT.modulus → Vector_sized size = Some v → reachable v
  | reach_copy other v :
      reachable other → Vector_copy other = Some v → reachable v
  | reach_move other :
      reachable other → reachable (Vector_move other).1
  | reach_moved_from other :
      reachable other → reachable (Vector_move other).2
  | reach_copy_assign this rhs :
      reachable this → reachable rhs →
      reachable (self_of (copy_assign this rhs))
  | reach_swap_this this other :
      reachable this → reachable other → reachable (Swap this other).1
  | reach_swap_other this other :
      reachable this → reachable other → reachable (Swap this other).2
  | reach_reserve n v :
      n < SizeT.modulus → reachable v → reachable (self_of (Reserve n v))
  | reach_resize n v :
      n < SizeT.modulus → reachable v → reachable (self_of (Resize n v))
  | reach_push_back_copy value v :
      reachable v → reachable (self_of (PushBack_copy value v))
  | reach_push_back_forward copy_constructible_U made v :
      reachable v →
      reachable (self_of (PushBack_forward copy_constructible_U made v))
  | reach_emplace_back made v :
      reachable v → reachable (self_of (EmplaceBack made v))
  | reach_emplace pos made v :
      pos ≤ size_ v → reachable v → reachable (self_of (Emplace pos made v))
  | reach_erase pos v :
      pos < size_ v → reachable v → reachable (self_of (Erase pos v))
  | reach_pop_back v :
      reachable v → reachable (PopBack v).

(** What the two in-place branches must not meet in [rhs] to complete:
    a throwing assignment below [min(size, rhs.size)], a throwing copy
    construction from [size] up to [rhs.size]. *)
Definition in_place_completes (this rhs : Vector T) : Prop :=
  (∀ (i : N) x, i < N.min (size_ this) (size_ rhs) →
     at_index rhs i = Some (Live x) → copy_assign_throws x = false) ∧
  (∀ (i : N) x, size_ this ≤ i < size_ rhs →
     at_index rhs i = Some (Live x) → copy_throws x = false).

(** Appends the values one after the other with [push] and lists the
    (size, capacity) seen after each. *)
Fixpoint push_back_all (push : T → Vector T → result T unit)
    (xs : list T) (v : Vector T) : list (N * N) :=
  match xs with
  | [] => []
  | x :: xs' =>
      let v' := self_of (push x v) in
      (Size v', Capacity v') :: push_back_all push xs' v'
  end.

End Reachable.

(** ** Lemmas on the storage algorithms *)

Section AlgorithmLemmas.
Context {T : Type} `{E : Element T}.
Implicit Types (buf src dst : list (slot T)) (i k n first d : nat).

Lemma destroy_n_length buf first n :
  length (destroy_n buf first n) = length buf.
Proof.
  revert buf first. induction n as [|n IH]; intros buf first; simpl; [done|].
  rewrite IH. unfold destroy_at. by rewrite length_insert.
Qed.

Lemma destroy_n_lookup_out buf first n i :
  (i < first ∨ first + n ≤ i)%nat →
  destroy_n buf first n !! i = buf !! i.
Proof.
  revert buf first. induction n as [|n IH]; intros buf first Hi; simpl; [done|].
  rewrite IH by lia. unfold destroy_at.
  apply list_lookup_insert_ne. lia.
Qed.

Lemma destroy_n_lookup_in buf first n i :
  (first ≤ i < first + n)%nat → (i < length buf)%nat →
  destroy_n buf first n !! i = Some Raw.
Proof.
  revert buf first. induction n as [|n IH]; intros buf first Hi Hlen; simpl; [lia|].
  destruct (decide (i = first)) as [->|Hne].
  - rewrite destroy_n_lookup_out by lia. unfold destroy_at.
    by apply list_lookup_insert_eq.
  - apply IH; [lia|]. unfold destroy_at. by rewrite length_insert.
Qed.

Lemma uninitialized_copy_from_done src first n dst d0 d dst' :
  uninitialized_copy_from src first n dst d0 d = Done dst' →
  length dst' = length dst ∧
  (∀ i, (i < d ∨ d + n ≤ i)%nat → dst' !! i = dst !! i) ∧
  (∀ k x, (k < n)%nat → src !! (first + k)%nat = Some (Live x) →
     copy_throws x = false ∧
     ((d + k < length dst)%nat → dst' !! (d + k)%nat = Some (Live x))).
Proof.
  revert first dst d. induction n as [|n IH]; intros first dst d Hrun; simpl in Hrun.
  - inversion Hrun; subst. split_and!; [done|done|intros; lia].
  - destruct (src !! first) as [[|x]|] eqn:Hsrc.
    + apply IH in Hrun as (Hlen & Hout & Hin). split_and!; [done|intros; apply Hout; lia|].
      intros k y Hk Hy. destruct k as [|k].
      * rewrite Nat.add_0_r in Hy. congruence.
      * replace (first + S k)%nat with (S first + k)%nat in Hy by lia.
        replace (d + S k)%nat with (S d + k)%nat by lia. apply Hin; [lia|done].
    + destruct (copy_throws x) eqn:Hthrow; [done|].
      apply IH in Hrun as (Hlen & Hout & Hin). unfold construct_at in *.
      rewrite length_insert in Hlen, Hin.
      split_and!; [done|intros i Hi; rewrite Hout by lia; apply list_lookup_insert_ne; lia|].
      intros k y Hk Hy. destruct k as [|k].
      * rewrite Nat.add_0_r in *. assert (y = x) as -> by congruence.
        split; [done|]. intros Hd. rewrite Hout by lia.
        by apply list_lookup_insert_eq.
      * replace (first + S k)%nat with (S first + k)%nat in Hy by lia.
        replace (d + S k)%nat with (S d + k)%nat by lia. apply Hin; [lia|done].
    + apply IH in Hrun as (Hlen & Hout & Hin). split_and!; [done|intros; apply Hout; lia|].
      intros k y Hk Hy. destruct k as [|k].
      * rewrite Nat.add_0_r in Hy. congruence.
      * replace (first + S k)%nat with (S first + k)%nat in Hy by lia.
        replace (d + S k)%nat with (S d + k)%nat by lia. apply Hin; [lia|done].
Qed.

Lemma uninitialized_copy_from_total src first n dst d0 d :
  (∀ k x, (k < n)%nat → src !! (first + k)%nat = Some (Live x) →
     copy_throws x = false) →
  ∃ dst', uninitialized_copy_from src first n dst d0 d = Done dst'.
Proof.
  revert first dst d. induction n as [|n IH]; intros first dst d Hok; simpl; [eauto|].
  assert (∀ k x, (k < n)%nat → src !! (S first + k)%nat = Some (Live x) →
            copy_throws x = false) as Hok'.
  { intros k x Hk Hx. apply (Hok (S k)); [lia|].
    by replace (first + S k)%nat with (S first + k)%nat by lia. }
  destruct (src !! first) as [[|x]|] eqn:Hsrc; [by apply IH| |by apply IH].
  rewrite (Hok 0%nat x); [by apply IH|lia|by rewrite Nat.add_0_r].
Qed.

Lemma uninitialized_copy_from_threw src first n dst d0 d dst' :
  uninitialized_copy_from src first n dst d0 d = Threw dst' →
  ∃ k x, (k < n)%nat ∧ src !! (first + k)%nat = Some (Live x) ∧
         copy_throws x = true.
Proof.
  revert first dst d. induction n as [|n IH]; intros first dst d Hrun; simpl in Hrun;
    [done|].
  assert (∀ dst1, uninitialized_copy_from src (S first) n dst1 d0 (S d) = Threw dst' →
            ∃ k x, (k < S n)%nat ∧ src !! (first + k)%nat = Some (Live x) ∧
                   copy_throws x = true) as Hstep.
  { intros dst1 Hrun1. apply IH in Hrun1 as (k & x & Hk & Hx & Hthrow).
    exists (S k), x. split_and!; [lia| |done].
    by replace (first + S k)%nat with (S first + k)%nat by lia. }
  destruct (src !! first) as [[|x]|] eqn:Hsrc; [by eapply Hstep| |by eapply Hstep].
  destruct (copy_throws x) eqn:Hthrow; [|by eapply Hstep].
  exists 0%nat, x. split_and!; [lia|by rewrite Nat.add_0_r|done].
Qed.

End AlgorithmLemmas.

Section AlgorithmLemmas2.
Context {T : Type} `{E : Element T}.
Implicit Types (buf src dst : list (slot T)) (i k n first d : nat).

Lemma uninitialized_move_from_done src first n dst d0 d src' dst' :
  uninitialized_move_from src first n dst d0 d = Done (src', dst') →
  length dst' = length dst ∧
  (∀ i, (i < d ∨ d + n ≤ i)%nat → dst' !! i = dst !! i) ∧
  (∀ k x, (k < n)%nat → src !! (first + k)%nat = Some (Live x) →
     move_throws x = false ∧
     ((d + k < length dst)%nat → dst' !! (d + k)%nat = Some (Live x))).
Proof.
  revert src first dst d.
  induction n as [|n IH]; intros src first dst d Hrun; simpl in Hrun.
  - inversion Hrun; subst. split_and!; [done|done|intros; lia].
  - assert (∀ src1 dst1,
              (∀ j, j ≠ first → src1 !! j = src !! j) →
              length dst1 = length dst →
              (∀ i, i ≠ d → dst1 !! i = dst !! i) →
              uninitialized_move_from src1 (S first) n dst1 d0 (S d)
                = Done (src', dst') →
              length dst' = length dst ∧
              (∀ i, (i < d ∨ d + S n ≤ i)%nat → dst' !! i = dst !! i) ∧
              (∀ k x, (k < n)%nat → src !! (first + S k)%nat = Some (Live x) →
                 move_throws x = false ∧
                 ((d + S k < length dst)%nat →
                  dst' !! (d + S k)%nat = Some (Live x)))) as Hstep.
    { intros src1 dst1 Hsrc1 Hlen1 Hdst1 Hrun1.
      apply IH in Hrun1 as (Hlen & Hout & Hin). rewrite Hlen1 in Hlen, Hin.
      split_and!; [done|intros i Hi; rewrite Hout by lia; apply Hdst1; lia|].
      intros k x Hk Hx.
      replace (d + S k)%nat with (S d + k)%nat by lia.
      apply Hin; [done|]. rewrite Hsrc1 by lia. rewrite <- Hx. f_equal. lia. }
    destruct (src !! first) as [[|x]|] eqn:Hsrc.
    + destruct (Hstep src dst) as (Hlen & Hout & Hin); [done..|].
      split_and!; [done|done|]. intros [|k] y Hk Hy.
      * rewrite Nat.add_0_r in Hy. congruence.
      * apply Hin; [lia|done].
    + destruct (move_throws x) eqn:Hthrow; [done|].
      destruct (Hstep (<[first := Live (moved_from x)]> src) (construct_at dst d x))
        as (Hlen & Hout & Hin); unfold construct_at in *.
      { intros j Hj. by apply list_lookup_insert_ne. }
      { by rewrite length_insert. }
      { intros i Hi. by apply list_lookup_insert_ne. }
      { done. }
      split_and!; [done|done|]. intros [|k] y Hk Hy.
      * rewrite Nat.add_0_r in *. assert (y = x) as -> by congruence.
        split; [done|]. intros Hd.
        destruct n as [|n].
        -- simpl in Hrun. inversion Hrun; subst. by apply list_lookup_insert_eq.
        -- apply IH in Hrun as (_ & Hout' & _). rewrite Hout' by lia.
           by apply list_lookup_insert_eq.
      * apply Hin; [lia|done].
    + destruct (Hstep src dst) as (Hlen & Hout & Hin); [done..|].
      split_and!; [done|done|]. intros [|k] y Hk Hy.
      * rewrite Nat.add_0_r in Hy. congruence.
      * apply Hin; [lia|done].
Qed.

Lemma uninitialized_move_from_total src first n dst d0 d :
  (∀ k x, (k < n)%nat → src !! (first + k)%nat = Some (Live x) →
     move_throws x = false) →
  ∃ src' dst', uninitialized_move_from src first n dst d0 d = Done (src', dst').
Proof.
  revert src first dst d.
  induction n as [|n IH]; intros src first dst d Hok; simpl; [eauto|].
  assert (∀ src1, (∀ j, j ≠ first → src1 !! j = src !! j) →
            ∀ k x, (k < n)%nat → src1 !! (S first + k)%nat = Some (Live x) →
                   move_throws x = false) as Hok'.
  { intros src1 Hsrc1 k x Hk Hx. apply (Hok (S k)); [lia|].
    rewrite Hsrc1 in Hx by lia. rewrite <- Hx. f_equal. lia. }
  destruct (src !! first) as [[|x]|] eqn:Hsrc; [by apply IH, Hok'| |by apply IH, Hok'].
  rewrite (Hok 0%nat x); [|lia|by rewrite Nat.add_0_r].
  apply IH, Hok'. intros j Hj. by apply list_lookup_insert_ne.
Qed.

(** What a completed relocation leaves in the destination block. *)
Lemma relocate_n_done by_move src first n dst d src' dst' :
  relocate_n by_move src first n dst d = Done (src', dst') →
  length dst' = length dst ∧
  (∀ i, (i < d ∨ d + n ≤ i)%nat → dst' !! i = dst !! i) ∧
  (∀ k x, (k < n)%nat → src !! (first + k)%nat = Some (Live x) →
     (d + k < length dst)%nat → dst' !! (d + k)%nat = Some (Live x)).
Proof.
  unfold relocate_n, uninitialized_move_n, uninitialized_copy_n.
  destruct by_move.
  - intros Hrun. apply uninitialized_move_from_done in Hrun as (Hlen & Hout & Hin).
    split_and!; [done|done|]. intros k x Hk Hx. by apply Hin.
  - destruct (uninitialized_copy_from src first n dst d d) as [dst1|dst1] eqn:Hrun;
      [|done].
    intros [= <- <-].
    apply uninitialized_copy_from_done in Hrun as (Hlen & Hout & Hin).
    split_and!; [done|done|]. intros k x Hk Hx. by apply Hin.
Qed.

Lemma relocate_n_total by_move src first n dst d :
  (∀ k x, (k < n)%nat → src !! (first + k)%nat = Some (Live x) →
     copy_throws x = false ∧ move_throws x = false) →
  ∃ src' dst', relocate_n by_move src first n dst d = Done (src', dst').
Proof.
  intros Hok. unfold relocate_n, uninitialized_move_n, uninitialized_copy_n.
  destruct by_move.
  - apply uninitialized_move_from_total. intros k x Hk Hx. by apply (Hok k x).
  - destruct (uninitialized_copy_from_total src first n dst d d) as [dst' ->]; [|eauto].
    intros k x Hk Hx. by apply (Hok k x).
Qed.

Lemma uninitialized_value_construct_from_done x buf d0 first n :
  value_init = Some x →
  ∃ buf', uninitialized_value_construct_from buf d0 first n = Done buf' ∧
    length buf' = length buf ∧
    (∀ i, (i < first ∨ first + n ≤ i)%nat → buf' !! i = buf !! i) ∧
    (∀ i, (first ≤ i < first + n)%nat → (i < length buf)%nat →
       buf' !! i = Some (Live x)).
Proof.
  intros Hinit. revert buf first. induction n as [|n IH]; intros buf first; simpl.
  - exists buf. split_and!; [done|done|done|intros; lia].
  - rewrite Hinit. destruct (IH (construct_at buf first x) (S first))
      as (buf' & Hrun & Hlen & Hout & Hin).
    unfold construct_at in *. rewrite length_insert in Hlen, Hin.
    exists buf'. split_and!; [done|done| |].
    + intros i Hi. rewrite Hout by lia. apply list_lookup_insert_ne. lia.
    + intros i Hi Hlt. destruct (decide (i = first)) as [->|Hne].
      * rewrite Hout by lia. by apply list_lookup_insert_eq.
      * apply Hin; [lia|done].
Qed.

Lemma uninitialized_value_construct_from_threw buf d0 first n :
  value_init = None → (0 < n)%nat →
  ∃ buf', uninitialized_value_construct_from buf d0 first n = Threw buf'.
Proof. intros Hinit Hn. destruct n; [lia|]. simpl. rewrite Hinit. eauto. Qed.

Lemma copy_assign_loop_done dst src first n dst' :
  copy_assign_loop dst src first n = Done dst' →
  length dst' = length dst ∧
  (∀ i, (i < first ∨ first + n ≤ i)%nat → dst' !! i = dst !! i) ∧
  (∀ k x, (k < n)%nat → src !! (first + k)%nat = Some (Live x) →
     copy_assign_throws x = false ∧
     ((first + k < length dst)%nat → dst' !! (first + k)%nat = Some (Live x))).
Proof.
  revert first dst. induction n as [|n IH]; intros first dst Hrun; simpl in Hrun.
  - inversion Hrun; subst. split_and!; [done|done|intros; lia].
  - assert (∀ dst1, length dst1 = length dst →
              (∀ i, i ≠ first → dst1 !! i = dst !! i) →
              copy_assign_loop dst1 src (S first) n = Done dst' →
              length dst' = length dst ∧
              (∀ i, (i < first ∨ first + S n ≤ i)%nat → dst' !! i = dst !! i) ∧
              (∀ k x, (k < n)%nat → src !! (first + S k)%nat = Some (Live x) →
                 copy_assign_throws x = false ∧
                 ((first + S k < length dst)%nat →
                  dst' !! (first + S k)%nat = Some (Live x)))) as Hstep.
    { intros dst1 Hlen1 Hdst1 Hrun1.
      apply IH in Hrun1 as (Hlen & Hout & Hin). rewrite Hlen1 in Hlen, Hin.
      split_and!; [done|intros i Hi; rewrite Hout by lia; apply Hdst1; lia|].
      intros k x Hk Hx.
      replace (first + S k)%nat with (S first + k)%nat in * by lia.
      by apply Hin. }
    destruct (src !! first) as [[|x]|] eqn:Hsrc.
    + destruct (Hstep dst) as (Hlen & Hout & Hin); [done..|].
      split_and!; [done|done|]. intros [|k] y Hk Hy.
      * rewrite Nat.add_0_r in Hy. congruence.
      * apply Hin; [lia|done].
    + unfold copy_assign_at in Hrun.
      destruct (copy_assign_throws x) eqn:Hthrow; [done|].
      destruct (Hstep (<[first := Live x]> dst)) as (Hlen & Hout & Hin).
      { by rewrite length_insert. }
      { intros i Hi. by apply list_lookup_insert_ne. }
      { done. }
      split_and!; [done|done|]. intros [|k] y Hk Hy.
      * rewrite Nat.add_0_r in *. assert (y = x) as -> by congruence.
        split; [done|]. intros Hd.
        apply IH in Hrun as (_ & Hout' & _). rewrite Hout' by lia.
        by apply list_lookup_insert_eq.
      * apply Hin; [lia|done].
    + destruct (Hstep dst) as (Hlen & Hout & Hin); [done..|].
      split_and!; [done|done|]. intros [|k] y Hk Hy.
      * rewrite Nat.add_0_r in Hy. congruence.
      * apply Hin; [lia|done].
Qed.

Lemma copy_assign_loop_total dst src first n :
  (∀ k x, (k < n)%nat → src !! (first + k)%nat = Some (Live x) →
     copy_assign_throws x = false) →
  ∃ dst', copy_assign_loop dst src first n = Done dst'.
Proof.
  revert first dst. induction n as [|n IH]; intros first dst Hok; simpl; [eauto|].
  assert (∀ k x, (k < n)%nat → src !! (S first + k)%nat = Some (Live x) →
            copy_assign_throws x = false) as Hok'.
  { intros k x Hk Hx. apply (Hok (S k)); [lia|].
    by replace (first + S k)%nat with (S first + k)%nat by lia. }
  destruct (src !! first) as [[|x]|] eqn:Hsrc; [by apply IH| |by apply IH].
  unfold copy_assign_at. rewrite (Hok 0%nat x); [by apply IH|lia|by rewrite Nat.add_0_r].
Qed.

End AlgorithmLemmas2.

(** ** Arithmetic facts *)

Lemma SizeT_modulus_gt_1 : 1 < SizeT.modulus.
Proof. reflexivity. Qed.

Lemma SizeT_add_small a b : a + b < SizeT.modulus → SizeT.add a b = a + b.
Proof. intros H. unfold SizeT.add. by apply N.mod_small. Qed.

Lemma SizeT_mul_small a b : a * b < SizeT.modulus → SizeT.mul a b = a * b.
Proof. intros H. unfold SizeT.mul. by apply N.mod_small. Qed.

Lemma SizeT_sub_small a b : b ≤ a → a < SizeT.modulus → SizeT.sub a b = a - b.
Proof.
  intros Hle Hlt. unfold SizeT.sub.
  replace (a + SizeT.modulus - b) with (a - b + 1 * SizeT.modulus) by lia.
  rewrite N.Div0.mod_add. apply N.mod_small. lia.
Qed.

(** ** Facts on well-formed vectors *)

Section WellFormedLemmas.
Context {T : Type} `{E : Element T}.
Implicit Types (v : Vector T).

Lemma well_formed_live v (i : nat) :
  well_formed v → (i < N.to_nat (size_ v))%nat →
  ∃ x, buffer_ (data_ v) !! i = Some (Live x).
Proof.
  intros (Hlen & _ & Hle & Hlive & _) Hi.
  destruct (lookup_lt_is_Some_2 (buffer_ (data_ v)) i) as [s Hs]; [lia|].
  assert (is_live s = true) as Hs'.
  { eapply (proj1 (forallb_forall _ _) Hlive).
    apply list_elem_of_In, list_elem_of_lookup. exists i.
    by rewrite lookup_take_lt. }
  destruct s as [|x]; [done|eauto].
Qed.

Lemma fits_add_1 v : well_formed v → fits v → size_ v + 1 < SizeT.modulus.
Proof.
  intros (_ & Hcap & Hle & _) [Hfits _].
  pose proof SizeT_modulus_gt_1. lia.
Qed.

(** [sizeof(T)] is at least 1, so a count of bytes bounds the count of
    slots. *)
Lemma slots_below_bytes (n : N) : n ≤ n * sizeof_T.
Proof. pose proof sizeof_T_range. nia. Qed.

(** Twice the capacity, or one slot for an empty block, is a block
    [operator new] can be asked for. *)
Lemma fits_grown v :
  well_formed v → fits v →
  N.max (2 * capacity_ (data_ v)) (size_ v + 1) * sizeof_T < SizeT.modulus.
Proof.
  intros (_ & _ & Hle & _ & Hbytes) [Hfits Hfits'].
  pose proof sizeof_T_range.
  destruct (N.max_spec (2 * capacity_ (data_ v)) (size_ v + 1)) as [[? ->]|[? ->]];
    [|done].
  assert (capacity_ (data_ v) = 0) as Hcap by lia.
  assert (size_ v = 0) as -> by lia. lia.
Qed.

(** The elements of a well-formed vector take no more bytes than its
    block. *)
Lemma well_formed_size_bytes v :
  well_formed v → size_ v * sizeof_T < SizeT.modulus.
Proof. intros (_ & _ & Hle & _ & Hbytes). nia. Qed.

(** A block whose bytes are counted without a wrap has all its slots. *)
Lemma block_slots_exact (n : N) : n * sizeof_T < SizeT.modulus → block_slots n = n.
Proof.
  intros Hn. unfold block_slots. rewrite SizeT_mul_small by done.
  apply N.div_mul. pose proof sizeof_T_range. lia.
Qed.

End WellFormedLemmas.

(** ** [PopBack] and [Erase]: which slot is destroyed *)

(** C1.  On every non-empty vector [PopBack] decrements [size_], but the
    slot it destroys is [size_] (one past the last element), not
    [size_ - 1]: the last element is left alive in its slot. *)
Theorem PopBack_leaves_last_element_alive :
  ∀ (T : Type) (v : Vector T),
    size_ v ≠ 0 → size_ v < SizeT.modulus →
    size_ (PopBack v) = size_ v - 1 ∧
    buffer_ (data_ (PopBack v))
      = destroy_at (buffer_ (data_ v)) (N.to_nat (size_ v)) ∧
    at_index (PopBack v) (size_ v - 1) = at_index v (size_ v - 1).
Proof.
  intros T v Hne Hlt. unfold PopBack, at_index.
  destruct (N.eqb_spec (size_ v) 0) as [|_]; [done|]. simpl.
  pose proof SizeT_modulus_gt_1.
  split_and!; [apply SizeT_sub_small; lia|done|].
  unfold destroy_at. apply list_lookup_insert_ne. lia.
Qed.

Lemma PopBack_leaves_last_element_alive_witness :
  let v := MkVector (MkRawMemory [Live 1%Z; Live 2%Z; Live 3%Z; Raw] 4) 3 in
  PopBack v = MkVector (MkRawMemory [Live 1%Z; Live 2%Z; Live 3%Z; Raw] 4) 2 ∧
  at_index (PopBack v) 2 = Some (Live 3%Z).
Proof.
  intros v. split; [reflexivity|].
  destruct (PopBack_leaves_last_element_alive Z v) as (_ & _ & Hlast);
    [discriminate|reflexivity|].
  exact Hlast.
Defined.

(** C2.  On [A,B,C], erasing the position of [B] gives [A,C] and returns
    the position of [C], but the slot destroyed is [size_] (past the
    block here), not the vacated last slot: the object at index 2 stays
    alive, holding whatever the move left in it. *)
Theorem Erase_leaves_vacated_slot_alive :
  let abc := MkVector (MkRawMemory [Live 10%Z; Live 20%Z; Live 30%Z] 3) 3 in
  Erase (E := int_element) 1 abc
    = Returned 1
        (MkVector (MkRawMemory [Live 10%Z; Live 30%Z; Live 30%Z] 3) 2) [] ∧
  Erase (E := brittle_element) 1 abc
    = Returned 1
        (MkVector (MkRawMemory [Live 10%Z; Live 30%Z; Live 0%Z] 3) 2) [].
Proof. split; reflexivity. Qed.

(** ** Appending while the block is full and relocation throws *)

(** C3.  A vector holding one element at capacity 1, of a class whose
    copy constructor throws on that element.  Both appends build the new
    element [7] in the new block first and leave the vector as it was when
    the relocation throws; [PushBack(U&&)] destroys the new element before
    the block is released, [EmplaceBack] releases the block with the new
    element still alive in it. *)
Theorem EmplaceBack_loses_new_element :
  let v := MkVector (MkRawMemory [Live (-1)%Z] 1) 1 in
  PushBack_forward (E := brittle_element) true (Some 7%Z) v = Raised v [] ∧
  EmplaceBack (E := brittle_element) (Some 7%Z) v = Raised v [7%Z].
Proof. split; reflexivity. Qed.

(** ** The invariant on reachable states *)

(** C4.  A reachable vector that breaks the invariant: after [PushBack]
    and [PopBack] on an empty vector, [size_] is 0 and slot 0 still holds
    the live element. *)
Theorem reachable_breaks_invariant :
  ∃ v : Vector Z,
    reachable (E := int_element) v ∧
    v = MkVector (MkRawMemory [Live 5%Z] 1) 0 ∧
    ¬ invariant v.
Proof.
  exists (PopBack (self_of (PushBack_copy (E := int_element) 5%Z Vector_default))).
  split_and!.
  - apply reach_pop_back, reach_push_back_copy, reach_default.
  - reflexivity.
  - change (¬ invariant (MkVector (MkRawMemory [Live 5%Z] 1) 0)).
    intros (_ & _ & Hraw). specialize (Hraw 0). simpl in Hraw.
    discriminate Hraw. lia.
Qed.

(** ** Self-assignment and [Swap] *)

(** C9.  Copy-assigning or move-assigning a vector to itself leaves every
    object, that vector included, as it was, and does not throw. *)
Theorem self_assignment_changes_nothing :
  ∀ (T : Type) (E : Element T) (σ : gmap loc (Vector T)) (a : loc),
    assign_copy_at a a σ = (Normal, σ, []) ∧
    assign_move_at a a σ = σ.
Proof.
  intros T E σ a. unfold assign_copy_at, assign_move_at.
  destruct (decide (a = a)) as [_|Hne]; [done|congruence].
Qed.

(** [Swap] on two values exchanges them whole. *)
Lemma Swap_pair {T : Type} (a b : Vector T) : Swap a b = (b, a).
Proof. by destruct a as [[? ?] ?], b as [[? ?] ?]. Qed.

(** C10.  [a.Swap(b)] leaves at [a] the vector [b] held, with its
    elements, size and capacity, and at [b] the vector [a] held, and
    touches no other object; as a [noexcept] function it has no
    exceptional outcome. *)
Theorem Swap_exchanges_states :
  ∀ (T : Type) (σ : gmap loc (Vector T)) (a b : loc) (va vb : Vector T),
    σ !! a = Some va → σ !! b = Some vb →
    Swap_at a b σ !! a = Some vb ∧
    Swap_at a b σ !! b = Some va ∧
    (∀ c, c ≠ a → c ≠ b → Swap_at a b σ !! c = σ !! c).
Proof.
  intros T σ a b va vb Ha Hb. unfold Swap_at. rewrite Ha, Hb, Swap_pair.
  split_and!.
  - apply lookup_insert_eq.
  - destruct (decide (a = b)) as [->|Hne].
    + rewrite lookup_insert_eq. congruence.
    + rewrite lookup_insert_ne by done. apply lookup_insert_eq.
  - intros c Hca Hcb. by rewrite !lookup_insert_ne.
Qed.

Lemma Swap_exchanges_states_witness :
  let va := MkVector (MkRawMemory [Live 1%Z; Raw] 2) 1 in
  let vb := MkVector (MkRawMemory [Live 7%Z; Live 8%Z; Live 9%Z] 3) 3 in
  let σ : gmap loc (Vector Z) := <[1%positive := va]> (<[2%positive := vb]> ∅) in
  Swap_at 1%positive 2%positive σ !! 1%positive = Some vb ∧
  Swap_at 1%positive 2%positive σ !! 2%positive = Some va.
Proof.
  intros va vb σ.
  destruct (Swap_exchanges_states Z σ 1%positive 2%positive va vb)
    as (Ha & Hb & _); [reflexivity|reflexivity|].
  split; [exact Ha|exact Hb].
Defined.

(** ** Capacity growth of the appends *)

Section GrowthLemmas.
Context {T : Type} `{E : Element T}.

(** [RawMemory(capacity)] records the capacity it was asked for, whatever
    block [Allocate] gave. *)
Lemma RawMemory_sized_capacity (capacity : N) (m : RawMemory T) :
  RawMemory_sized capacity = Some m →
  capacity_ m = capacity ∧
  (alloc_fails capacity = false ∨ capacity = 0) ∧
  buffer_ m = replicate (N.to_nat (block_slots capacity)) Raw.
Proof.
  unfold RawMemory_sized, Allocate.
  destruct (N.eqb_spec capacity 0) as [->|Hne].
  - intros [= <-]. simpl. auto.
  - destruct (alloc_fails capacity) eqn:Hfail; [done|].
    intros [= <-]. simpl. auto.
Qed.

(** The block has [capacity] slots when its bytes are counted without a
    wrap. *)
Lemma RawMemory_sized_exact (capacity : N) (m : RawMemory T) :
  capacity * sizeof_T < SizeT.modulus →
  RawMemory_sized capacity = Some m →
  capacity_ m = capacity ∧
  (alloc_fails capacity = false ∨ capacity = 0) ∧
  buffer_ m = replicate (N.to_nat capacity) Raw.
Proof.
  intros Hbytes Hnew.
  apply RawMemory_sized_capacity in Hnew as (Hcap & Hok & Hbuf).
  by rewrite block_slots_exact in Hbuf.
Qed.

Lemma RawMemory_sized_returns (capacity : N) :
  alloc_fails capacity = false → ∃ m, RawMemory_sized capacity = Some m.
Proof.
  intros Hok. unfold RawMemory_sized, Allocate. rewrite Hok.
  destruct (capacity =? 0); eauto.
Qed.

Lemma RawMemory_sized_total (capacity : N) :
  alloc_fails capacity = false →
  capacity * sizeof_T < SizeT.modulus →
  RawMemory_sized capacity
    = Some (MkRawMemory (replicate (N.to_nat capacity) Raw) capacity).
Proof.
  intros Hok Hbytes. unfold RawMemory_sized, Allocate.
  rewrite Hok, block_slots_exact by done.
  destruct (N.eqb_spec capacity 0) as [->|Hne]; done.
Qed.

(** The capacity [PushBack(const T&)] and [EmplaceBack] ask for. *)
Lemma doubled_capacity (v : Vector T) :
  size_ v = Capacity v → fits v →
  (if size_ v =? 0 then 1 else SizeT.mul (size_ v) 2)
    = N.max (2 * Capacity v) 1 ∧
  N.max (2 * Capacity v) 1 = N.max (2 * Capacity v) (size_ v + 1).
Proof.
  unfold fits, Capacity. intros Heq [Hfits _]. rewrite Heq.
  destruct (N.eqb_spec (capacity_ (data_ v)) 0) as [->|Hne]; [done|].
  rewrite SizeT_mul_small by lia. lia.
Qed.

(** The capacity [PushBack(U&&)] asks for. *)
Lemma forward_capacity (v : Vector T) :
  size_ v ≤ Capacity v → fits v →
  N.max (SizeT.mul (Capacity v) 2) (SizeT.add (size_ v) 1)
    = N.max (2 * Capacity v) (size_ v + 1).
Proof.
  unfold fits, Capacity. intros Hle [Hfits _]. pose proof SizeT_modulus_gt_1.
  rewrite SizeT_mul_small, SizeT_add_small by lia. lia.
Qed.

(** Either capacity is that of a block [operator new] can be asked
    for. *)
Lemma doubled_capacity_bytes (v : Vector T) :
  well_formed v → fits v → size_ v = Capacity v →
  N.max (2 * Capacity v) 1 * sizeof_T < SizeT.modulus.
Proof.
  intros Hwf Hfits Heq. destruct (doubled_capacity v Heq) as [_ ->]; [tauto|].
  by apply fits_grown.
Qed.

Lemma forward_capacity_bytes (v : Vector T) :
  well_formed v → fits v →
  N.max (2 * Capacity v) (size_ v + 1) * sizeof_T < SizeT.modulus.
Proof. apply fits_grown. Qed.

End GrowthLemmas.

(** C5 as worded fails: the capacity also changes outside the appends.
    [Reserve(10)] on a vector of size 2 and capacity 3, which is not full,
    returns with capacity 10 and the two elements in the new block. *)
Lemma Reserve_changes_the_capacity :
  let v := MkVector (MkRawMemory [Live 1%Z; Live 2%Z; Raw] 3) 2 in
  well_formed (E := int_element) v ∧
  size_ v ≠ Capacity v ∧ Capacity v = 3 ∧
  Reserve (E := int_element) 10 v
    = Returned tt
        (MkVector (MkRawMemory ([Live 1%Z; Live 2%Z] ++ replicate 8 Raw) 10) 2)
        [] ∧
  Capacity (self_of (Reserve (E := int_element) 10 v)) = 10.
Proof.
  intros v.
  split_and!; [split_and!; [reflexivity|reflexivity|vm_compute; discriminate
              |reflexivity|reflexivity]|vm_compute; discriminate|reflexivity..].
Qed.

(** C5.  An append changes the capacity only when it returns and found
    [size_ == capacity]; the capacity is then [max(2*old, 1)] for
    [PushBack(const T&)] and [max(2*old, size+1)] for [PushBack(U&&)] and
    [EmplaceBack].  Five integers pushed one by one onto an empty vector
    give the capacities 0, 1, 2, 4, 4, 8 and end at size 5. *)
Theorem append_capacity_policy :
  (∀ (T : Type) (E : Element T) (v : Vector T),
     size_ v ≤ Capacity v → fits v →
     (∀ value,
        Capacity (self_of (PushBack_copy value v)) =
          if has_returned (PushBack_copy value v) && (size_ v =? Capacity v)
          then N.max (2 * Capacity v) 1 else Capacity v) ∧
     (∀ copy_constructible_U made,
        Capacity (self_of (PushBack_forward copy_constructible_U made v)) =
          if has_returned (PushBack_forward copy_constructible_U made v)
             && (size_ v =? Capacity v)
          then N.max (2 * Capacity v) (size_ v + 1) else Capacity v) ∧
     (∀ made,
        Capacity (self_of (EmplaceBack made v)) =
          if has_returned (EmplaceBack made v) && (size_ v =? Capacity v)
          then N.max (2 * Capacity v) (size_ v + 1) else Capacity v)) ∧
  Capacity (@Vector_default Z) = 0 ∧
  push_back_all (PushBack_copy (E := int_element)) [1; 2; 3; 4; 5]%Z Vector_default
    = [(1, 1); (2, 2); (3, 4); (4, 4); (5, 8)] ∧
  push_back_all (λ x, PushBack_forward (E := int_element) true (Some x))
      [1; 2; 3; 4; 5]%Z Vector_default
    = [(1, 1); (2, 2); (3, 4); (4, 4); (5, 8)].
Proof.
  split; [|split_and!; reflexivity].
  intros T E v Hle Hfits. split_and!.
  - intros value. unfold PushBack_copy.
    destruct (N.eqb_spec (size_ v) (Capacity v)) as [Heq|Hne].
    + destruct (doubled_capacity v Heq Hfits) as [-> _].
      destruct (RawMemory_sized _) as [new_data|] eqn:Hnew; [|done].
      apply RawMemory_sized_capacity in Hnew as (Hcap & _ & _).
      destruct (copy_assign_at _ _ _); [|done].
      destruct (relocate_n _ _ _ _ _ _) as [[old nb]|[old nb]]; done.
    + destruct (copy_assign_at _ _ _); by rewrite ?andb_false_r.
  - intros ccu made. unfold PushBack_forward.
    destruct (N.ltb_spec (size_ v) (Capacity v)) as [Hlt|Hge].
    + destruct (N.eqb_spec (size_ v) (Capacity v)) as [Heq|_]; [lia|].
      destruct made; by rewrite ?andb_false_r.
    + destruct (N.eqb_spec (size_ v) (Capacity v)) as [_|Hne]; [|lia].
      rewrite (forward_capacity v Hle Hfits).
      destruct (RawMemory_sized _) as [new_data|] eqn:Hnew; [|done].
      apply RawMemory_sized_capacity in Hnew as (Hcap & _ & _).
      destruct made; [|done].
      destruct (relocate_n _ _ _ _ _ _) as [[old nb]|[old nb]]; done.
  - intros made. unfold EmplaceBack.
    destruct (N.eqb_spec (size_ v) (Capacity v)) as [Heq|Hne].
    + destruct (doubled_capacity v Heq Hfits) as [-> <-].
      destruct (RawMemory_sized _) as [new_data|] eqn:Hnew; [|done].
      apply RawMemory_sized_capacity in Hnew as (Hcap & _ & _).
      destruct made; [|done].
      destruct (relocate_n _ _ _ _ _ _) as [[old nb]|[old nb]]; done.
    + destruct made; by rewrite ?andb_false_r.
Qed.

Lemma append_capacity_policy_witness :
  let v := MkVector (MkRawMemory [Live 1%Z; Live 2%Z] 2) 2 in
  size_ v ≤ Capacity v ∧ fits (E := int_element) v ∧
  Capacity (self_of (PushBack_copy (E := int_element) 3%Z v)) = 4 ∧
  Capacity (self_of (PushBack_forward (E := int_element) true (Some 3%Z) v)) = 4 ∧
  Capacity (self_of (EmplaceBack (E := int_element) (Some 3%Z) v)) = 4.
Proof.
  intros v.
  assert (size_ v ≤ Capacity v) as Hle by (vm_compute; discriminate).
  assert (fits (E := int_element) v) as Hfits by (split; reflexivity).
  destruct (proj1 append_capacity_policy Z int_element v Hle Hfits)
    as (Hcopy & Hforward & Hemplace).
  split_and!; [exact Hle|exact Hfits|exact (Hcopy 3%Z)
              |exact (Hforward true (Some 3%Z))|exact (Hemplace (Some 3%Z))].
Defined.

(** ** [PushBack] followed by [PopBack] *)

Section PushPopLemmas.
Context {T : Type} `{E : Element T}.

Lemma PopBack_after_append (v : Vector T) (data : RawMemory T) :
  size_ v + 1 < SizeT.modulus →
  (∀ i : N, i < size_ v →
     buffer_ data !! N.to_nat i = buffer_ (data_ v) !! N.to_nat i) →
  same_prefix v (PopBack (MkVector data (SizeT.add (size_ v) 1))).
Proof.
  intros Hlt Hsame. rewrite SizeT_add_small by done.
  unfold PopBack, same_prefix, at_index. simpl.
  destruct (N.eqb_spec (size_ v + 1) 0) as [|_]; [lia|]. simpl.
  split; [rewrite SizeT_sub_small; lia|].
  intros i Hi. unfold destroy_at. rewrite list_lookup_insert_ne by lia.
  by apply Hsame.
Qed.

(** The new block once the old elements have been relocated into it:
    they sit below [size_], the new element at [size_]. *)
Lemma relocated_block by_move (v : Vector T) (capacity : N) (x : T) old nb :
  well_formed v → size_ v < capacity →
  relocate_n by_move (buffer_ (data_ v)) 0 (N.to_nat (size_ v))
    (<[N.to_nat (size_ v) := Live x]> (replicate (N.to_nat capacity) Raw)) 0
    = Done (old, nb) →
  length nb = N.to_nat capacity ∧
  nb !! N.to_nat (size_ v) = Some (Live x) ∧
  (∀ i : N, i < size_ v → nb !! N.to_nat i = buffer_ (data_ v) !! N.to_nat i) ∧
  (∀ i : N, size_ v < i → i < capacity → nb !! N.to_nat i = Some Raw).
Proof.
  intros Hwf Hcap Hrun. apply relocate_n_done in Hrun as (Hlen & Hout & Hin).
  rewrite length_insert, length_replicate in Hlen, Hin.
  split_and!.
  - done.
  - rewrite Hout by lia. apply list_lookup_insert_eq.
    rewrite length_replicate. lia.
  - intros i Hi.
    destruct (well_formed_live v (N.to_nat i) Hwf) as [y Hy]; [lia|].
    rewrite Hy. apply (Hin (N.to_nat i) y); [lia|done|lia].
  - intros i Hi Hic. rewrite Hout by lia.
    rewrite list_lookup_insert_ne by lia.
    apply lookup_replicate_2. lia.
Qed.

Lemma well_formed_relocates by_move (v : Vector T) dst :
  well_formed v → never_throws →
  ∃ old nb, relocate_n by_move (buffer_ (data_ v)) 0 (N.to_nat (size_ v)) dst 0
              = Done (old, nb).
Proof.
  intros Hwf (_ & Hcopy & Hmove & _). apply relocate_n_total. auto.
Qed.

End PushPopLemmas.

(** X18.  With an element type whose destructor is trivial, on a
    well-formed vector, whenever [PushBack(x)] returns, the [PopBack()]
    that follows gives back the prior size with the elements below it
    unchanged, and [PushBack] does return when nothing throws; for
    [PushBack(const T&)], which assigns to a slot no constructor has run
    on, the element type is trivially copyable as well. *)
Theorem trivial_elements_push_then_pop :
  ∀ (T : Type) (E : Element T) (v : Vector T) (x : T),
    well_formed v → fits v → is_trivially_destructible = true →
    (is_trivially_copyable = true →
       ∀ v1 lost, PushBack_copy x v = Returned tt v1 lost →
         same_prefix v (PopBack v1)) ∧
    (∀ copy_constructible_U v1 lost,
       PushBack_forward copy_constructible_U (Some x) v = Returned tt v1 lost →
       same_prefix v (PopBack v1)) ∧
    (never_throws →
       (is_trivially_copyable = true →
          has_returned (PushBack_copy x v) = true) ∧
       ∀ copy_constructible_U,
         has_returned (PushBack_forward copy_constructible_U (Some x) v) = true).
Proof.
  intros T E v x Hwf Hfits _.
  pose proof (fits_add_1 v Hwf Hfits) as Hadd.
  pose proof Hwf as (Hlen & Hcap & Hle & _).
  pose proof (forward_capacity_bytes v Hwf Hfits) as Hbytes.
  assert (size_ v = Capacity v → size_ v < N.max (2 * Capacity v) 1) as Hroom
    by (unfold Capacity; lia).
  split_and!.
  - intros _ v1 lost. unfold PushBack_copy.
    destruct (N.eqb_spec (size_ v) (Capacity v)) as [Heq|Hne].
    + pose proof (doubled_capacity_bytes v Hwf Hfits Heq) as Hbytes'.
      destruct (doubled_capacity v Heq Hfits) as [-> _].
      destruct (RawMemory_sized _) as [new_data|] eqn:Hnew; [|done].
      apply RawMemory_sized_exact in Hnew as (Hc & _ & Hbuf); [|done].
      unfold copy_assign_at. destruct (copy_assign_throws x); [done|].
      rewrite Hbuf.
      destruct (relocate_n _ _ _ _ _ _) as [[old nb]|[old nb]] eqn:Hrun; [|done].
      apply relocated_block in Hrun as (_ & _ & Hsame & _); [|done|by apply Hroom].
      unfold adopt. simpl. intros [= <- _].
      by apply PopBack_after_append.
    + unfold copy_assign_at. destruct (copy_assign_throws x); [done|].
      intros [= <- _]. apply PopBack_after_append; [done|]. simpl.
      intros i Hi. apply list_lookup_insert_ne. lia.
  - intros ccu v1 lost. unfold PushBack_forward.
    destruct (N.ltb_spec (size_ v) (Capacity v)) as [Hlt|Hge].
    + intros [= <- _]. apply PopBack_after_append; [done|]. simpl.
      intros i Hi. unfold construct_at. apply list_lookup_insert_ne. lia.
    + rewrite (forward_capacity v Hle Hfits).
      destruct (RawMemory_sized _) as [new_data|] eqn:Hnew; [|done].
      apply RawMemory_sized_exact in Hnew as (Hc & _ & Hbuf); [|done].
      rewrite Hbuf. unfold construct_at.
      destruct (relocate_n _ _ _ _ _ _) as [[old nb]|[old nb]] eqn:Hrun; [|done].
      apply relocated_block in Hrun as (_ & _ & Hsame & _); [|done|lia].
      unfold adopt. simpl. intros [= <- _].
      by apply PopBack_after_append.
  - intros Hcalm. pose proof Hcalm as (_ & _ & _ & Hassign & _ & Halloc).
    split.
    + intros _. unfold PushBack_copy, copy_assign_at. rewrite Hassign.
      destruct (N.eqb_spec (size_ v) (Capacity v)) as [Heq|Hne]; [|done].
      pose proof (doubled_capacity_bytes v Hwf Hfits Heq) as Hbytes'.
      destruct (doubled_capacity v Heq Hfits) as [-> _].
      rewrite RawMemory_sized_total by (done || apply Halloc). simpl.
      destruct (well_formed_relocates relocate_by_move v
                  (<[N.to_nat (size_ v) := Live x]>
                     (replicate (N.to_nat (N.max (2 * Capacity v) 1)) Raw))
                  Hwf Hcalm) as (old & nb & ->).
      done.
    + intros ccu. unfold PushBack_forward.
      destruct (N.ltb_spec (size_ v) (Capacity v)) as [Hlt|Hge]; [done|].
      rewrite (forward_capacity v Hle Hfits).
      rewrite RawMemory_sized_total by (done || apply Halloc).
      simpl. unfold construct_at.
      destruct (well_formed_relocates
                  (is_nothrow_move_constructible || negb ccu) v
                  (<[N.to_nat (size_ v) := Live x]>
                     (replicate
                        (N.to_nat (N.max (2 * Capacity v) (size_ v + 1))) Raw))
                  Hwf Hcalm) as (old & nb & ->).
      done.
Qed.

Lemma int_element_never_throws : never_throws (E := int_element).
Proof. unfold never_throws. simpl. eauto 10. Qed.

Lemma trivial_elements_push_then_pop_witness :
  let v := MkVector (MkRawMemory [Live 1%Z; Live 2%Z] 2) 2 in
  well_formed (E := int_element) v ∧ fits (E := int_element) v ∧
  same_prefix v (PopBack (self_of (PushBack_copy (E := int_element) 3%Z v))) ∧
  same_prefix v
    (PopBack (self_of (PushBack_forward (E := int_element) true (Some 3%Z) v))).
Proof.
  intros v.
  assert (well_formed (E := int_element) v) as Hwf
    by (split_and!; [reflexivity|reflexivity|vm_compute; discriminate|reflexivity|reflexivity]).
  assert (fits (E := int_element) v) as Hfits by (split; reflexivity).
  destruct (trivial_elements_push_then_pop Z int_element v 3%Z Hwf Hfits eq_refl)
    as (Hcopy & Hforward & _).
  split_and!; [exact Hwf|exact Hfits| |].
  - eapply (Hcopy eq_refl). reflexivity.
  - eapply (Hforward true). reflexivity.
Defined.

(** ** [Reserve] and [Resize] *)

Section ResizeLemmas.
Context {T : Type} `{E : Element T}.

(** A completed relocation of the elements of [v] to the front of a block
    that has room for them. *)
Lemma relocated_prefix by_move (v : Vector T) dst old nb :
  well_formed v → (N.to_nat (size_ v) ≤ length dst)%nat →
  relocate_n by_move (buffer_ (data_ v)) 0 (N.to_nat (size_ v)) dst 0
    = Done (old, nb) →
  length nb = length dst ∧
  (∀ i : nat, (N.to_nat (size_ v) ≤ i)%nat → nb !! i = dst !! i) ∧
  (∀ i : nat, (i < N.to_nat (size_ v))%nat → nb !! i = buffer_ (data_ v) !! i).
Proof.
  intros Hwf Hroom Hrun. apply relocate_n_done in Hrun as (Hlen & Hout & Hin).
  split_and!; [done|intros i Hi; apply Hout; lia|].
  intros i Hi. destruct (well_formed_live v i Hwf Hi) as [y Hy].
  rewrite Hy. apply (Hin i y); [lia|done|lia].
Qed.

Lemma Reserve_returned (n : N) (v v' : Vector T) lost :
  well_formed v → n * sizeof_T < SizeT.modulus →
  Reserve n v = Returned tt v' lost →
  size_ v' = size_ v ∧
  Capacity v' = N.max (Capacity v) n ∧
  length (buffer_ (data_ v')) = N.to_nat (Capacity v') ∧
  (∀ i : nat, (i < N.to_nat (size_ v))%nat →
     buffer_ (data_ v') !! i = buffer_ (data_ v) !! i).
Proof.
  intros Hwf Hbytes. pose proof Hwf as (Hlen & Hcap & Hle & _). unfold Reserve.
  destruct (N.ltb_spec (Capacity v) n) as [Hlt|Hge].
  - destruct (RawMemory_sized n) as [new_data|] eqn:Hnew; [|done].
    apply RawMemory_sized_exact in Hnew as (Hc & _ & Hbuf); [|done].
    rewrite Hbuf, Hc.
    destruct (relocate_n _ _ _ _ _ _) as [[old nb]|[old nb]] eqn:Hrun; [|done].
    apply relocated_prefix in Hrun as (Hlen' & _ & Hsame);
      [|done|rewrite length_replicate; unfold Capacity in Hlt; lia].
    rewrite length_replicate in Hlen'.
    unfold adopt. simpl. intros [= <- _]. unfold Capacity in *. simpl.
    split_and!; [done|lia|done|done].
  - intros [= <- _]. unfold Capacity in *. split_and!; [done|lia|done|done].
Qed.

Lemma Reserve_total (n : N) (v : Vector T) :
  well_formed v → n * sizeof_T < SizeT.modulus → never_throws →
  has_returned (Reserve n v) = true.
Proof.
  intros Hwf Hbytes Hcalm. pose proof Hcalm as (_ & _ & _ & _ & _ & Halloc).
  unfold Reserve. destruct (Capacity v <? n); [|done].
  rewrite RawMemory_sized_total by (done || apply Halloc). simpl.
  destruct (well_formed_relocates relocate_by_move v
              (replicate (N.to_nat n) Raw) Hwf Hcalm) as (old & nb & ->).
  done.
Qed.



End ResizeLemmas.




(** ** Copy assignment *)

Section CopyAssignLemmas.
Context {T : Type} `{E : Element T}.

Lemma Vector_copy_returned (r c : Vector T) :
  well_formed r → Vector_copy r = Some c →
  size_ c = size_ r ∧ Capacity c = size_ r ∧
  ∀ i : N, i < size_ r → at_index c i = at_index r i.
Proof.
  intros Hwf. unfold Vector_copy.
  destruct (RawMemory_sized (size_ r)) as [data|] eqn:Hnew; [|done].
  apply RawMemory_sized_exact in Hnew as (Hc & _ & Hbuf);
    [|by apply well_formed_size_bytes].
  rewrite Hbuf, Hc.
  unfold uninitialized_copy_n.
  destruct (uninitialized_copy_from _ _ _ _ _ _) as [buf|buf] eqn:Hrun; [|done].
  apply uninitialized_copy_from_done in Hrun as (Hlen & _ & Hin).
  rewrite length_replicate in Hin.
  intros [= <-]. unfold at_index, Capacity. simpl. split_and!; [done|done|].
  intros i Hi. destruct (well_formed_live r (N.to_nat i) Hwf) as [x Hx]; [lia|].
  rewrite Hx. apply (Hin (N.to_nat i) x); [lia|done|lia].
Qed.

Lemma Vector_copy_total (r : Vector T) :
  never_throws → ∃ c, Vector_copy r = Some c.
Proof.
  intros (_ & Hcopy & _ & _ & _ & Halloc). unfold Vector_copy.
  destruct (RawMemory_sized_returns (size_ r) (Halloc _)) as [m ->].
  unfold uninitialized_copy_n.
  destruct (uninitialized_copy_from_total (buffer_ (data_ r)) 0
              (N.to_nat (size_ r)) (buffer_ m) 0 0)
    as [buf ->]; eauto.
Qed.

Lemma never_throws_in_place_completes (l r : Vector T) :
  never_throws → in_place_completes l r.
Proof. intros (_ & Hcopy & _ & Hassign & _). split; auto. Qed.

Lemma copy_assign_reallocating (l r : Vector T) :
  well_formed l → well_formed r → Capacity l < size_ r →
  (Vector_copy r = None ∧ copy_assign l r = Raised l []) ∨
  (∃ c, Vector_copy r = Some c ∧
        copy_assign l r = Returned tt c (Vector_destroy l)).
Proof.
  intros Hl Hr Hlt. unfold copy_assign.
  destruct (N.ltb_spec (Capacity l) (size_ r)) as [_|?]; [|lia].
  destruct (Vector_copy r) as [c|]; [right|left; done].
  exists c. by rewrite Swap_pair.
Qed.

Lemma copy_assign_in_place (l r : Vector T) :
  well_formed l → well_formed r → size_ r ≤ Capacity l →
  Capacity (self_of (copy_assign l r)) = Capacity l ∧
  (has_returned (copy_assign l r) = true ↔ in_place_completes l r) ∧
  (has_returned (copy_assign l r) = true →
     size_ (self_of (copy_assign l r)) = size_ r ∧
     (∀ i : N, i < size_ r →
        at_index (self_of (copy_assign l r)) i = at_index r i) ∧
     (∀ i : N, size_ r ≤ i < size_ l →
        at_index (self_of (copy_assign l r)) i = Some Raw) ∧
     (∀ i : N, N.max (size_ l) (size_ r) ≤ i →
        at_index (self_of (copy_assign l r)) i = at_index l i)).
Proof.
  intros Hl Hr Hroom.
  pose proof Hl as (Hlenl & Hcapl & Hlel & _).
  pose proof Hr as (Hlenr & Hcapr & Hler & _).
  unfold Capacity in Hroom.
  unfold copy_assign, in_place_completes, Size, at_index.
  destruct (N.ltb_spec (Capacity l) (size_ r)) as [?|_]; [unfold Capacity in *; lia|].
  destruct (N.leb_spec (size_ l) (size_ r)) as [Hsmall|Hlarge].
  - (* rhs at least as large: assign [0, size), construct [size, rhs.size) *)
    rewrite N.min_l, N.max_r by done.
    destruct (copy_assign_loop _ _ _ _) as [buf1|buf1] eqn:Hloop.
    + pose proof Hloop as Hloop'.
      apply copy_assign_loop_done in Hloop' as (Hlen1 & Hout1 & Hin1).
      unfold uninitialized_copy_n. rewrite SizeT_sub_small by lia.
      destruct (uninitialized_copy_from _ _ _ _ _ _) as [buf2|buf2] eqn:Hcopy.
      * pose proof Hcopy as Hcopy'.
        apply uninitialized_copy_from_done in Hcopy' as (Hlen2 & Hout2 & Hin2).
        simpl. split_and!; [done| |].
        -- split; [intros _|done]. split.
           ++ intros i x Hi Hx. apply (Hin1 (N.to_nat i) x); [lia|done].
           ++ intros i x Hi Hx.
              apply (Hin2 (N.to_nat i - N.to_nat (size_ l))%nat x); [lia|].
              rewrite <- Hx. f_equal. lia.
        -- intros _. split_and!; [done| |intros; lia|].
           ++ intros i Hi.
              destruct (well_formed_live r (N.to_nat i) Hr) as [x Hx]; [lia|].
              rewrite Hx. destruct (decide (i < size_ l)) as [Hlow|Hhigh].
              ** rewrite Hout2 by lia.
                 apply (Hin1 (N.to_nat i) x); [lia|done|lia].
              ** replace (N.to_nat i)
                   with (N.to_nat (size_ l) + (N.to_nat i - N.to_nat (size_ l)))%nat
                   by lia.
                 apply Hin2; [lia| |lia].
                 rewrite <- Hx. f_equal. lia.
           ++ intros i Hi. rewrite Hout2, Hout1 by lia. done.
      * simpl. split_and!; [done| |done].
        split; [done|]. intros [_ Hok].
        apply uninitialized_copy_from_threw in Hcopy as (k & x & Hk & Hx & Hthrow).
        rewrite (Hok (N.of_nat (N.to_nat (size_ l) + k)) x) in Hthrow;
          [done|lia|].
        rewrite <- Hx. f_equal. lia.
    + simpl. split_and!; [done| |done].
      split; [done|]. intros [Hok _].
      destruct (copy_assign_loop_total (buffer_ (data_ l)) (buffer_ (data_ r)) 0
                  (N.to_nat (size_ l))) as [buf Hdone]; [|congruence].
      intros k x Hk Hx. apply (Hok (N.of_nat k) x); [lia|].
      rewrite <- Hx. f_equal. lia.
  - (* own larger: assign [0, rhs.size), destroy [rhs.size, size) *)
    rewrite N.min_r, N.max_l by lia.
    destruct (copy_assign_loop _ _ _ _) as [buf1|buf1] eqn:Hloop.
    + pose proof Hloop as Hloop'.
      apply copy_assign_loop_done in Hloop' as (Hlen1 & Hout1 & Hin1).
      rewrite SizeT_sub_small by lia. simpl. split_and!; [done| |].
      * split; [intros _|done]. split; [|intros; lia].
        intros i x Hi Hx. apply (Hin1 (N.to_nat i) x); [lia|done].
      * intros _. split_and!; [done|..].
        -- intros i Hi.
           destruct (well_formed_live r (N.to_nat i) Hr) as [x Hx]; [lia|].
           rewrite Hx, destroy_n_lookup_out by lia.
           apply (Hin1 (N.to_nat i) x); [lia|done|lia].
        -- intros i Hi. apply destroy_n_lookup_in; lia.
        -- intros i Hi. rewrite destroy_n_lookup_out, Hout1 by lia. done.
    + simpl. split_and!; [done| |done].
      split; [done|]. intros [Hok _].
      destruct (copy_assign_loop_total (buffer_ (data_ l)) (buffer_ (data_ r)) 0
                  (N.to_nat (size_ r))) as [buf Hdone]; [|congruence].
      intros k x Hk Hx. apply (Hok (N.of_nat k) x); [lia|].
      rewrite <- Hx. f_equal. lia.
Qed.

End CopyAssignLemmas.

(** C7.  Copy assignment between two distinct, well-formed vectors leaves
    [rhs] as it is and, when it completes, [lhs] with the size of [rhs] and
    the elements of [rhs].  With [rhs.size > lhs.capacity] the new [lhs] is
    a full copy of [rhs] in a block of exactly [rhs.size] slots, and [lhs]
    is unchanged when making the copy throws.  Otherwise the block of [lhs]
    is kept; the call completes exactly when no assignment throws on the
    first [min(lhs.size, rhs.size)] elements of [rhs] and no copy
    construction throws on the elements of [rhs] from [lhs.size] on; the
    surplus elements of [lhs] are destroyed and the slots past both sizes
    are untouched.  In both cases the call completes when nothing throws. *)
Theorem copy_assignment_of_distinct_vectors :
  ∀ (T : Type) (E : Element T) (σ : gmap loc (Vector T)) (this rhs : loc)
    (l r : Vector T),
    this ≠ rhs → σ !! this = Some l → σ !! rhs = Some r →
    well_formed l → well_formed r →
    ∃ c l' lost,
      assign_copy_at this rhs σ = (c, <[this := l']> σ, lost) ∧
      (c = Normal →
         size_ l' = size_ r ∧
         ∀ i, i < size_ r → at_index l' i = at_index r i) ∧
      (Capacity l < size_ r →
         (c = Exceptional → l' = l) ∧
         (c = Normal → Vector_copy r = Some l' ∧ Capacity l' = size_ r)) ∧
      (size_ r ≤ Capacity l →
         Capacity l' = Capacity l ∧
         (c = Normal ↔ in_place_completes l r) ∧
         (c = Normal →
            (∀ i, size_ r ≤ i < size_ l → at_index l' i = Some Raw) ∧
            (∀ i, N.max (size_ l) (size_ r) ≤ i →
               at_index l' i = at_index l i))) ∧
      (never_throws → c = Normal).
Proof.
  intros T E σ this rhs l r Hne Hthis Hrhs Hl Hr.
  unfold assign_copy_at. destruct (decide (this = rhs)) as [|_]; [done|].
  rewrite Hthis, Hrhs.
  destruct (N.lt_ge_cases (Capacity l) (size_ r)) as [Hlt|Hge].
  - destruct (copy_assign_reallocating l r Hl Hr Hlt)
      as [[Hcopy ->]|(c & Hcopy & ->)].
    + exists Exceptional, l, []. split_and!; [done|done|done|lia|].
      intros Hcalm. destruct (Vector_copy_total r Hcalm) as [c Hc]. congruence.
    + destruct (Vector_copy_returned r c Hr Hcopy) as (Hsize & Hcap & Hsame).
      exists Normal, c, (Vector_destroy l).
      split_and!; [done|done|done|lia|done].
  - destruct (copy_assign_in_place l r Hl Hr Hge) as (Hcap & Hiff & Hdone).
    destruct (copy_assign l r) as [[] l' lost|l' lost]; simpl in *.
    + exists Normal, l', lost.
      destruct (Hdone eq_refl) as (Hsize & Hsame & Hsurplus & Hrest).
      split_and!; [done|done|lia| |done].
      intros _. split_and!; [done|split; [intros _; by apply Hiff|done]|done].
    + exists Exceptional, l', lost.
      assert (¬ in_place_completes l r) as Hnot
        by (intros Hok; apply Hiff in Hok; done).
      split_and!; [done|done|lia| |].
      * intros _. split_and!; [done|split; done|done].
      * intros Hcalm. destruct Hnot.
        by apply never_throws_in_place_completes.
Qed.

Lemma copy_assignment_of_distinct_vectors_witness :
  let l := MkVector (MkRawMemory [Live 1%Z; Live 2%Z; Live 3%Z; Raw] 4) 3 in
  let r := MkVector (MkRawMemory [Live 7%Z; Live 8%Z] 2) 2 in
  let σ : gmap loc (Vector Z) := <[1%positive := l]> (<[2%positive := r]> ∅) in
  well_formed (E := int_element) l ∧ well_formed (E := int_element) r ∧
  ∃ l' lost,
    assign_copy_at (E := int_element) 1%positive 2%positive σ
      = (Normal, <[1%positive := l']> σ, lost) ∧
    size_ l' = size_ r.
Proof.
  intros l r σ.
  assert (well_formed (E := int_element) l) as Hl
    by (split_and!; [reflexivity|reflexivity|vm_compute; discriminate|reflexivity|reflexivity]).
  assert (well_formed (E := int_element) r) as Hr
    by (split_and!; [reflexivity|reflexivity|vm_compute; discriminate|reflexivity|reflexivity]).
  split; [exact Hl|]. split; [exact Hr|].
  destruct (copy_assignment_of_distinct_vectors Z int_element σ
              1%positive 2%positive l r)
    as (c & l' & lost & Hrun & Hsame & _ & _ & Hnormal);
    [discriminate|reflexivity|reflexivity|exact Hl|exact Hr|].
  pose proof (Hnormal int_element_never_throws) as Hc.
  exists l', lost. split; [rewrite <- Hc; exact Hrun|].
  exact (proj1 (Hsame Hc)).
Defined.

(** ** The sequence a vector holds *)

Section ElementsLemmas.
Context {T : Type} `{E : Element T}.
Implicit Types (v : Vector T) (xs : list T).

Lemma omap_live_fmap xs : omap live_value (Live <$> xs) = xs.
Proof. induction xs as [|x xs IH]; simpl; [done|by f_equal]. Qed.

Lemma live_fmap_omap (l : list (slot T)) :
  forallb is_live l = true → Live <$> omap live_value l = l.
Proof.
  induction l as [|[|x] l IH]; simpl; [done|done|].
  intros Hl. f_equal. by apply IH.
Qed.

Lemma well_formed_elements v :
  well_formed v →
  Live <$> elements v = take (N.to_nat (size_ v)) (buffer_ (data_ v)).
Proof. intros (_ & _ & _ & Hlive & _). by apply live_fmap_omap. Qed.

Lemma elements_length v :
  well_formed v → length (elements v) = N.to_nat (size_ v).
Proof.
  intros Hwf. pose proof Hwf as (Hlen & _ & Hle & _).
  rewrite <- (length_fmap Live), well_formed_elements, length_take by done.
  lia.
Qed.

Lemma elements_lookup v (i : nat) x :
  well_formed v →
  elements v !! i = Some x ↔
  (i < N.to_nat (size_ v))%nat ∧ buffer_ (data_ v) !! i = Some (Live x).
Proof.
  intros Hwf. pose proof (well_formed_elements v Hwf) as Heq.
  pose proof (elements_length v Hwf) as Hlen.
  split.
  - intros Hx. assert (i < N.to_nat (size_ v))%nat as Hi
      by (apply lookup_lt_Some in Hx; lia).
    split; [done|].
    rewrite <- (lookup_take_lt _ (N.to_nat (size_ v))), <- Heq by done.
    by rewrite list_lookup_fmap, Hx.
  - intros [Hi Hx].
    rewrite <- (lookup_take_lt _ (N.to_nat (size_ v))), <- Heq in Hx by done.
    rewrite list_lookup_fmap in Hx.
    destruct (elements v !! i) as [y|]; simpl in Hx; congruence.
Qed.

(** A vector whose first [size_] slots hold the values [xs] holds [xs]. *)
Lemma elements_intro v xs :
  length xs = N.to_nat (size_ v) →
  (∀ (i : nat) x, xs !! i = Some x → buffer_ (data_ v) !! i = Some (Live x)) →
  elements v = xs.
Proof.
  intros Hlen Hxs. unfold elements.
  replace (take (N.to_nat (size_ v)) (buffer_ (data_ v))) with (Live <$> xs);
    [apply omap_live_fmap|].
  apply list_eq. intros i. rewrite list_lookup_fmap.
  destruct (decide (i < N.to_nat (size_ v))%nat) as [Hi|Hi].
  - rewrite lookup_take_lt by done.
    destruct (lookup_lt_is_Some_2 xs i) as [x Hx]; [lia|].
    by rewrite Hx, (Hxs i x Hx).
  - rewrite lookup_take_ge, lookup_ge_None_2 by lia. done.
Qed.

Lemma well_formed_intro v :
  length (buffer_ (data_ v)) = N.to_nat (capacity_ (data_ v)) →
  capacity_ (data_ v) * sizeof_T < SizeT.modulus →
  size_ v ≤ capacity_ (data_ v) →
  (∀ i : nat, (i < N.to_nat (size_ v))%nat →
     ∃ x, buffer_ (data_ v) !! i = Some (Live x)) →
  well_formed v.
Proof.
  intros Hlen Hbytes Hle Hlive.
  pose proof (slots_below_bytes (capacity_ (data_ v))) as Hcap.
  split_and!; [done|lia|done| |done].
  apply forallb_forall. intros s Hs.
  apply list_elem_of_In, list_elem_of_lookup in Hs as [i Hi].
  assert (i < N.to_nat (size_ v))%nat as Hlt.
  { apply lookup_lt_Some in Hi. rewrite length_take in Hi. lia. }
  rewrite lookup_take_lt in Hi by done.
  destruct (Hlive i Hlt) as [x Hx]. by assert (s = Live x) as -> by congruence.
Qed.

(** The vector once an element has been added in the slot after its last. *)
Lemma appended v (nb : list (slot T)) (capacity : N) (x : T) :
  well_formed v →
  length nb = N.to_nat capacity → capacity * sizeof_T < SizeT.modulus →
  size_ v < capacity →
  nb !! N.to_nat (size_ v) = Some (Live x) →
  (∀ i : N, i < size_ v →
     nb !! N.to_nat i = buffer_ (data_ v) !! N.to_nat i) →
  well_formed (MkVector (MkRawMemory nb capacity) (SizeT.add (size_ v) 1)) ∧
  elements (MkVector (MkRawMemory nb capacity) (SizeT.add (size_ v) 1))
    = elements v ++ [x].
Proof.
  intros Hwf Hlen Hbytes Hroom Hnew Hsame.
  pose proof (slots_below_bytes capacity) as Hcap.
  rewrite SizeT_add_small by lia.
  assert (∀ (i : nat) y, (elements v ++ [x]) !! i = Some y →
            nb !! i = Some (Live y)) as Hall.
  { intros i y Hy. apply lookup_app_Some in Hy as [Hy|[Hge Hy]].
    - apply elements_lookup in Hy as [Hi Hy]; [|done].
      rewrite <- Hy, <- (Nat2N.id i). apply Hsame. lia.
    - rewrite elements_length in Hge, Hy by done.
      apply list_lookup_singleton_Some in Hy as [Hi ->].
      by replace i with (N.to_nat (size_ v)) by lia. }
  split.
  - apply well_formed_intro; simpl; [done|done|lia|].
    intros i Hi.
    destruct (lookup_lt_is_Some_2 (elements v ++ [x]) i) as [y Hy].
    { rewrite length_app, elements_length by done. simpl. lia. }
    eauto.
  - apply elements_intro; simpl; [|done].
    rewrite length_app, elements_length by done. simpl. lia.
Qed.

End ElementsLemmas.

(** ** What the appends add *)

(** X1.  On a well-formed vector, whenever [PushBack(U&&)] or
    [EmplaceBack] returns, the vector is well-formed and holds the old
    sequence followed by the new element; [EmplaceBack] returns the index
    of that element, the old size, and returns when nothing throws.
    [PushBack(const T&)] assigns to the slot instead of constructing in
    it: it gives the same vector for a trivially copyable element
    type. *)
Theorem append_adds_at_the_end :
  ∀ (T : Type) (E : Element T) (v : Vector T) (x : T),
    well_formed v → fits v →
    (is_trivially_copyable = true →
       ∀ v1 lost, PushBack_copy x v = Returned tt v1 lost →
         well_formed v1 ∧ elements v1 = elements v ++ [x]) ∧
    (∀ copy_constructible_U v1 lost,
       PushBack_forward copy_constructible_U (Some x) v = Returned tt v1 lost →
       well_formed v1 ∧ elements v1 = elements v ++ [x]) ∧
    (∀ index v1 lost, EmplaceBack (Some x) v = Returned index v1 lost →
       index = size_ v ∧ at_index v1 index = Some (Live x) ∧
       well_formed v1 ∧ elements v1 = elements v ++ [x]) ∧
    (never_throws → has_returned (EmplaceBack (Some x) v) = true).
Proof.
  intros T E v x Hwf Hfits.
  pose proof Hwf as (Hlen & Hcap & Hle & _ & Hbytes).
  pose proof SizeT_modulus_gt_1 as Hmod.
  pose proof (forward_capacity_bytes v Hwf Hfits) as Hgrown'.
  pose proof (doubled_capacity_bytes v Hwf Hfits) as Hgrown.
  assert (∀ i : N, i < size_ v →
            <[N.to_nat (size_ v) := Live x]> (buffer_ (data_ v)) !! N.to_nat i
              = buffer_ (data_ v) !! N.to_nat i) as Hplace
    by (intros i Hi; apply list_lookup_insert_ne; lia).
  split_and!.
  - intros _ v1 lost. unfold PushBack_copy.
    destruct (N.eqb_spec (size_ v) (Capacity v)) as [Heq|Hne].
    + destruct (doubled_capacity v Heq Hfits) as [-> _].
      destruct (RawMemory_sized _) as [new_data|] eqn:Hnew; [|done].
      apply RawMemory_sized_exact in Hnew as (Hc & _ & Hbuf); [|by apply Hgrown].
      unfold copy_assign_at. destruct (copy_assign_throws x); [done|].
      rewrite Hbuf, Hc.
      destruct (relocate_n _ _ _ _ _ _) as [[old nb]|[old nb]] eqn:Hrun; [|done].
      apply relocated_block in Hrun as (Hlen' & Hnew & Hsame & _);
        [|done|unfold Capacity in *; lia].
      unfold adopt. simpl. intros [= <- _].
      apply appended;
        [done|done|by apply Hgrown|unfold Capacity in *; lia|done|done].
    + unfold copy_assign_at. destruct (copy_assign_throws x); [done|].
      intros [= <- _]. simpl. unfold Capacity in Hne.
      apply appended; [done|by rewrite length_insert|done|lia| |done].
      apply list_lookup_insert_eq. lia.
  - intros ccu v1 lost. unfold PushBack_forward.
    destruct (N.ltb_spec (size_ v) (Capacity v)) as [Hlt|Hge].
    + intros [= <- _]. simpl. unfold construct_at, Capacity in *.
      apply appended; [done|by rewrite length_insert|done|lia| |done].
      apply list_lookup_insert_eq. lia.
    + rewrite (forward_capacity v Hle Hfits).
      destruct (RawMemory_sized _) as [new_data|] eqn:Hnew; [|done].
      apply RawMemory_sized_exact in Hnew as (Hc & _ & Hbuf); [|done].
      rewrite Hbuf, Hc. unfold construct_at.
      destruct (relocate_n _ _ _ _ _ _) as [[old nb]|[old nb]] eqn:Hrun; [|done].
      apply relocated_block in Hrun as (Hlen' & Hnew & Hsame & _); [|done|lia].
      unfold adopt. simpl. intros [= <- _].
      apply appended; [done|done|done|lia|done|done].
  - intros index v1 lost. unfold EmplaceBack.
    destruct (N.eqb_spec (size_ v) (Capacity v)) as [Heq|Hne].
    + destruct (doubled_capacity v Heq Hfits) as [-> _].
      destruct (RawMemory_sized _) as [new_data|] eqn:Hnew; [|done].
      apply RawMemory_sized_exact in Hnew as (Hc & _ & Hbuf); [|by apply Hgrown].
      rewrite Hbuf, Hc. unfold construct_at.
      destruct (relocate_n _ _ _ _ _ _) as [[old nb]|[old nb]] eqn:Hrun; [|done].
      apply relocated_block in Hrun as (Hlen' & Hnew & Hsame & _);
        [|done|unfold Capacity in *; lia].
      unfold adopt. simpl. intros [= <- <- _].
      split; [done|]. split; [done|].
      apply appended;
        [done|done|by apply Hgrown|unfold Capacity in *; lia|done|done].
    + intros [= <- <- _]. simpl. unfold construct_at, Capacity in *.
      assert (<[N.to_nat (size_ v) := Live x]> (buffer_ (data_ v))
                !! N.to_nat (size_ v) = Some (Live x)) as Hnew
        by (apply list_lookup_insert_eq; lia).
      split; [done|]. split; [done|].
      apply appended; [done|by rewrite length_insert|done|lia|done|done].
  - intros Hcalm. pose proof Hcalm as (_ & _ & _ & _ & _ & Halloc).
    unfold EmplaceBack.
    destruct (N.eqb_spec (size_ v) (Capacity v)) as [Heq|Hne]; [|done].
    destruct (doubled_capacity v Heq Hfits) as [-> _].
    rewrite RawMemory_sized_total by (by apply Hgrown || apply Halloc).
    simpl. unfold construct_at.
    destruct (well_formed_relocates relocate_by_move v
                (<[N.to_nat (size_ v) := Live x]>
                   (replicate (N.to_nat (N.max (2 * Capacity v) 1)) Raw))
                Hwf Hcalm) as (old & nb & ->).
    done.
Qed.

Lemma append_adds_at_the_end_witness :
  let v := MkVector (MkRawMemory [Live 1%Z; Live 2%Z] 2) 2 in
  well_formed (E := int_element) v ∧ fits (E := int_element) v ∧
  elements (self_of (PushBack_copy (E := int_element) 3%Z v)) = [1; 2; 3]%Z ∧
  elements (self_of (PushBack_forward (E := int_element) true (Some 3%Z) v))
    = [1; 2; 3]%Z ∧
  elements (self_of (EmplaceBack (E := int_element) (Some 3%Z) v)) = [1; 2; 3]%Z.
Proof.
  intros v.
  assert (well_formed (E := int_element) v) as Hwf
    by (split_and!; [reflexivity|reflexivity|vm_compute; discriminate|reflexivity|reflexivity]).
  assert (fits (E := int_element) v) as Hfits by (split; reflexivity).
  destruct (append_adds_at_the_end Z int_element v 3%Z Hwf Hfits)
    as (Hcopy & Hforward & Hemplace & _).
  split_and!; [exact Hwf|exact Hfits| | |].
  - eapply (Hcopy eq_refl). reflexivity.
  - eapply (Hforward true). reflexivity.
  - eapply Hemplace. reflexivity.
Defined.

(** ** [Reserve] and the constructors *)

Section ReserveLemmas.
Context {T : Type} `{E : Element T}.

(** A vector with the size of [v] and the same first [size_] slots is
    well-formed and holds the same sequence. *)
Lemma same_elements (v v' : Vector T) :
  well_formed v →
  length (buffer_ (data_ v')) = N.to_nat (capacity_ (data_ v')) →
  capacity_ (data_ v') * sizeof_T < SizeT.modulus →
  size_ v' = size_ v → size_ v ≤ capacity_ (data_ v') →
  (∀ i : nat, (i < N.to_nat (size_ v))%nat →
     buffer_ (data_ v') !! i = buffer_ (data_ v) !! i) →
  well_formed v' ∧ elements v' = elements v.
Proof.
  intros Hwf Hlen Hcap Hsize Hle Hsame. split.
  - apply well_formed_intro; [done|done|lia|].
    rewrite Hsize. intros i Hi. rewrite Hsame by done.
    by apply well_formed_live.
  - apply elements_intro; [by rewrite elements_length, Hsize|].
    intros i x Hx. apply elements_lookup in Hx as [Hi Hx]; [|done].
    by rewrite Hsame.
Qed.

End ReserveLemmas.

(** X2.  On a well-formed vector and for [n] with [n * sizeof(T)] counted
    by a [size_t] without a wrap, [Reserve(n)] with [n <= capacity]
    returns at once with the vector as it was; whenever [Reserve] returns,
    the vector is well-formed, its capacity is [max(old, n)] and it holds
    the same sequence; it returns when nothing throws. *)
Theorem Reserve_keeps_the_sequence :
  ∀ (T : Type) (E : Element T) (v : Vector T) (n : N),
    well_formed v → n * sizeof_T < SizeT.modulus →
    (n ≤ Capacity v → Reserve n v = Returned tt v []) ∧
    (∀ v' lost, Reserve n v = Returned tt v' lost →
       well_formed v' ∧ Capacity v' = N.max (Capacity v) n ∧
       elements v' = elements v) ∧
    (never_throws → has_returned (Reserve n v) = true).
Proof.
  intros T E v n Hwf Hn. pose proof Hwf as (Hlen & Hcap & Hle & _ & Hbytes).
  split_and!.
  - intros Hfit. unfold Reserve.
    destruct (N.ltb_spec (Capacity v) n) as [?|_]; [lia|done].
  - intros v' lost Hrun.
    apply Reserve_returned in Hrun as (Hsize & Hcap' & Hlen' & Hsame); [|done..].
    unfold Capacity in *.
    destruct (same_elements v v') as [Hwf' Helems]; [done|done| |done|lia|done|].
    { rewrite Hcap'. by destruct (N.max_spec (capacity_ (data_ v)) n) as [[_ ->]|[_ ->]]. }
    done.
  - by apply Reserve_total.
Qed.

Lemma Reserve_keeps_the_sequence_witness :
  let v := MkVector (MkRawMemory [Live 1%Z; Live 2%Z; Raw] 3) 2 in
  well_formed (E := int_element) v ∧
  Reserve (E := int_element) 2 v = Returned tt v [] ∧
  elements (self_of (Reserve (E := int_element) 10 v)) = [1; 2]%Z.
Proof.
  intros v.
  assert (well_formed (E := int_element) v) as Hwf
    by (split_and!; [reflexivity|reflexivity|vm_compute; discriminate|reflexivity|reflexivity]).
  split; [exact Hwf|]. split.
  - destruct (Reserve_keeps_the_sequence Z int_element v 2 Hwf) as (Hnoop & _);
      [reflexivity|].
    apply Hnoop. vm_compute. discriminate.
  - destruct (Reserve_keeps_the_sequence Z int_element v 10 Hwf)
      as (_ & Hgrow & _); [reflexivity|].
    eapply Hgrow. reflexivity.
Defined.

(** X3.  For [n] with [n * sizeof(T)] counted by a [size_t] without a
    wrap, [Vector(n)], when it returns, gives a well-formed vector of size
    and capacity [n] that meets the invariant and holds [n] copies of the
    value-initialised element; it throws when [n > 0] and [T()] throws, and
    returns when the allocation succeeds and [T()] does not throw. *)
Theorem Vector_sized_holds_defaults :
  ∀ (T : Type) (E : Element T) (n : N),
    n * sizeof_T < SizeT.modulus →
    (∀ v, Vector_sized n = Some v →
       well_formed v ∧ invariant v ∧ size_ v = n ∧ Capacity v = n ∧
       ∀ x, value_init = Some x → elements v = replicate (N.to_nat n) x) ∧
    (0 < n → value_init = None → Vector_sized n = None) ∧
    (alloc_fails n = false → is_Some value_init → is_Some (Vector_sized n)).
Proof.
  intros T E n Hn. unfold Vector_sized, uninitialized_value_construct_n.
  split_and!.
  - intros v.
    destruct (RawMemory_sized n) as [data|] eqn:Hnew; [|done].
    apply RawMemory_sized_exact in Hnew as (Hc & _ & Hbuf); [|done].
    rewrite Hbuf, Hc.
    destruct value_init as [x|] eqn:Hinit.
    + destruct (uninitialized_value_construct_from_done x
                  (replicate (N.to_nat n) Raw) 0 0 (N.to_nat n) Hinit)
        as (buf & -> & Hlen & _ & Hin).
      rewrite length_replicate in Hlen, Hin. intros [= <-].
      assert (well_formed (MkVector (MkRawMemory buf n) n)) as Hwf.
      { apply well_formed_intro; simpl; [done|done|lia|].
        intros i Hi. exists x. apply Hin; lia. }
      split_and!; [done| |done|done|].
      * split_and!; simpl; [lia| |intros; lia].
        intros i Hi. exists x. apply Hin; lia.
      * intros y [= <-]. apply elements_intro; simpl.
        -- by rewrite length_replicate.
        -- intros i y Hy. apply lookup_replicate in Hy as [-> Hi].
           apply Hin; lia.
    + destruct (N.eq_dec n 0) as [->|Hpos].
      * simpl. intros [= <-]. split_and!; [| |done|done|done].
        -- apply well_formed_intro; simpl; [done|done|lia|intros; lia].
        -- split_and!; simpl; [lia|intros; lia|intros; lia].
      * destruct (uninitialized_value_construct_from_threw
                    (replicate (N.to_nat n) Raw) 0 0 (N.to_nat n) Hinit)
          as [buf ->]; [lia|done].
  - intros Hpos Hinit.
    destruct (RawMemory_sized n) as [data|]; [|done].
    destruct (uninitialized_value_construct_from_threw
                (buffer_ data) 0 0 (N.to_nat n) Hinit) as [buf ->]; [lia|done].
  - intros Halloc [x Hinit]. rewrite RawMemory_sized_total by done. simpl.
    destruct (uninitialized_value_construct_from_done x
                (replicate (N.to_nat n) Raw) 0 0 (N.to_nat n) Hinit)
      as (buf & -> & _).
    done.
Qed.

Lemma Vector_sized_holds_defaults_witness :
  ∃ v, Vector_sized (E := int_element) 3 = Some v ∧
       elements v = [0; 0; 0]%Z ∧ Capacity v = 3.
Proof.
  destruct (Vector_sized_holds_defaults Z int_element 3) as (Hsome & _ & _);
    [reflexivity|].
  eexists. split; [reflexivity|].
  edestruct Hsome as (_ & _ & _ & Hcap & Helems); [reflexivity|].
  split; [exact (Helems 0%Z eq_refl)|exact Hcap].
Defined.

(** X4.  The copy constructor, on a well-formed source, gives when it
    returns a well-formed vector that meets the invariant, holds the
    sequence of the source and has exactly as many slots as the source has
    elements; it throws exactly when the allocation fails or copying one of
    the elements throws. *)
Theorem Vector_copy_is_exact :
  ∀ (T : Type) (E : Element T) (r : Vector T),
    well_formed r →
    (∀ c, Vector_copy r = Some c →
       well_formed c ∧ invariant c ∧ Capacity c = size_ r ∧
       elements c = elements r) ∧
    (Vector_copy r = None ↔
       (size_ r ≠ 0 ∧ alloc_fails (size_ r) = true) ∨
       (∃ x, x ∈ elements r ∧ copy_throws x = true)).
Proof.
  intros T E r Hwf. pose proof Hwf as (Hlen & Hcap & Hle & _ & Hbytes).
  unfold Vector_copy, uninitialized_copy_n. split.
  - intros c.
    destruct (RawMemory_sized (size_ r)) as [data|] eqn:Hnew; [|done].
    apply RawMemory_sized_exact in Hnew as (Hc & _ & Hbuf);
      [|by apply well_formed_size_bytes].
    rewrite Hbuf, Hc.
    destruct (uninitialized_copy_from _ _ _ _ _ _) as [buf|buf] eqn:Hrun; [|done].
    apply uninitialized_copy_from_done in Hrun as (Hlen' & _ & Hin).
    rewrite length_replicate in Hlen', Hin. intros [= <-].
    assert (∀ i : nat, (i < N.to_nat (size_ r))%nat →
              buf !! i = buffer_ (data_ r) !! i) as Hsame.
    { intros i Hi. destruct (well_formed_live r i Hwf Hi) as [x Hx].
      rewrite Hx. apply (Hin i x); [lia|done|lia]. }
    destruct (same_elements r (MkVector (MkRawMemory buf (size_ r)) (size_ r)))
      as [Hwf' Helems]; simpl;
      [done|done|by apply well_formed_size_bytes|done|lia|done|].
    split_and!; [done| |done|done].
    split_and!; simpl; [lia| |intros; lia].
    intros i Hi. rewrite Hsame by lia. apply well_formed_live; [done|lia].
  - split.
    + unfold RawMemory_sized, Allocate.
      destruct (N.eqb_spec (size_ r) 0) as [Hz|Hnz].
      * rewrite Hz. simpl. done.
      * destruct (alloc_fails (size_ r)) eqn:Hfail; [auto|]. simpl.
        destruct (uninitialized_copy_from _ _ _ _ _ _) as [buf|buf] eqn:Hrun;
          [done|].
        intros _. right.
        apply uninitialized_copy_from_threw in Hrun as (k & x & Hk & Hx & Hthrow).
        exists x. split; [|done].
        apply list_elem_of_lookup. exists k. by apply elements_lookup.
    + intros [[Hnz Hfail]|(x & Hx & Hthrow)].
      * unfold RawMemory_sized, Allocate. rewrite Hfail.
        by destruct (N.eqb_spec (size_ r) 0).
      * destruct (RawMemory_sized (size_ r)) as [data|]; [|done].
        destruct (uninitialized_copy_from _ _ _ _ _ _) as [buf|buf] eqn:Hrun;
          [|done].
        apply uninitialized_copy_from_done in Hrun as (_ & _ & Hin).
        apply list_elem_of_lookup in Hx as [k Hk].
        apply elements_lookup in Hk as [Hlt Hk]; [|done].
        destruct (Hin k x) as [Hok _]; [lia|done|congruence].
Qed.

Lemma Vector_copy_is_exact_witness :
  let r := MkVector (MkRawMemory [Live 1%Z; Live 2%Z; Raw; Raw] 4) 2 in
  well_formed (E := int_element) r ∧
  ∃ c, Vector_copy (E := int_element) r = Some c ∧
       elements c = [1; 2]%Z ∧ Capacity c = 2.
Proof.
  intros r.
  assert (well_formed (E := int_element) r) as Hwf
    by (split_and!; [reflexivity|reflexivity|vm_compute; discriminate|reflexivity|reflexivity]).
  split; [exact Hwf|].
  destruct (Vector_copy_is_exact Z int_element r Hwf) as [Hsome _].
  eexists. split; [reflexivity|].
  edestruct Hsome as (_ & _ & Hcap & Helems); [reflexivity|].
  split; [exact Helems|exact Hcap].
Defined.

(** X5.  The move constructor hands the whole vector over (block,
    capacity, size) and leaves the source equal to a default-constructed
    vector: size 0, capacity 0, no block, nothing to destroy. *)
Theorem Vector_move_empties_the_source :
  ∀ (T : Type) (other : Vector T),
    Vector_move other = (other, Vector_default) ∧
    elements (Vector_move other).1 = elements other ∧
    size_ (Vector_move other).2 = 0 ∧ Capacity (Vector_move other).2 = 0 ∧
    Vector_destroy (Vector_move other).2 = [].
Proof.
  intros T other.
  assert (Vector_move other = (other, Vector_default)) as ->
    by (by destruct other as [[? ?] ?]).
  done.
Qed.

(** X6.  Move assignment between two distinct vectors exchanges them: the
    target gets the state of the source, and the source is left holding
    what the target held, not emptied; nothing else changes. *)
Theorem move_assignment_exchanges :
  ∀ (T : Type) (σ : gmap loc (Vector T)) (this other : loc)
    (l r : Vector T),
    this ≠ other → σ !! this = Some l → σ !! other = Some r →
    assign_move_at this other σ = <[this := r]> (<[other := l]> σ).
Proof.
  intros T σ this other l r Hne Hthis Hother.
  unfold assign_move_at, Swap_at.
  destruct (decide (this = other)) as [|_]; [done|].
  by rewrite Hthis, Hother, Swap_pair.
Qed.

Lemma move_assignment_exchanges_witness :
  let l := MkVector (MkRawMemory [Live 1%Z; Raw] 2) 1 in
  let r := MkVector (MkRawMemory [Live 7%Z; Live 8%Z; Live 9%Z] 3) 3 in
  let σ : gmap loc (Vector Z) := <[1%positive := l]> (<[2%positive := r]> ∅) in
  assign_move_at 1%positive 2%positive σ
    = <[1%positive := r]> (<[2%positive := l]> σ).
Proof.
  intros l r σ.
  apply (move_assignment_exchanges Z σ 1%positive 2%positive l r);
    [discriminate|reflexivity|reflexivity].
Defined.

(** ** Shifting inside one block *)

Section ShiftLemmas.
Context {T : Type} `{E : Element T}.
Implicit Types (buf : list (slot T)) (i k n d first : nat).

(** [std::move(buf + d + 1, buf + d + 1 + n, buf + d)], completed: the
    [n] objects after slot [d] have each moved one slot down. *)
Lemma move_range_shift_left buf d n buf' :
  move_range buf (S d) n d = Done buf' →
  length buf' = length buf ∧
  (∀ i, (i < d ∨ d + n < i)%nat → buf' !! i = buf !! i) ∧
  (∀ k x, (k < n)%nat → buf !! (S d + k)%nat = Some (Live x) →
     move_assign_throws x = false ∧ buf' !! (d + k)%nat = Some (Live x)).
Proof.
  revert buf d. induction n as [|n IH]; intros buf d Hrun; simpl in Hrun.
  - inversion Hrun; subst. split_and!; [done|done|intros; lia].
  - assert (∀ buf1, length buf1 = length buf →
              (∀ i, i ≠ d → i ≠ S d → buf1 !! i = buf !! i) →
              move_range buf1 (S (S d)) n (S d) = Done buf' →
              length buf' = length buf ∧
              (∀ i, (i < d ∨ d + S n < i)%nat → buf' !! i = buf !! i) ∧
              (∀ k x, (k < n)%nat → buf !! (S d + S k)%nat = Some (Live x) →
                 move_assign_throws x = false ∧
                 buf' !! (d + S k)%nat = Some (Live x)) ∧
              buf' !! d = buf1 !! d) as Hstep.
    { intros buf1 Hlen1 Hsame1 Hrun1.
      apply IH in Hrun1 as (Hlen & Hout & Hin). rewrite Hlen1 in Hlen.
      split_and!; [done| | |apply Hout; lia].
      - intros i Hi. rewrite Hout by lia. apply Hsame1; lia.
      - intros k x Hk Hx. replace (d + S k)%nat with (S d + k)%nat by lia.
        apply Hin; [done|]. rewrite Hsame1 by lia. rewrite <- Hx. f_equal. lia. }
    unfold move_assign_within in Hrun.
    destruct (buf !! S d) as [[|x]|] eqn:Hsrc.
    + destruct (Hstep buf) as (Hlen & Hout & Hin & _); [done..|].
      split_and!; [done|done|]. intros [|k] y Hk Hy.
      * rewrite Nat.add_0_r in Hy. congruence.
      * apply Hin; [lia|done].
    + destruct (move_assign_throws x) eqn:Hthrow; [done|].
      destruct (Hstep (<[S d := Live (moved_from x)]> (<[d := Live x]> buf)))
        as (Hlen & Hout & Hin & Hd).
      { by rewrite !length_insert. }
      { intros i Hd HSd. by rewrite !list_lookup_insert_ne. }
      { done. }
      split_and!; [done|done|]. intros [|k] y Hk Hy.
      * rewrite Nat.add_0_r in *. assert (y = x) as -> by congruence.
        split; [done|]. rewrite Hd, list_lookup_insert_ne by lia.
        apply list_lookup_insert_eq. apply lookup_lt_Some in Hsrc. lia.
      * apply Hin; [lia|done].
    + destruct (Hstep buf) as (Hlen & Hout & Hin & _); [done..|].
      split_and!; [done|done|]. intros [|k] y Hk Hy.
      * rewrite Nat.add_0_r in Hy. congruence.
      * apply Hin; [lia|done].
Qed.

Lemma move_range_total buf first n d :
  (∀ x, move_assign_throws x = false) →
  ∃ buf', move_range buf first n d = Done buf'.
Proof.
  intros Hok. revert buf first d.
  induction n as [|n IH]; intros buf first d; simpl; [eauto|].
  unfold move_assign_within.
  destruct (buf !! first) as [[|x]|]; [apply IH| |apply IH].
  rewrite Hok. apply IH.
Qed.

(** [std::move_backward(buf + first, buf + first + n, buf + first + n + 1)],
    completed: the [n] objects from slot [first] have each moved one slot
    up. *)
Lemma move_backward_shift_right buf first n buf' :
  (first + n < length buf)%nat →
  move_backward buf first n (first + n + 1) = Done buf' →
  length buf' = length buf ∧
  (∀ i, (i < first ∨ first + n < i)%nat → buf' !! i = buf !! i) ∧
  (∀ k x, (k < n)%nat → buf !! (first + k)%nat = Some (Live x) →
     move_assign_throws x = false ∧
     buf' !! (first + k + 1)%nat = Some (Live x)).
Proof.
  revert buf. induction n as [|n IH]; intros buf Hroom Hrun; simpl in Hrun.
  - inversion Hrun; subst. split_and!; [done|done|intros; lia].
  - replace (first + S n + 1 - 1)%nat with (first + n + 1)%nat in Hrun by lia.
    assert (∀ buf1, length buf1 = length buf →
              (∀ i, i ≠ (first + n)%nat → i ≠ (first + n + 1)%nat →
                    buf1 !! i = buf !! i) →
              move_backward buf1 first n (first + n + 1) = Done buf' →
              length buf' = length buf ∧
              (∀ i, (i < first ∨ first + S n < i)%nat → buf' !! i = buf !! i) ∧
              (∀ k x, (k < n)%nat → buf !! (first + k)%nat = Some (Live x) →
                 move_assign_throws x = false ∧
                 buf' !! (first + k + 1)%nat = Some (Live x)) ∧
              buf' !! (first + n + 1)%nat = buf1 !! (first + n + 1)%nat)
      as Hstep.
    { intros buf1 Hlen1 Hsame1 Hrun1.
      apply IH in Hrun1 as (Hlen & Hout & Hin); [|lia]. rewrite Hlen1 in Hlen.
      split_and!; [done| | |apply Hout; lia].
      - intros i Hi. rewrite Hout by lia. apply Hsame1; lia.
      - intros k x Hk Hx. apply Hin; [done|]. rewrite Hsame1 by lia. done. }
    unfold move_assign_within in Hrun.
    destruct (buf !! (first + n)%nat) as [[|x]|] eqn:Hsrc.
    + destruct (Hstep buf) as (Hlen & Hout & Hin & _); [done..|].
      split_and!; [done|done|]. intros k y Hk Hy.
      destruct (decide (k = n)) as [->|Hne]; [congruence|].
      apply Hin; [lia|done].
    + destruct (move_assign_throws x) eqn:Hthrow; [done|].
      destruct (Hstep (<[(first + n)%nat := Live (moved_from x)]>
                         (<[(first + n + 1)%nat := Live x]> buf)))
        as (Hlen & Hout & Hin & Hd).
      { by rewrite !length_insert. }
      { intros i Hi1 Hi2. by rewrite !list_lookup_insert_ne. }
      { done. }
      split_and!; [done|done|]. intros k y Hk Hy.
      destruct (decide (k = n)) as [->|Hne].
      * assert (y = x) as -> by congruence. split; [done|].
        rewrite Hd, list_lookup_insert_ne by lia.
        apply list_lookup_insert_eq. lia.
      * apply Hin; [lia|done].
    + destruct (Hstep buf) as (Hlen & Hout & Hin & _); [done..|].
      split_and!; [done|done|]. intros k y Hk Hy.
      destruct (decide (k = n)) as [->|Hne]; [congruence|].
      apply Hin; [lia|done].
Qed.

Lemma move_backward_total buf first n d_last :
  (∀ x, move_assign_throws x = false) →
  ∃ buf', move_backward buf first n d_last = Done buf'.
Proof.
  intros Hok. revert buf d_last.
  induction n as [|n IH]; intros buf d_last; simpl; [eauto|].
  unfold move_assign_within.
  destruct (buf !! (first + n)%nat) as [[|x]|]; [apply IH| |apply IH].
  rewrite Hok. apply IH.
Qed.

(** The source block after a relocation, completed or not: only the
    slots relocated from can have changed. *)
Lemma relocate_n_source by_move src first n dst d src' dst' :
  relocate_n by_move src first n dst d = Done (src', dst') →
  length src' = length src ∧
  ∀ i, (i < first ∨ first + n ≤ i)%nat → src' !! i = src !! i.
Proof.
  unfold relocate_n, uninitialized_move_n, uninitialized_copy_n.
  destruct by_move.
  - generalize d at 1. intros d0. revert src first dst d.
    induction n as [|n IH]; intros src first dst d Hrun; simpl in Hrun.
    + by inversion Hrun; subst.
    + destruct (src !! first) as [[|x]|] eqn:Hsrc.
      * apply IH in Hrun as [Hlen Hout]. split; [done|]. intros i Hi.
        apply Hout. lia.
      * destruct (move_throws x); [done|].
        apply IH in Hrun as [Hlen Hout]. rewrite length_insert in Hlen.
        split; [done|]. intros i Hi. rewrite Hout by lia.
        apply list_lookup_insert_ne. lia.
      * apply IH in Hrun as [Hlen Hout]. split; [done|]. intros i Hi.
        apply Hout. lia.
  - destruct (uninitialized_copy_from src first n dst d d); [|done].
    by intros [= <- _].
Qed.

End ShiftLemmas.

(** ** [Erase], [Emplace] and [Insert] *)

Section InsertEraseLemmas.
Context {T : Type} `{E : Element T}.

(** The vector once [x] sits in slot [p], the elements before it where
    they were and the elements from [p] on one slot further. *)
Lemma inserted (v : Vector T) (nb : list (slot T)) (capacity : N)
    (p : nat) (x : T) :
  well_formed v →
  length nb = N.to_nat capacity → capacity * sizeof_T < SizeT.modulus →
  size_ v < capacity → (p ≤ N.to_nat (size_ v))%nat →
  (∀ i : nat, (i < p)%nat → nb !! i = buffer_ (data_ v) !! i) →
  nb !! p = Some (Live x) →
  (∀ k : nat, (p ≤ k < N.to_nat (size_ v))%nat →
     nb !! (k + 1)%nat = buffer_ (data_ v) !! k) →
  well_formed (MkVector (MkRawMemory nb capacity) (SizeT.add (size_ v) 1)) ∧
  elements (MkVector (MkRawMemory nb capacity) (SizeT.add (size_ v) 1))
    = take p (elements v) ++ x :: drop p (elements v).
Proof.
  intros Hwf Hlen Hbytes Hroom Hp Hbefore Hat Hafter.
  pose proof (slots_below_bytes capacity) as Hcap.
  rewrite SizeT_add_small by lia.
  pose proof (elements_length v Hwf) as Hxs.
  assert (length (take p (elements v) ++ x :: drop p (elements v))
            = N.to_nat (size_ v + 1)) as Hlen'.
  { rewrite length_app, length_take. simpl. rewrite length_drop. lia. }
  assert (∀ (i : nat) y,
            (take p (elements v) ++ x :: drop p (elements v)) !! i = Some y →
            nb !! i = Some (Live y)) as Hall.
  { intros i y Hy. apply lookup_app_Some in Hy as [Hy|[Hge Hy]].
    - apply lookup_take_Some in Hy as [Hy Hi].
      apply elements_lookup in Hy as [_ Hy]; [|done].
      by rewrite Hbefore.
    - rewrite length_take in Hge, Hy.
      replace (p `min` length (elements v))%nat with p in * by lia.
      destruct (i - p)%nat as [|j] eqn:Hj; simpl in Hy.
      + assert (i = p) as -> by lia. congruence.
      + rewrite lookup_drop in Hy.
        apply elements_lookup in Hy as [Hlt Hy]; [|done].
        replace i with (p + j + 1)%nat by lia. rewrite Hafter by lia. done. }
  split.
  - apply well_formed_intro; simpl; [done|done|lia|].
    intros i Hi.
    destruct (lookup_lt_is_Some_2
                (take p (elements v) ++ x :: drop p (elements v)) i) as [y Hy];
      [lia|eauto].
  - by apply elements_intro.
Qed.

Lemma Emplace_returned (pos : N) (x : T) (v : Vector T) r v' lost :
  well_formed v → fits v → pos ≤ size_ v →
  Emplace pos (Some x) v = Returned r v' lost →
  r = pos ∧ well_formed v' ∧
  elements v'
    = take (N.to_nat pos) (elements v) ++ x :: drop (N.to_nat pos) (elements v) ∧
  Capacity v' = (if size_ v <? Capacity v then Capacity v
                 else N.max (2 * Capacity v) (size_ v + 1)).
Proof.
  intros Hwf Hfits Hpos. pose proof Hwf as (Hlen & Hcap & Hle & _ & Hbytes).
  pose proof SizeT_modulus_gt_1 as Hmod.
  pose proof (forward_capacity_bytes v Hwf Hfits) as Hgrown.
  unfold Emplace, Capacity in *.
  destruct (N.ltb_spec (size_ v) (capacity_ (data_ v))) as [Hlt|Hge].
  - destruct (N.eqb_spec pos (size_ v)) as [->|Hne]; simpl.
    + (* at the end: built in place *)
      intros [= <- <- _]. split; [done|]. simpl.
      destruct (inserted v
                  (construct_at (buffer_ (data_ v)) (N.to_nat (size_ v)) x)
                  (capacity_ (data_ v)) (N.to_nat (size_ v)) x)
        as [Hwf' Helems]; unfold construct_at;
        [done|by rewrite length_insert|done|done|done| | |intros; lia|done].
      * intros i Hi. apply list_lookup_insert_ne. lia.
      * apply list_lookup_insert_eq. lia.
    + (* before the end: shift up by one, then assign *)
      assert (pos < size_ v) as Hin by lia.
      rewrite SizeT_sub_small by lia.
      destruct (well_formed_live v (N.to_nat (size_ v - 1)) Hwf) as [z Hz]; [lia|].
      unfold uninitialized_move_1_within. rewrite Hz.
      destruct (move_throws z); [done|]. unfold construct_at.
      replace (N.to_nat (size_ v))
        with (N.to_nat pos + (N.to_nat (size_ v - 1) - N.to_nat pos) + 1)%nat
        at 2 by lia.
      destruct (move_backward _ _ _ _) as [buf2|buf2] eqn:Hshift; [|done].
      apply move_backward_shift_right in Hshift as (Hlen2 & Hout2 & Hin2);
        [|rewrite !length_insert; lia].
      rewrite !length_insert in Hlen2.
      unfold move_assign_at. destruct (move_assign_throws x); [done|].
      intros [= <- <- _]. split; [done|]. simpl.
      destruct (inserted v (<[N.to_nat pos := Live x]> buf2)
                  (capacity_ (data_ v)) (N.to_nat pos) x)
        as [Hwf' Helems];
        [done|by rewrite length_insert; lia|done|done|lia| | | |done].
      * intros i Hi. rewrite list_lookup_insert_ne by lia.
        rewrite Hout2 by lia. by rewrite !list_lookup_insert_ne by lia.
      * apply list_lookup_insert_eq. lia.
      * intros k Hk. rewrite list_lookup_insert_ne by lia.
        destruct (decide (k = N.to_nat (size_ v - 1))) as [->|Hlast].
        -- rewrite Hout2 by lia. rewrite list_lookup_insert_ne by lia.
           rewrite Hz. replace (N.to_nat (size_ v - 1) + 1)%nat
             with (N.to_nat (size_ v)) by lia.
           apply list_lookup_insert_eq. lia.
        -- destruct (well_formed_live v k Hwf) as [y Hy]; [lia|].
           rewrite Hy.
           replace (k + 1)%nat
             with (N.to_nat pos + (k - N.to_nat pos) + 1)%nat by lia.
           apply Hin2; [lia|].
           rewrite !list_lookup_insert_ne by lia.
           rewrite <- Hy. f_equal. lia.
  - (* full: a new block *)
    assert (size_ v = capacity_ (data_ v)) as Hfull by lia.
    pose proof (forward_capacity v) as Hgrow. unfold Capacity in Hgrow.
    rewrite Hgrow by (done || lia).
    destruct (RawMemory_sized _) as [new_data|] eqn:Hnew; [|done].
    apply RawMemory_sized_exact in Hnew as (Hc & _ & Hbuf); [|done].
    rewrite Hbuf, Hc. unfold construct_at.
    destruct (relocate_n _ _ _ _ _ _) as [[old1 nb1]|[old1 nb1]] eqn:Hrun1;
      [|done].
    rewrite SizeT_sub_small by lia.
    destruct (relocate_n _ old1 _ _ _ _) as [[old nb]|[old nb]] eqn:Hrun2;
      [|done].
    pose proof (relocate_n_source _ _ _ _ _ _ _ _ Hrun1) as [_ Hold1].
    apply relocate_n_done in Hrun1 as (Hlen1 & Hout1 & Hin1).
    apply relocate_n_done in Hrun2 as (Hlen2 & Hout2 & Hin2).
    rewrite length_insert, length_replicate in Hlen1, Hin1.
    rewrite Hlen1 in Hlen2, Hin2. destruct Hfits as [Hfits _].
    unfold adopt. simpl. intros [= <- <- _]. split; [done|].
    destruct (inserted v nb (N.max (2 * capacity_ (data_ v)) (size_ v + 1))
                (N.to_nat pos) x) as [Hwf' Helems];
      [done|done|done|lia|lia| | | |done].
    * intros i Hi. rewrite Hout2 by lia.
      destruct (well_formed_live v i Hwf) as [y Hy]; [lia|].
      rewrite Hy. apply (Hin1 i y); [lia|done|lia].
    * rewrite Hout2, Hout1 by lia.
      apply list_lookup_insert_eq. rewrite length_replicate. lia.
    * intros k Hk. destruct (well_formed_live v k Hwf) as [y Hy]; [lia|].
      rewrite Hy.
      replace (k + 1)%nat with (N.to_nat pos + 1 + (k - N.to_nat pos))%nat by lia.
      apply Hin2; [lia| |lia].
      rewrite Hold1 by lia. rewrite <- Hy. f_equal. lia.
Qed.

Lemma Emplace_total (pos : N) (x : T) (v : Vector T) :
  well_formed v → never_throws → has_returned (Emplace pos (Some x) v) = true.
Proof.
  intros Hwf Hcalm.
  pose proof Hcalm as (_ & Hcopy & Hmove & _ & Hassign & Halloc).
  unfold Emplace.
  destruct (size_ v <? Capacity v).
  - destruct (pos =? size_ v); simpl; [done|].
    unfold uninitialized_move_1_within.
    destruct (buffer_ (data_ v) !! _) as [[|z]|]; rewrite ?Hmove.
    all: match goal with
         | |- context [move_backward ?b ?f ?n ?d] =>
             destruct (move_backward_total b f n d Hassign) as [buf2 ->]
         end.
    all: unfold move_assign_at; by rewrite Hassign.
  - destruct (RawMemory_sized_returns
                (N.max (SizeT.mul (Capacity v) 2) (SizeT.add (size_ v) 1))
                (Halloc _)) as [m ->].
    destruct (relocate_n_total relocate_by_move (buffer_ (data_ v)) 0
                (N.to_nat pos)
                (construct_at (buffer_ m) (N.to_nat pos) x) 0)
      as (old1 & nb1 & ->); [auto|].
    destruct (relocate_n_total relocate_by_move old1 (N.to_nat pos)
                (N.to_nat (SizeT.sub (size_ v) pos)) nb1 (N.to_nat pos + 1))
      as (old & nb & ->); [auto|].
    done.
Qed.

Lemma Erase_returned (pos : N) (v : Vector T) r v' lost :
  well_formed v → pos < size_ v →
  Erase pos v = Returned r v' lost →
  r = pos ∧ well_formed v' ∧ Capacity v' = Capacity v ∧
  elements v' = delete (N.to_nat pos) (elements v).
Proof.
  intros Hwf Hpos. pose proof Hwf as (Hlen & Hcap & Hle & _ & Hbytes).
  pose proof (elements_length v Hwf) as Hxs.
  unfold Erase, Capacity.
  replace (N.to_nat pos + 1)%nat with (S (N.to_nat pos)) by lia.
  destruct (move_range _ _ _ _) as [buf1|buf1] eqn:Hshift; [|done].
  apply move_range_shift_left in Hshift as (Hlen1 & Hout1 & Hin1).
  intros [= <- <- _]. simpl. rewrite SizeT_sub_small by lia.
  assert (length (delete (N.to_nat pos) (elements v))
            = N.to_nat (size_ v - 1)) as Hlen'.
  { rewrite length_delete; [lia|]. apply lookup_lt_is_Some_2. lia. }
  assert (∀ (i : nat) y, delete (N.to_nat pos) (elements v) !! i = Some y →
            destroy_at buf1 (N.to_nat (size_ v)) !! i = Some (Live y)) as Hall.
  { intros i y Hy.
    assert (i < N.to_nat (size_ v - 1))%nat as Hi
      by (apply lookup_lt_Some in Hy; lia).
    unfold destroy_at. rewrite list_lookup_insert_ne by lia.
    destruct (decide (i < N.to_nat pos)%nat) as [Hlow|Hhigh].
    - rewrite list_lookup_delete_lt in Hy by done.
      apply elements_lookup in Hy as [_ Hy]; [|done].
      by rewrite Hout1 by lia.
    - rewrite list_lookup_delete_ge in Hy by lia.
      apply elements_lookup in Hy as [_ Hy]; [|done].
      replace i with (N.to_nat pos + (i - N.to_nat pos))%nat by lia.
      apply Hin1; [lia|]. rewrite <- Hy. f_equal. lia. }
  split_and!.
  - done.
  - apply well_formed_intro; simpl.
    + unfold destroy_at. rewrite length_insert. congruence.
    + done.
    + lia.
    + intros i Hi.
      destruct (lookup_lt_is_Some_2 (delete (N.to_nat pos) (elements v)) i)
        as [y Hy]; [lia|eauto].
  - done.
  - apply elements_intro; simpl; done.
Qed.

Lemma Erase_total (pos : N) (v : Vector T) :
  never_throws → has_returned (Erase pos v) = true.
Proof.
  intros (_ & _ & _ & _ & Hassign & _). unfold Erase.
  destruct (move_range_total (buffer_ (data_ v)) (N.to_nat pos + 1)
              (N.to_nat (size_ v) - (N.to_nat pos + 1)) (N.to_nat pos) Hassign)
    as [buf ->].
  done.
Qed.

End InsertEraseLemmas.

(** X7.  With an element type whose destructor is trivial, on a
    well-formed vector and a position before the end, whenever [Erase]
    returns, the vector is well-formed, keeps its capacity and holds the
    old sequence without the element at that position; the position
    returned is the one given, now that of the element that followed.
    [Erase] returns when nothing throws. *)
Theorem Erase_removes_the_element :
  ∀ (T : Type) (E : Element T) (v : Vector T) (pos : N),
    is_trivially_destructible = true →
    well_formed v → pos < size_ v →
    (∀ r v' lost, Erase pos v = Returned r v' lost →
       r = pos ∧ well_formed v' ∧ Capacity v' = Capacity v ∧
       elements v' = delete (N.to_nat pos) (elements v)) ∧
    (never_throws → has_returned (Erase pos v) = true).
Proof.
  intros T E v pos _ Hwf Hpos. split.
  - intros r v' lost Hrun. by eapply Erase_returned.
  - apply Erase_total.
Qed.

Lemma Erase_removes_the_element_witness :
  let v := MkVector (MkRawMemory [Live 10%Z; Live 20%Z; Live 30%Z] 3) 3 in
  well_formed (E := int_element) v ∧
  elements (self_of (Erase (E := int_element) 1 v)) = [10; 30]%Z.
Proof.
  intros v.
  assert (well_formed (E := int_element) v) as Hwf
    by (split_and!; [reflexivity|reflexivity|vm_compute; discriminate|reflexivity|reflexivity]).
  split; [exact Hwf|].
  destruct (Erase_removes_the_element Z int_element v 1 eq_refl Hwf) as [Hret _];
    [reflexivity|].
  edestruct Hret as (_ & _ & _ & Helems); [reflexivity|].
  exact Helems.
Defined.

(** X8.  On a well-formed vector and a position up to the end, whenever
    [Emplace] or [Insert] (by copy or by move) returns, the vector is
    well-formed and holds the old sequence with the new element inserted
    at that position, all other elements in their order; the position
    returned is that of the new element; the capacity is kept when there
    was room and is [max(2*old, size+1)] otherwise.  [Emplace] returns
    when nothing throws. *)
Theorem Emplace_inserts_at_the_position :
  ∀ (T : Type) (E : Element T) (v : Vector T) (pos : N) (x : T),
    well_formed v → fits v → pos ≤ size_ v →
    (∀ r v' lost, Emplace pos (Some x) v = Returned r v' lost →
       r = pos ∧ holds_inserted v pos x v') ∧
    (∀ r v' lost, Insert_copy pos x v = Returned r v' lost →
       r = pos ∧ holds_inserted v pos x v') ∧
    (∀ r v' lost, Insert_move pos x v = Returned r v' lost →
       r = pos ∧ holds_inserted v pos x v') ∧
    (never_throws → has_returned (Emplace pos (Some x) v) = true).
Proof.
  intros T E v pos x Hwf Hfits Hpos.
  assert (∀ r v' lost, Emplace pos None v ≠ Returned r v' lost) as Hnone.
  { intros r v' lost. unfold Emplace.
    destruct (size_ v <? Capacity v).
    - by destruct (negb (pos =? size_ v)).
    - by destruct (RawMemory_sized _). }
  assert (∀ r v' lost, Emplace pos (Some x) v = Returned r v' lost →
            r = pos ∧ holds_inserted v pos x v') as Hsome.
  { intros r v' lost Hrun.
    by apply Emplace_returned in Hrun as (-> & Hwf' & Helems & Hcap). }
  split_and!.
  - done.
  - intros r v' lost. unfold Insert_copy.
    destruct (copy_throws x); [intros Hrun; by apply Hnone in Hrun|apply Hsome].
  - intros r v' lost. unfold Insert_move.
    destruct (move_throws x); [intros Hrun; by apply Hnone in Hrun|apply Hsome].
  - by apply Emplace_total.
Qed.

Lemma Emplace_inserts_at_the_position_witness :
  let v := MkVector (MkRawMemory [Live 10%Z; Live 20%Z; Live 30%Z] 3) 3 in
  well_formed (E := int_element) v ∧ fits (E := int_element) v ∧
  elements (self_of (Insert_copy (E := int_element) 1 7%Z v))
    = [10; 7; 20; 30]%Z ∧
  Capacity (self_of (Insert_copy (E := int_element) 1 7%Z v)) = 6.
Proof.
  intros v.
  assert (well_formed (E := int_element) v) as Hwf
    by (split_and!; [reflexivity|reflexivity|vm_compute; discriminate|reflexivity|reflexivity]).
  assert (fits (E := int_element) v) as Hfits by (split; reflexivity).
  split; [exact Hwf|]. split; [exact Hfits|].
  destruct (Emplace_inserts_at_the_position Z int_element v 1 7%Z Hwf Hfits)
    as (_ & Hret & _); [vm_compute; discriminate|].
  edestruct Hret as (_ & _ & Helems & Hcap); [reflexivity|].
  split; [exact Helems|exact Hcap].
Defined.

(** X9.  With an element type whose destructor is trivial, erasing at
    the position [Emplace] returned undoes the insertion: whenever both
    calls return, the vector holds the sequence it held before the
    insertion; and the [Erase] returns when nothing throws. *)
Theorem Erase_undoes_Emplace :
  ∀ (T : Type) (E : Element T) (v : Vector T) (pos : N) (x : T) r v' lost,
    is_trivially_destructible = true →
    well_formed v → fits v → pos ≤ size_ v →
    Emplace pos (Some x) v = Returned r v' lost →
    (∀ r2 v2 lost2, Erase r v' = Returned r2 v2 lost2 →
       well_formed v2 ∧ elements v2 = elements v) ∧
    (never_throws → has_returned (Erase r v') = true).
Proof.
  intros T E v pos x r v' lost _ Hwf Hfits Hpos Hrun.
  apply Emplace_returned in Hrun as (-> & Hwf' & Helems & _); [|done..].
  pose proof (elements_length v Hwf) as Hxs.
  pose proof (elements_length v' Hwf') as Hxs'.
  rewrite Helems, length_app, length_take in Hxs'. simpl in Hxs'.
  rewrite length_drop in Hxs'.
  split; [|apply Erase_total].
  intros r2 v2 lost2 Hrun2.
  apply Erase_returned in Hrun2 as (_ & Hwf2 & _ & Helems2); [|done|lia].
  split; [done|]. rewrite Helems2, Helems.
  replace (N.to_nat pos) with (length (take (N.to_nat pos) (elements v))) at 1
    by (rewrite length_take; lia).
  rewrite delete_middle. apply take_drop.
Qed.

Lemma Erase_undoes_Emplace_witness :
  let v := MkVector (MkRawMemory [Live 10%Z; Live 20%Z; Live 30%Z; Raw] 4) 3 in
  ∃ r v' lost,
    Emplace (E := int_element) 1 (Some 7%Z) v = Returned r v' lost ∧
    elements (self_of (Erase (E := int_element) r v')) = [10; 20; 30]%Z.
Proof.
  intros v.
  assert (well_formed (E := int_element) v) as Hwf
    by (split_and!; [reflexivity|reflexivity|vm_compute; discriminate|reflexivity|reflexivity]).
  assert (fits (E := int_element) v) as Hfits by (split; reflexivity).
  eexists _, _, _. split; [reflexivity|].
  edestruct (Erase_undoes_Emplace Z int_element v 1 7%Z) as [Hback _];
    [reflexivity|exact Hwf|exact Hfits|vm_compute; discriminate|reflexivity|].
  edestruct Hback as [_ Helems]; [reflexivity|].
  exact Helems.
Defined.

(** ** What a throw leaves behind *)

Section ThrowLemmas.
Context {T : Type} `{E : Element T}.
Implicit Types (buf src dst : list (slot T)) (i k n first d : nat).

Lemma Deallocate_nil buf :
  (∀ i x, buf !! i ≠ Some (Live x)) → Deallocate buf = [].
Proof.
  unfold Deallocate. induction buf as [|s buf IH]; intros Hraw; simpl; [done|].
  destruct s as [|x]; simpl.
  - apply IH. intros i x. apply (Hraw (S i) x).
  - by destruct (Hraw 0%nat x).
Qed.

Lemma Deallocate_replicate n : Deallocate (replicate n (@Raw T)) = [].
Proof.
  apply Deallocate_nil. intros i x Hx. by apply lookup_replicate in Hx as [? _].
Qed.

Lemma with_buffer_same (v : Vector T) : with_buffer v (buffer_ (data_ v)) = v.
Proof. by destruct v as [[? ?] ?]. Qed.

(** A copy into slots that held no object, once it has thrown, has left
    no object in them. *)
Lemma uninitialized_copy_from_threw_raw src first n dst d0 d dst' :
  (d0 ≤ d)%nat →
  (∀ i x, (d ≤ i < d + n)%nat → dst !! i ≠ Some (Live x)) →
  uninitialized_copy_from src first n dst d0 d = Threw dst' →
  (∀ i, (i < d0 ∨ d + n ≤ i)%nat → dst' !! i = dst !! i) ∧
  (∀ i x, (d0 ≤ i < d + n)%nat → dst' !! i ≠ Some (Live x)).
Proof.
  revert first dst d. induction n as [|n IH]; intros first dst d Hd Hraw Hrun;
    simpl in Hrun; [done|].
  assert (∀ dst1, (∀ i, i ≠ d → dst1 !! i = dst !! i) →
            uninitialized_copy_from src (S first) n dst1 d0 (S d) = Threw dst' →
            (∀ i, (i < d0 ∨ d + S n ≤ i)%nat → dst' !! i = dst !! i) ∧
            (∀ i x, (d0 ≤ i < d + S n)%nat → dst' !! i ≠ Some (Live x)))
    as Hstep.
  { intros dst1 Hsame1 Hrun1. apply IH in Hrun1 as [Hout Hin]; [|lia|].
    - split.
      + intros i Hi. rewrite Hout by lia. apply Hsame1. lia.
      + intros i x Hi. apply Hin. lia.
    - intros i x Hi. rewrite Hsame1 by lia. apply Hraw. lia. }
  destruct (src !! first) as [[|x]|] eqn:Hsrc; [by apply (Hstep dst)| |by apply (Hstep dst)].
  destruct (copy_throws x).
  - inversion Hrun; subst. split.
    + intros i Hi. apply destroy_n_lookup_out. lia.
    + intros i y Hi. destruct (decide (i < d)%nat) as [Hlow|Hhigh].
      * destruct (decide (i < length dst)%nat) as [Hlen|Hlen].
        -- rewrite destroy_n_lookup_in by lia. done.
        -- rewrite lookup_ge_None_2 by (rewrite destroy_n_length; lia). done.
      * rewrite destroy_n_lookup_out by lia. apply Hraw. lia.
  - apply (Hstep (construct_at dst d x)); [|done].
    intros i Hi. unfold construct_at. by apply list_lookup_insert_ne.
Qed.

(** With a copyable element type, a relocation that throws has left the
    source block as it was. *)
Lemma relocate_n_threw_source by_move src first n dst d src' dst' :
  (by_move = true → ∀ x, move_throws x = false) →
  relocate_n by_move src first n dst d = Threw (src', dst') →
  by_move = false ∧ src' = src ∧
  uninitialized_copy_from src first n dst d d = Threw dst'.
Proof.
  intros Hsafe. unfold relocate_n, uninitialized_move_n, uninitialized_copy_n.
  destruct by_move.
  - destruct (uninitialized_move_from_total src first n dst d d)
      as (src1 & dst1 & ->); [|done].
    intros k x _ _. by apply Hsafe.
  - destruct (uninitialized_copy_from src first n dst d d); [done|].
    by intros [= <- <-].
Qed.

Lemma copyable_moves_safely :
  is_copy_constructible = true →
  relocate_by_move = true → ∀ x, move_throws x = false.
Proof.
  unfold relocate_by_move. intros -> Hmove. rewrite orb_false_r in Hmove.
  by apply nothrow_move_sound.
Qed.

Lemma RawMemory_sized_deallocate (capacity : N) (m : RawMemory T) :
  RawMemory_sized capacity = Some m → Deallocate (buffer_ m) = [].
Proof.
  intros Hnew. apply RawMemory_sized_capacity in Hnew as (_ & _ & ->).
  apply Deallocate_replicate.
Qed.

End ThrowLemmas.

(** X10.  When building the new element throws, [PushBack] (either
    overload), [EmplaceBack], [Emplace] and [Insert] leave the vector
    exactly as it was and lose no object, whatever the vector and whether
    or not a new block had been allocated. *)
Theorem failed_construction_changes_nothing :
  ∀ (T : Type) (E : Element T) (v : Vector T),
    (∀ x, copy_assign_throws x = true → PushBack_copy x v = Raised v []) ∧
    (∀ copy_constructible_U,
       PushBack_forward copy_constructible_U None v = Raised v []) ∧
    EmplaceBack None v = Raised v [] ∧
    (∀ pos, Emplace pos None v = Raised v []) ∧
    (∀ pos x, copy_throws x = true → Insert_copy pos x v = Raised v []) ∧
    (∀ pos x, move_throws x = true → Insert_move pos x v = Raised v []).
Proof.
  intros T E v.
  assert (∀ pos, Emplace pos None v = Raised v []) as Hemplace.
  { intros pos. unfold Emplace. destruct (size_ v <? Capacity v).
    - by destruct (negb (pos =? size_ v)).
    - destruct (RawMemory_sized _) as [new_data|] eqn:Hnew; [|done].
      by rewrite (RawMemory_sized_deallocate _ _ Hnew). }
  split_and!.
  - intros x Hthrow. unfold PushBack_copy, copy_assign_at. rewrite Hthrow.
    destruct (size_ v =? Capacity v); [|done].
    destruct (RawMemory_sized _) as [new_data|] eqn:Hnew; [|done].
    by rewrite (RawMemory_sized_deallocate _ _ Hnew).
  - intros ccu. unfold PushBack_forward.
    destruct (size_ v <? Capacity v); [done|].
    destruct (RawMemory_sized _) as [new_data|] eqn:Hnew; [|done].
    by rewrite (RawMemory_sized_deallocate _ _ Hnew).
  - unfold EmplaceBack. destruct (size_ v =? Capacity v); [|done].
    destruct (RawMemory_sized _) as [new_data|] eqn:Hnew; [|done].
    by rewrite (RawMemory_sized_deallocate _ _ Hnew).
  - done.
  - intros pos x Hthrow. unfold Insert_copy. by rewrite Hthrow.
  - intros pos x Hthrow. unfold Insert_move. by rewrite Hthrow.
Qed.

Lemma failed_construction_changes_nothing_witness :
  let v := MkVector (MkRawMemory [Live 1%Z] 1) 1 in
  PushBack_copy (E := brittle_element) (-5)%Z v = Raised v [] ∧
  Insert_copy (E := brittle_element) 0 (-5)%Z v = Raised v [].
Proof.
  intros v.
  destruct (failed_construction_changes_nothing Z brittle_element v)
    as (Hpush & _ & _ & _ & Hinsert & _).
  split; [apply Hpush; reflexivity|apply Hinsert; reflexivity].
Defined.

(** X11.  With a copy-constructible element type, an exception that
    leaves [Reserve], [PushBack] (either overload, [U] copy-constructible
    too), [EmplaceBack], or an [Emplace] that found no room, leaves the
    vector exactly as it was: the old elements are relocated by copy, or by
    a move that cannot throw.  [Reserve] and [PushBack(U&&)] also lose no
    object then. *)
Theorem copyable_elements_give_strong_guarantee :
  ∀ (T : Type) (E : Element T) (v : Vector T),
    is_copy_constructible = true →
    (∀ n v' lost, Reserve n v = Raised v' lost → v' = v ∧ lost = []) ∧
    (∀ x v' lost, PushBack_copy x v = Raised v' lost → v' = v) ∧
    (∀ made v' lost, PushBack_forward true made v = Raised v' lost →
       v' = v ∧ lost = []) ∧
    (∀ made v' lost, EmplaceBack made v = Raised v' lost → v' = v) ∧
    (∀ pos made v' lost, Capacity v ≤ size_ v →
       Emplace pos made v = Raised v' lost → v' = v).
Proof.
  intros T E v Hcopyable.
  pose proof (copyable_moves_safely Hcopyable) as Hsafe.
  assert (is_nothrow_move_constructible || negb true = true →
          ∀ x, move_throws x = false) as Hsafe'.
  { rewrite orb_false_r. apply nothrow_move_sound. }
  split_and!.
  - intros n v' lost. unfold Reserve.
    destruct (Capacity v <? n); [|done].
    destruct (RawMemory_sized n) as [new_data|] eqn:Hnew; [|by intros [= <- <-]].
    apply RawMemory_sized_capacity in Hnew as (_ & _ & Hbuf). rewrite Hbuf.
    destruct (relocate_n _ _ _ _ _ _) as [[old nb]|[old nb]] eqn:Hrun;
      [by destruct (adopt _ _ _ _)|].
    apply relocate_n_threw_source in Hrun as (_ & -> & Hrun); [|done].
    intros [= <- <-]. split; [apply with_buffer_same|].
    apply uninitialized_copy_from_threw_raw in Hrun as [Hout Hin]; [|lia|].
    + apply Deallocate_nil. intros i x Hx.
      destruct (decide (i < N.to_nat (size_ v))%nat) as [Hlow|Hhigh].
      * apply (Hin i x); [lia|done].
      * rewrite Hout in Hx by lia. by apply lookup_replicate in Hx as [? _].
    + intros i x _ Hx. by apply lookup_replicate in Hx as [? _].
  - intros x v' lost. unfold PushBack_copy.
    destruct (size_ v =? Capacity v).
    + destruct (RawMemory_sized _) as [new_data|]; [|by intros [= <- _]].
      destruct (copy_assign_at _ _ _); [|by intros [= <- _]].
      destruct (relocate_n _ _ _ _ _ _) as [[old nb]|[old nb]] eqn:Hrun;
        [by destruct (adopt _ _ _ _)|].
      apply relocate_n_threw_source in Hrun as (_ & -> & _); [|done].
      intros [= <- _]. apply with_buffer_same.
    + destruct (copy_assign_at _ _ _); [done|by intros [= <- _]].
  - intros made v' lost. unfold PushBack_forward.
    destruct (size_ v <? Capacity v); [destruct made; [done|by intros [= <- <-]]|].
    destruct (RawMemory_sized _) as [new_data|] eqn:Hnew; [|by intros [= <- <-]].
    destruct made as [x|];
      [|rewrite (RawMemory_sized_deallocate _ _ Hnew); by intros [= <- <-]].
    apply RawMemory_sized_capacity in Hnew as (_ & _ & Hbuf). rewrite Hbuf.
    destruct (relocate_n _ _ _ _ _ _) as [[old nb]|[old nb]] eqn:Hrun;
      [by destruct (adopt _ _ _ _)|].
    apply relocate_n_threw_source in Hrun as (_ & -> & Hrun); [|done].
    intros [= <- <-]. split; [apply with_buffer_same|].
    unfold construct_at in Hrun.
    apply uninitialized_copy_from_threw_raw in Hrun as [Hout Hin]; [|lia|].
    + apply Deallocate_nil. intros i x' Hx. simpl in Hx. unfold destroy_at in Hx.
      destruct (decide (i = N.to_nat (size_ v))) as [->|Hne].
      * destruct (decide (N.to_nat (size_ v) < length nb)%nat) as [Hlen|Hlen].
        -- by rewrite list_lookup_insert_eq in Hx.
        -- by rewrite lookup_ge_None_2 in Hx by (rewrite length_insert; lia).
      * rewrite list_lookup_insert_ne in Hx by done.
        destruct (decide (i < N.to_nat (size_ v))%nat) as [Hlow|Hhigh].
        -- apply (Hin i x'); [lia|done].
        -- rewrite Hout, list_lookup_insert_ne in Hx by lia.
           by apply lookup_replicate in Hx as [? _].
    + intros i x' Hi Hx. rewrite list_lookup_insert_ne in Hx by lia.
      by apply lookup_replicate in Hx as [? _].
  - intros made v' lost. unfold EmplaceBack.
    destruct (size_ v =? Capacity v).
    + destruct (RawMemory_sized _) as [new_data|]; [|by intros [= <- _]].
      destruct made as [x|]; [|by intros [= <- _]].
      destruct (relocate_n _ _ _ _ _ _) as [[old nb]|[old nb]] eqn:Hrun;
        [by destruct (adopt _ _ _ _)|].
      apply relocate_n_threw_source in Hrun as (_ & -> & _); [|done].
      intros [= <- _]. apply with_buffer_same.
    + destruct made; [done|by intros [= <- _]].
  - intros pos made v' lost Hfull. unfold Emplace.
    destruct (N.ltb_spec (size_ v) (Capacity v)) as [?|_]; [lia|].
    destruct (RawMemory_sized _) as [new_data|]; [|by intros [= <- _]].
    destruct made as [x|]; [|by intros [= <- _]].
    destruct (relocate_n _ _ _ _ _ _) as [[old1 nb1]|[old1 nb1]] eqn:Hrun1.
    + destruct (relocate_n _ old1 _ _ _ _) as [[old nb]|[old nb]] eqn:Hrun2;
        [by destruct (adopt _ _ _ _)|].
      apply relocate_n_threw_source in Hrun2 as (Hcopy & -> & _); [|done].
      rewrite Hcopy in Hrun1. unfold relocate_n in Hrun1.
      destruct (uninitialized_copy_n _ _ _ _ _); [|done].
      injection Hrun1 as <- _. intros [= <- _]. apply with_buffer_same.
    + apply relocate_n_threw_source in Hrun1 as (_ & -> & _); [|done].
      intros [= <- _]. apply with_buffer_same.
Qed.

Lemma copyable_elements_give_strong_guarantee_witness :
  let v := MkVector (MkRawMemory [Live 1%Z; Live (-1)%Z] 2) 2 in
  has_returned (Reserve (E := brittle_element) 5 v) = false ∧
  self_of (Reserve (E := brittle_element) 5 v) = v ∧
  lost_of (Reserve (E := brittle_element) 5 v) = [].
Proof.
  intros v.
  destruct (copyable_elements_give_strong_guarantee Z brittle_element v eq_refl)
    as (Hreserve & _).
  destruct (Hreserve 5 (self_of (Reserve (E := brittle_element) 5 v))
              (lost_of (Reserve (E := brittle_element) 5 v)) eq_refl)
    as [Hv Hlost].
  split; [reflexivity|]. split; [exact Hv|exact Hlost].
Defined.

(** ** Well-formedness after every call *)

Section KeepsLiveLemmas.
Context {T : Type} `{E : Element T}.
Implicit Types (buf src dst : list (slot T)) (i k n first d : nat).

Lemma keeps_live_refl n buf : keeps_live n buf buf.
Proof. by split. Qed.

Lemma keeps_live_trans n buf1 buf2 buf3 :
  keeps_live n buf1 buf2 → keeps_live n buf2 buf3 → keeps_live n buf1 buf3.
Proof.
  intros [Hlen1 Hlive1] [Hlen2 Hlive2]. split; [congruence|].
  intros i Hi Hx. by apply Hlive2, Hlive1.
Qed.

Lemma keeps_live_insert n buf i x : keeps_live n buf (<[i := Live x]> buf).
Proof.
  split; [apply length_insert|]. intros j Hj [y Hy].
  destruct (decide (j = i)) as [->|Hne].
  - exists x. apply list_lookup_insert_eq. by apply lookup_lt_Some in Hy.
  - exists y. by rewrite list_lookup_insert_ne.
Qed.

Lemma keeps_live_destroy_n n buf first k :
  (n ≤ first)%nat → keeps_live n buf (destroy_n buf first k).
Proof.
  intros Hn. split; [apply destroy_n_length|]. intros i Hi Hx.
  by rewrite destroy_n_lookup_out by lia.
Qed.

Lemma keeps_live_destroy_at n buf i :
  (n ≤ i)%nat → keeps_live n buf (destroy_at buf i).
Proof. intros Hn. apply (keeps_live_destroy_n n buf i 1 Hn). Qed.

Lemma keeps_live_le n m buf buf' :
  (m ≤ n)%nat → keeps_live n buf buf' → keeps_live m buf buf'.
Proof. intros Hle [Hlen Hlive]. split; [done|]. intros i Hi. apply Hlive. lia. Qed.

Lemma well_formed_keeps (v : Vector T) buf' :
  well_formed v → keeps_live (N.to_nat (size_ v)) (buffer_ (data_ v)) buf' →
  well_formed (with_buffer v buf').
Proof.
  intros Hwf [Hlen' Hlive]. pose proof Hwf as (Hlen & Hcap & Hle & _ & Hbytes).
  apply well_formed_intro; simpl; [congruence|done|done|].
  intros i Hi. apply Hlive; [done|]. by apply well_formed_live.
Qed.

Lemma keeps_live_move_assign_within n buf i d buf' :
  move_assign_within buf i d = Some buf' → keeps_live n buf buf'.
Proof.
  unfold move_assign_within.
  destruct (buf !! i) as [[|x]|]; [by intros [= <-]| |by intros [= <-]].
  destruct (move_assign_throws x); [done|]. intros [= <-].
  eapply keeps_live_trans; apply keeps_live_insert.
Qed.

Lemma keeps_live_move_range n buf first k d :
  keeps_live n buf (reached (move_range buf first k d)).
Proof.
  revert buf first d. induction k as [|k IH]; intros buf first d; simpl;
    [apply keeps_live_refl|].
  destruct (move_assign_within buf first d) as [buf1|] eqn:Hstep;
    [|apply keeps_live_refl].
  eapply keeps_live_trans; [by eapply keeps_live_move_assign_within|apply IH].
Qed.

Lemma keeps_live_move_backward n buf first k d_last :
  keeps_live n buf (reached (move_backward buf first k d_last)).
Proof.
  revert buf d_last. induction k as [|k IH]; intros buf d_last; simpl;
    [apply keeps_live_refl|].
  destruct (move_assign_within buf (first + k) (d_last - 1)) as [buf1|] eqn:Hstep;
    [|apply keeps_live_refl].
  eapply keeps_live_trans; [by eapply keeps_live_move_assign_within|apply IH].
Qed.

Lemma keeps_live_uninitialized_move_1_within n buf i d :
  keeps_live n buf (reached (uninitialized_move_1_within buf i d)).
Proof.
  unfold uninitialized_move_1_within.
  destruct (buf !! i) as [[|x]|]; [apply keeps_live_refl| |apply keeps_live_refl].
  destruct (move_throws x); [apply keeps_live_refl|]. simpl.
  eapply keeps_live_trans; apply keeps_live_insert.
Qed.

Lemma keeps_live_copy_assign_loop n dst src first k :
  keeps_live n dst (reached (copy_assign_loop dst src first k)).
Proof.
  revert dst first. induction k as [|k IH]; intros dst first; simpl;
    [apply keeps_live_refl|].
  destruct (src !! first) as [[|x]|]; [apply IH| |apply IH].
  unfold copy_assign_at. destruct (copy_assign_throws x); [apply keeps_live_refl|].
  eapply keeps_live_trans; [apply keeps_live_insert|apply IH].
Qed.

Lemma keeps_live_uninitialized_copy_from n src first k dst d0 d :
  (n ≤ d0)%nat →
  keeps_live n dst (reached (uninitialized_copy_from src first k dst d0 d)).
Proof.
  intros Hn. revert first dst d. induction k as [|k IH]; intros first dst d; simpl;
    [apply keeps_live_refl|].
  destruct (src !! first) as [[|x]|]; [apply IH| |apply IH].
  destruct (copy_throws x); [by apply keeps_live_destroy_n|].
  eapply keeps_live_trans; [apply keeps_live_insert|apply IH].
Qed.

Lemma keeps_live_uninitialized_value_construct_from n buf d0 first k :
  (n ≤ d0)%nat →
  keeps_live n buf (reached (uninitialized_value_construct_from buf d0 first k)).
Proof.
  intros Hn. revert buf first. induction k as [|k IH]; intros buf first; simpl;
    [apply keeps_live_refl|].
  destruct value_init as [x|]; [|by apply keeps_live_destroy_n].
  eapply keeps_live_trans; [apply keeps_live_insert|apply IH].
Qed.

(** The source of a relocation keeps its objects alive: copied from, or
    left moved-from. *)
Lemma keeps_live_relocate_n n by_move src first k dst d :
  keeps_live n src (reached (relocate_n by_move src first k dst d)).1.
Proof.
  unfold relocate_n, uninitialized_move_n, uninitialized_copy_n.
  destruct by_move.
  - generalize d at 1. intros d0. revert src first dst d.
    induction k as [|k IH]; intros src first dst d; simpl; [apply keeps_live_refl|].
    destruct (src !! first) as [[|x]|]; [apply IH| |apply IH].
    destruct (move_throws x); [apply keeps_live_refl|].
    eapply keeps_live_trans; [apply keeps_live_insert|apply IH].
  - destruct (uninitialized_copy_from src first k dst d d); apply keeps_live_refl.
Qed.

(** After a relocation that threw, the vector with its old block. *)
Lemma well_formed_after_threw by_move (v : Vector T) first k dst d old nb :
  well_formed v →
  relocate_n by_move (buffer_ (data_ v)) first k dst d = Threw (old, nb) →
  well_formed (with_buffer v old).
Proof.
  intros Hwf Hrun. apply well_formed_keeps; [done|].
  pose proof (keeps_live_relocate_n (N.to_nat (size_ v)) by_move
                (buffer_ (data_ v)) first k dst d) as Hkeeps.
  by rewrite Hrun in Hkeeps.
Qed.

End KeepsLiveLemmas.

Section BasicGuaranteeLemmas.
Context {T : Type} `{E : Element T}.

Lemma appended_well_formed (v : Vector T) (nb : list (slot T)) (capacity : N)
    (x : T) :
  well_formed v →
  length nb = N.to_nat capacity → capacity * sizeof_T < SizeT.modulus →
  size_ v < capacity →
  nb !! N.to_nat (size_ v) = Some (Live x) →
  (∀ i : N, i < size_ v →
     nb !! N.to_nat i = buffer_ (data_ v) !! N.to_nat i) →
  well_formed (MkVector (MkRawMemory nb capacity) (SizeT.add (size_ v) 1)).
Proof. intros. by eapply proj1, appended. Qed.

Lemma PopBack_well_formed (v : Vector T) :
  well_formed v → well_formed (PopBack v).
Proof.
  intros Hwf. pose proof Hwf as (Hlen & Hcap & Hle & _ & Hbytes). unfold PopBack.
  destruct (N.eqb_spec (size_ v) 0) as [_|Hne]; [done|].
  pose proof SizeT_modulus_gt_1.
  apply well_formed_intro; simpl; rewrite ?SizeT_sub_small by lia.
  - unfold destroy_at. by rewrite length_insert.
  - done.
  - lia.
  - intros i Hi. unfold destroy_at. rewrite list_lookup_insert_ne by lia.
    apply well_formed_live; [done|lia].
Qed.

Lemma Reserve_well_formed (n : N) (v : Vector T) :
  well_formed v → n * sizeof_T < SizeT.modulus →
  well_formed (self_of (Reserve n v)).
Proof.
  intros Hwf Hn. pose proof Hwf as (Hlen & Hcap & Hle & _ & Hbytes).
  destruct (Reserve n v) as [[] v' lost|v' lost] eqn:Hrun; simpl.
  - apply Reserve_returned in Hrun as (Hsize & Hcap' & Hlen' & Hsame); [|done..].
    unfold Capacity in *.
    destruct (same_elements v v') as [Hwf' _]; [done|done| |done|lia|done|done].
    rewrite Hcap'.
    by destruct (N.max_spec (capacity_ (data_ v)) n) as [[_ ->]|[_ ->]].
  - unfold Reserve in Hrun. destruct (Capacity v <? n); [|done].
    destruct (RawMemory_sized n) as [new_data|]; [|by injection Hrun as <- _].
    destruct (relocate_n _ _ _ _ _ _) as [[old nb]|[old nb]] eqn:Hreloc;
      [by destruct (adopt _ _ _ _)|].
    injection Hrun as <- _. by eapply well_formed_after_threw.
Qed.

Lemma Resize_well_formed (n : N) (v : Vector T) :
  well_formed v → n * sizeof_T < SizeT.modulus →
  well_formed (self_of (Resize n v)).
Proof.
  intros Hwf Hn. pose proof Hwf as (Hlen & Hcap & Hle & _ & Hbytes).
  pose proof (slots_below_bytes n) as Hslots. unfold Resize.
  destruct (N.ltb_spec n (size_ v)) as [Hlt|Hge]; simpl.
  - apply well_formed_intro; simpl.
    + by rewrite destroy_n_length.
    + done.
    + lia.
    + intros i Hi. rewrite destroy_n_lookup_out by lia.
      apply well_formed_live; [done|lia].
  - destruct (N.ltb_spec (size_ v) n) as [Hgt|_]; [|done].
    pose proof (Reserve_well_formed n v Hwf Hn) as Hwf1.
    destruct (Reserve n v) as [[] v1 lost1|v1 lost1] eqn:Hrun; [|done].
    simpl in Hwf1. pose proof Hwf1 as (Hlen1 & Hcap1 & Hle1 & _ & Hbytes1).
    apply Reserve_returned in Hrun as (Hsize & Hcapv1 & _ & _); [|done..].
    unfold Capacity in Hcapv1. unfold uninitialized_value_construct_n.
    pose proof (keeps_live_uninitialized_value_construct_from
                  (N.to_nat (size_ v1)) (buffer_ (data_ v1)) (N.to_nat (size_ v1))
                  (N.to_nat (size_ v1))
                  (N.to_nat (SizeT.sub n (size_ v1))) (Nat.le_refl _)) as Hkeeps.
    destruct (uninitialized_value_construct_from _ _ _ _) as [buf|buf] eqn:Hbuild;
      simpl in *.
    + destruct value_init as [x|] eqn:Hinit.
      * destruct (uninitialized_value_construct_from_done x (buffer_ (data_ v1))
                    (N.to_nat (size_ v1)) (N.to_nat (size_ v1))
                    (N.to_nat (SizeT.sub n (size_ v1))) Hinit)
          as (buf' & Hbuild' & Hlen' & Hout & Hin).
        assert (buf' = buf) as -> by congruence.
        rewrite SizeT_sub_small in Hin by lia.
        apply well_formed_intro; simpl; [congruence|done|lia|].
        intros i Hi. destruct (decide (i < N.to_nat (size_ v1))%nat) as [Hlow|Hhigh].
        -- apply Hkeeps; [done|]. by apply well_formed_live.
        -- exists x. apply Hin; lia.
      * destruct (uninitialized_value_construct_from_threw (buffer_ (data_ v1))
                    (N.to_nat (size_ v1)) (N.to_nat (size_ v1))
                    (N.to_nat (SizeT.sub n (size_ v1))) Hinit) as [buf' Hthrew];
          [rewrite SizeT_sub_small by lia; lia|congruence].
    + by apply well_formed_keeps.
Qed.

Lemma PushBack_copy_well_formed (x : T) (v : Vector T) :
  well_formed v → fits v → well_formed (self_of (PushBack_copy x v)).
Proof.
  intros Hwf Hfits. pose proof Hwf as (Hlen & Hcap & Hle & _ & Hbytes).
  pose proof SizeT_modulus_gt_1 as Hmod. unfold PushBack_copy.
  destruct (N.eqb_spec (size_ v) (Capacity v)) as [Heq|Hne].
  - pose proof (doubled_capacity_bytes v Hwf Hfits Heq) as Hgrown.
    destruct (doubled_capacity v Heq Hfits) as [-> _].
    destruct (RawMemory_sized _) as [new_data|] eqn:Hnew; [|done].
    apply RawMemory_sized_exact in Hnew as (Hc & _ & Hbuf); [|done].
    unfold copy_assign_at. destruct (copy_assign_throws x); [done|].
    rewrite Hbuf, Hc.
    destruct (relocate_n _ _ _ _ _ _) as [[old nb]|[old nb]] eqn:Hrun;
      [|by eapply well_formed_after_threw].
    unfold Capacity in *.
    apply relocated_block in Hrun as (Hlen' & Hnew & Hsame & _); [|done|lia].
    unfold adopt. simpl.
    apply (appended_well_formed _ _ _ x); [done|done|done|lia|done|done].
  - unfold copy_assign_at. destruct (copy_assign_throws x); [done|]. simpl.
    unfold Capacity in Hne.
    apply (appended_well_formed _ _ _ x); [done|by rewrite length_insert|done|lia| |].
    + apply list_lookup_insert_eq. lia.
    + intros i Hi. apply list_lookup_insert_ne. lia.
Qed.

Lemma PushBack_forward_well_formed copy_constructible_U made (v : Vector T) :
  well_formed v → fits v →
  well_formed (self_of (PushBack_forward copy_constructible_U made v)).
Proof.
  intros Hwf Hfits. pose proof Hwf as (Hlen & Hcap & Hle & _ & Hbytes).
  pose proof SizeT_modulus_gt_1 as Hmod. unfold PushBack_forward.
  destruct (N.ltb_spec (size_ v) (Capacity v)) as [Hlt|Hge].
  - destruct made as [x|]; [|done]. simpl. unfold construct_at, Capacity in *.
    apply (appended_well_formed _ _ _ x); [done|by rewrite length_insert|done|lia| |].
    + apply list_lookup_insert_eq. lia.
    + intros i Hi. apply list_lookup_insert_ne. lia.
  - pose proof (forward_capacity_bytes v Hwf Hfits) as Hgrown.
    rewrite (forward_capacity v Hle Hfits).
    destruct (RawMemory_sized _) as [new_data|] eqn:Hnew; [|done].
    apply RawMemory_sized_exact in Hnew as (Hc & _ & Hbuf); [|done].
    destruct made as [x|]; [|done].
    rewrite Hbuf, Hc. unfold construct_at.
    destruct (relocate_n _ _ _ _ _ _) as [[old nb]|[old nb]] eqn:Hrun;
      [|by eapply well_formed_after_threw].
    unfold Capacity in *.
    apply relocated_block in Hrun as (Hlen' & Hnew & Hsame & _); [|done|lia].
    unfold adopt. simpl.
    apply (appended_well_formed _ _ _ x); [done|done|done|lia|done|done].
Qed.

Lemma EmplaceBack_well_formed made (v : Vector T) :
  well_formed v → fits v → well_formed (self_of (EmplaceBack made v)).
Proof.
  intros Hwf Hfits. pose proof Hwf as (Hlen & Hcap & Hle & _ & Hbytes).
  pose proof SizeT_modulus_gt_1 as Hmod. unfold EmplaceBack.
  destruct (N.eqb_spec (size_ v) (Capacity v)) as [Heq|Hne].
  - pose proof (doubled_capacity_bytes v Hwf Hfits Heq) as Hgrown.
    destruct (doubled_capacity v Heq Hfits) as [-> _].
    destruct (RawMemory_sized _) as [new_data|] eqn:Hnew; [|done].
    apply RawMemory_sized_exact in Hnew as (Hc & _ & Hbuf); [|done].
    destruct made as [x|]; [|done].
    rewrite Hbuf, Hc. unfold construct_at.
    destruct (relocate_n _ _ _ _ _ _) as [[old nb]|[old nb]] eqn:Hrun;
      [|by eapply well_formed_after_threw].
    unfold Capacity in *.
    apply relocated_block in Hrun as (Hlen' & Hnew & Hsame & _); [|done|lia].
    unfold adopt. simpl.
    apply (appended_well_formed _ _ _ x); [done|done|done|lia|done|done].
  - destruct made as [x|]; [|done]. simpl. unfold construct_at, Capacity in *.
    apply (appended_well_formed _ _ _ x); [done|by rewrite length_insert|done|lia| |].
    + apply list_lookup_insert_eq. lia.
    + intros i Hi. apply list_lookup_insert_ne. lia.
Qed.

Lemma Erase_well_formed (pos : N) (v : Vector T) :
  well_formed v → pos < size_ v → well_formed (self_of (Erase pos v)).
Proof.
  intros Hwf Hpos.
  destruct (Erase pos v) as [r v' lost|v' lost] eqn:Hrun; simpl.
  - by apply Erase_returned in Hrun as (_ & Hwf' & _).
  - unfold Erase in Hrun.
    pose proof (keeps_live_move_range (N.to_nat (size_ v)) (buffer_ (data_ v))
                  (N.to_nat pos + 1) (N.to_nat (size_ v) - (N.to_nat pos + 1))
                  (N.to_nat pos)) as Hkeeps.
    destruct (move_range _ _ _ _) as [buf|buf]; [done|].
    injection Hrun as <- _. by apply well_formed_keeps.
Qed.

Lemma Emplace_well_formed (pos : N) made (v : Vector T) :
  well_formed v → fits v → pos ≤ size_ v →
  well_formed (self_of (Emplace pos made v)).
Proof.
  intros Hwf Hfits Hpos.
  destruct (Emplace pos made v) as [r v' lost|v' lost] eqn:Hrun; simpl.
  - destruct made as [x|].
    + by apply Emplace_returned in Hrun as (_ & Hwf' & _).
    + unfold Emplace in Hrun. destruct (size_ v <? Capacity v).
      * by destruct (negb (pos =? size_ v)).
      * by destruct (RawMemory_sized _).
  - unfold Emplace in Hrun. destruct (size_ v <? Capacity v).
    + destruct (negb (pos =? size_ v)).
      * destruct made as [x|]; [|by injection Hrun as <- _].
        pose proof (keeps_live_uninitialized_move_1_within (N.to_nat (size_ v))
                      (buffer_ (data_ v)) (N.to_nat (SizeT.sub (size_ v) 1))
                      (N.to_nat (size_ v))) as Hkeeps1.
        destruct (uninitialized_move_1_within _ _ _) as [buf1|buf1];
          [|injection Hrun as <- _; by apply well_formed_keeps].
        pose proof (keeps_live_move_backward (N.to_nat (size_ v)) buf1
                      (N.to_nat pos)
                      (N.to_nat (SizeT.sub (size_ v) 1) - N.to_nat pos)
                      (N.to_nat (size_ v))) as Hkeeps2.
        assert (∀ buf2, keeps_live (N.to_nat (size_ v)) buf1 buf2 →
                  well_formed (with_buffer v buf2)) as Hboth.
        { intros buf2 Hk. apply well_formed_keeps; [done|].
          by eapply keeps_live_trans. }
        destruct (move_backward _ _ _ _) as [buf2|buf2];
          [|injection Hrun as <- _; by apply Hboth].
        destruct (move_assign_at _ _ _); [done|].
        injection Hrun as <- _. by apply Hboth.
      * destruct made; [done|by injection Hrun as <- _].
    + destruct (RawMemory_sized _) as [new_data|]; [|by injection Hrun as <- _].
      destruct made as [x|]; [|by injection Hrun as <- _].
      pose proof (keeps_live_relocate_n (N.to_nat (size_ v)) relocate_by_move
                    (buffer_ (data_ v)) 0 (N.to_nat pos)
                    (construct_at (buffer_ new_data) (N.to_nat pos) x) 0)
        as Hkeeps1.
      destruct (relocate_n _ _ _ _ _ _) as [[old1 nb1]|[old1 nb1]];
        [|injection Hrun as <- _; by apply well_formed_keeps].
      pose proof (keeps_live_relocate_n (N.to_nat (size_ v)) relocate_by_move
                    old1 (N.to_nat pos) (N.to_nat (SizeT.sub (size_ v) pos))
                    nb1 (N.to_nat pos + 1)) as Hkeeps2.
      destruct (relocate_n _ old1 _ _ _ _) as [[old nb]|[old nb]];
        [by destruct (adopt _ _ _ _)|].
      injection Hrun as <- _. apply well_formed_keeps; [done|].
      by eapply keeps_live_trans.
Qed.

Lemma Vector_copy_well_formed (r c : Vector T) :
  well_formed r → Vector_copy r = Some c → well_formed c.
Proof.
  intros Hwf Hcopy. pose proof Hwf as (Hlen & Hcap & Hle & _ & Hbytes).
  pose proof (Vector_copy_returned r c Hwf Hcopy) as (Hsize & Hcapc & Hsame).
  unfold Vector_copy in Hcopy.
  pose proof (well_formed_size_bytes r Hwf) as Hsized.
  destruct (RawMemory_sized (size_ r)) as [data|] eqn:Hnew; [|done].
  apply RawMemory_sized_exact in Hnew as (Hc & _ & Hbuf); [|done].
  rewrite Hbuf, Hc in Hcopy. unfold uninitialized_copy_n in Hcopy.
  destruct (uninitialized_copy_from _ _ _ _ _ _) as [buf|buf] eqn:Hrun; [|done].
  apply uninitialized_copy_from_done in Hrun as (Hlen' & _ & _).
  rewrite length_replicate in Hlen'. injection Hcopy as <-.
  unfold at_index in Hsame. simpl in *.
  apply well_formed_intro; simpl; [done|done|lia|].
  intros i Hi. rewrite <- (Nat2N.id i), Hsame by lia.
  apply well_formed_live; [done|lia].
Qed.

Lemma copy_assign_well_formed (l r : Vector T) :
  well_formed l → well_formed r → well_formed (self_of (copy_assign l r)).
Proof.
  intros Hl Hr.
  pose proof Hl as (Hlenl & Hcapl & Hlel & _ & Hbytesl).
  pose proof Hr as (Hlenr & Hcapr & Hler & _).
  destruct (N.lt_ge_cases (Capacity l) (size_ r)) as [Hlt|Hge].
  - destruct (copy_assign_reallocating l r Hl Hr Hlt)
      as [[_ ->]|(c & Hcopy & ->)]; simpl; [done|].
    by eapply Vector_copy_well_formed.
  - destruct (copy_assign_in_place l r Hl Hr Hge) as (Hcap & _ & Hdone).
    unfold copy_assign, Size in *.
    destruct (N.ltb_spec (Capacity l) (size_ r)) as [?|_]; [lia|].
    unfold Capacity in *.
    assert (∀ buf n, length buf = length (buffer_ (data_ l)) →
              n ≤ capacity_ (data_ l) →
              (∀ i : N, i < n → buf !! N.to_nat i = buffer_ (data_ r) !! N.to_nat i) →
              n ≤ size_ r →
              well_formed (MkVector (data_ (with_buffer l buf)) n)) as Hnew.
    { intros buf n Hlen Hn Hsame Hnr.
      apply well_formed_intro; simpl; [congruence|done|done|].
      intros i Hi. rewrite <- (Nat2N.id i), Hsame by lia.
      apply well_formed_live; [done|lia]. }
    destruct (N.leb_spec (size_ l) (size_ r)) as [Hsmall|Hlarge].
    + pose proof (keeps_live_copy_assign_loop (N.to_nat (size_ l))
                    (buffer_ (data_ l)) (buffer_ (data_ r)) 0
                    (N.to_nat (size_ l))) as Hkeeps1.
      destruct (copy_assign_loop _ _ _ _) as [buf1|buf1]; simpl in *;
        [|by apply well_formed_keeps].
      pose proof (keeps_live_uninitialized_copy_from (N.to_nat (size_ l))
                    (buffer_ (data_ r)) (N.to_nat (size_ l))
                    (N.to_nat (SizeT.sub (size_ r) (size_ l))) buf1
                    (N.to_nat (size_ l)) (N.to_nat (size_ l)) (Nat.le_refl _))
        as Hkeeps2.
      unfold uninitialized_copy_n in *.
      destruct (uninitialized_copy_from _ _ _ _ _ _) as [buf2|buf2]; simpl in *.
      * destruct (Hdone eq_refl) as (_ & Hsame & _).
        apply Hnew; [|lia|done|lia].
        destruct Hkeeps1 as [Hlen1 _], Hkeeps2 as [Hlen2 _]. congruence.
      * apply well_formed_keeps; [done|]. by eapply keeps_live_trans.
    + pose proof (keeps_live_copy_assign_loop (N.to_nat (size_ l))
                    (buffer_ (data_ l)) (buffer_ (data_ r)) 0
                    (N.to_nat (size_ r))) as Hkeeps1.
      destruct (copy_assign_loop _ _ _ _) as [buf1|buf1]; simpl in *;
        [|by apply well_formed_keeps].
      destruct (Hdone eq_refl) as (_ & Hsame & _).
      apply Hnew; [|lia|done|lia].
      destruct Hkeeps1 as [Hlen1 _]. by rewrite destroy_n_length.
Qed.

End BasicGuaranteeLemmas.

(** X12.  Whatever a call does to a well-formed vector, it leaves it
    well-formed, whether the call returns or an exception leaves it:
    [size_] within the capacity, the block of that capacity, live objects
    in the first [size_] slots.  [Reserve(n)] and [Resize(n)] need
    [n * sizeof(T)] counted by a [size_t] without a wrap, and the growing
    calls a doubled capacity that fits.  [PopBack] and an [Erase] that
    returns call a destructor on slot [size_]: for them the destructor is
    trivial; [PushBack(const T&)] assigns to a slot no constructor has run
    on: for it the element type is trivially copyable. *)
Theorem every_call_leaves_a_well_formed_vector :
  ∀ (T : Type) (E : Element T) (v : Vector T),
    well_formed v →
    (is_trivially_destructible = true → well_formed (PopBack v)) ∧
    (∀ n, n * sizeof_T < SizeT.modulus →
       well_formed (self_of (Reserve n v))) ∧
    (∀ n, n * sizeof_T < SizeT.modulus →
       well_formed (self_of (Resize n v))) ∧
    (∀ pos, pos < size_ v →
       is_trivially_destructible = true ∨ has_returned (Erase pos v) = false →
       well_formed (self_of (Erase pos v))) ∧
    (∀ rhs, well_formed rhs → well_formed (self_of (copy_assign v rhs))) ∧
    (fits v →
       (is_trivially_copyable = true →
          ∀ x, well_formed (self_of (PushBack_copy x v))) ∧
       (∀ copy_constructible_U made,
          well_formed (self_of (PushBack_forward copy_constructible_U made v))) ∧
       (∀ made, well_formed (self_of (EmplaceBack made v))) ∧
       (∀ pos made, pos ≤ size_ v →
          well_formed (self_of (Emplace pos made v)))).
Proof.
  intros T E v Hwf. split_and!.
  - intros _. by apply PopBack_well_formed.
  - intros n Hn. by apply Reserve_well_formed.
  - intros n Hn. by apply Resize_well_formed.
  - intros pos Hpos _. by apply Erase_well_formed.
  - intros rhs Hrhs. by apply copy_assign_well_formed.
  - intros Hfits. split_and!.
    + intros _ x. by apply PushBack_copy_well_formed.
    + intros ccu made. by apply PushBack_forward_well_formed.
    + intros made. by apply EmplaceBack_well_formed.
    + intros pos made Hpos. by apply Emplace_well_formed.
Qed.

Lemma every_call_leaves_a_well_formed_vector_witness :
  let v := MkVector (MkRawMemory [Live 1%Z; Live (-1)%Z; Raw] 3) 2 in
  well_formed (E := brittle_element) v ∧
  has_returned (Resize (E := brittle_element) 5 v) = false ∧
  well_formed (E := brittle_element) (self_of (Resize (E := brittle_element) 5 v)) ∧
  has_returned (Erase (E := brittle_element) 0 v) = false ∧
  well_formed (E := brittle_element) (self_of (Erase (E := brittle_element) 0 v)).
Proof.
  intros v.
  assert (well_formed (E := brittle_element) v) as Hwf
    by (split_and!; [reflexivity|reflexivity|vm_compute; discriminate|reflexivity|reflexivity]).
  destruct (every_call_leaves_a_well_formed_vector Z brittle_element v Hwf)
    as (_ & _ & Hresize & Herase & _).
  split_and!; [exact Hwf|reflexivity|apply Hresize; reflexivity
              |reflexivity|apply Herase; [reflexivity|right; reflexivity]].
Defined.

Section InvariantLemmas.
Context {T : Type} `{E : Element T}.

Lemma invariant_intro (v : Vector T) :
  well_formed v →
  (∀ i : N, size_ v ≤ i < capacity_ (data_ v) →
     buffer_ (data_ v) !! N.to_nat i = Some Raw) →
  invariant v.
Proof.
  intros Hwf Hraw. pose proof Hwf as (_ & _ & Hle & _).
  split_and!; [done| |done].
  intros i Hi. apply well_formed_live; [done|lia].
Qed.

(** The old block of a vector that met the invariant, once its elements
    have been relocated and destroyed, holds no object. *)
Lemma adopt_loses_nothing by_move (v : Vector T) dst old nb capacity :
  well_formed v → invariant v →
  relocate_n by_move (buffer_ (data_ v)) 0 (N.to_nat (size_ v)) dst 0
    = Done (old, nb) →
  adopt old v nb capacity = (MkRawMemory nb capacity, []).
Proof.
  intros Hwf (_ & _ & Hraw) Hrun. pose proof Hwf as (Hlen & _ & Hle & _).
  apply relocate_n_source in Hrun as [Hlen' Hout].
  unfold adopt, RawMemory_Swap. simpl. f_equal.
  apply Deallocate_nil. intros i x Hx.
  assert (i < length old)%nat as Hi
    by (apply lookup_lt_Some in Hx; by rewrite destroy_n_length in Hx).
  destruct (decide (i < N.to_nat (size_ v))%nat) as [Hlow|Hhigh].
  - by rewrite destroy_n_lookup_in in Hx by lia.
  - rewrite destroy_n_lookup_out, Hout in Hx by lia.
    rewrite <- (Nat2N.id i), Hraw in Hx by lia. done.
Qed.

End InvariantLemmas.

(** X13.  On a well-formed vector that meets the invariant (no object
    from [size_] on), the destructor loses no object, and whenever
    [Reserve(n)] (with [n * sizeof(T)] counted by a [size_t] without a
    wrap), [PushBack(U&&)] or [EmplaceBack] returns, the vector meets the
    invariant again and no object was lost; so for [PushBack(const T&)]
    when the element type is trivially copyable. *)
Theorem growth_keeps_the_invariant :
  ∀ (T : Type) (E : Element T) (v : Vector T),
    well_formed v → invariant v → fits v →
    Vector_destroy v = [] ∧
    (∀ n v' lost, n * sizeof_T < SizeT.modulus →
       Reserve n v = Returned tt v' lost →
       invariant v' ∧ lost = []) ∧
    (is_trivially_copyable = true →
       ∀ x v' lost, PushBack_copy x v = Returned tt v' lost →
         invariant v' ∧ lost = []) ∧
    (∀ copy_constructible_U made v' lost,
       PushBack_forward copy_constructible_U made v = Returned tt v' lost →
       invariant v' ∧ lost = []) ∧
    (∀ made index v' lost, EmplaceBack made v = Returned index v' lost →
       invariant v' ∧ lost = []).
Proof.
  intros T E v Hwf Hinv Hfits.
  pose proof Hwf as (Hlen & Hcap & Hle & _ & Hbytes).
  pose proof Hinv as (_ & _ & Hraw).
  pose proof SizeT_modulus_gt_1 as Hmod.
  pose proof (fits_add_1 v Hwf Hfits) as Hadd.
  assert (∀ x, invariant
                 (MkVector
                    (data_ (with_buffer v
                              (<[N.to_nat (size_ v) := Live x]> (buffer_ (data_ v)))))
                    (SizeT.add (size_ v) 1)) ∨ size_ v = capacity_ (data_ v))
    as Hplace.
  { intros x. destruct (decide (size_ v = capacity_ (data_ v))) as [|Hne];
      [by right|left].
    apply invariant_intro.
    - simpl. apply (appended_well_formed _ _ _ x);
        [done|by rewrite length_insert|done|lia| |].
      + apply list_lookup_insert_eq. lia.
      + intros i Hi. apply list_lookup_insert_ne. lia.
    - simpl. rewrite SizeT_add_small by done. intros i Hi.
      rewrite list_lookup_insert_ne by lia. apply Hraw. lia. }
  assert (∀ by_move x c old nb,
            size_ v < c → c * sizeof_T < SizeT.modulus →
            relocate_n by_move (buffer_ (data_ v)) 0 (N.to_nat (size_ v))
              (<[N.to_nat (size_ v) := Live x]> (replicate (N.to_nat c) Raw)) 0
              = Done (old, nb) →
            invariant (MkVector (MkRawMemory nb c) (SizeT.add (size_ v) 1)) ∧
            adopt old v nb c = (MkRawMemory nb c, [])) as Hgrow.
  { intros by_move x c old nb Hc Hcmod Hrun.
    split; [|by eapply adopt_loses_nothing].
    apply relocated_block in Hrun as (Hlen' & Hnew & Hsame & Hrest); [|done..].
    apply invariant_intro.
    - by apply (appended_well_formed _ _ _ x).
    - simpl. rewrite SizeT_add_small by done. intros i Hi. apply Hrest; lia. }
  pose proof (forward_capacity_bytes v Hwf Hfits) as Hgrown.
  pose proof (doubled_capacity_bytes v Hwf Hfits) as Hdoubled.
  unfold Capacity in *. split_and!.
  - unfold Vector_destroy. apply Deallocate_nil. intros i x Hx.
    assert (i < length (buffer_ (data_ v)))%nat as Hi
      by (apply lookup_lt_Some in Hx; by rewrite destroy_n_length in Hx).
    destruct (decide (i < N.to_nat (size_ v))%nat) as [Hlow|Hhigh].
    + by rewrite destroy_n_lookup_in in Hx by lia.
    + rewrite destroy_n_lookup_out in Hx by lia.
      rewrite <- (Nat2N.id i), Hraw in Hx by lia. done.
  - intros n v' lost Hn. unfold Reserve, Capacity.
    destruct (N.ltb_spec (capacity_ (data_ v)) n) as [Hlt|Hge];
      [|by intros [= <- <-]].
    destruct (RawMemory_sized n) as [new_data|] eqn:Hnew; [|done].
    apply RawMemory_sized_exact in Hnew as (Hc & _ & Hbuf); [|done].
    rewrite Hbuf, Hc.
    destruct (relocate_n _ _ _ _ _ _) as [[old nb]|[old nb]] eqn:Hrun; [|done].
    rewrite (adopt_loses_nothing _ _ _ _ _ _ Hwf Hinv Hrun).
    intros [= <- <-]. split; [|done].
    apply relocated_prefix in Hrun as (Hlen' & Hout & Hsame);
      [|done|rewrite length_replicate; lia].
    rewrite length_replicate in Hlen'.
    apply invariant_intro.
    + apply well_formed_intro; simpl; [done|done|lia|].
      intros i Hi. rewrite Hsame by done. by apply well_formed_live.
    + simpl. intros i Hi. rewrite Hout by lia. apply lookup_replicate_2. lia.
  - intros _ x v' lost. unfold PushBack_copy, copy_assign_at.
    destruct (copy_assign_throws x);
      [by repeat (destruct (RawMemory_sized _) || destruct (_ =? _))|].
    destruct (N.eqb_spec (size_ v) (Capacity v)) as [Heq|Hne].
    + destruct (doubled_capacity v Heq Hfits) as [-> _].
      destruct (RawMemory_sized _) as [new_data|] eqn:Hnew; [|done].
      apply RawMemory_sized_exact in Hnew as (Hc & _ & Hbuf);
        [|by apply Hdoubled].
      rewrite Hbuf, Hc.
      destruct (relocate_n _ _ _ _ _ _) as [[old nb]|[old nb]] eqn:Hrun; [|done].
      unfold Capacity in *.
      apply Hgrow in Hrun as [Hinv' ->]; [|lia|by apply Hdoubled].
      by intros [= <- <-].
    + intros [= <- <-]. split; [|done].
      by destruct (Hplace x).
  - intros ccu made v' lost. unfold PushBack_forward.
    destruct (N.ltb_spec (size_ v) (Capacity v)) as [Hlt|Hge].
    + destruct made as [x|]; [|done]. intros [= <- <-]. split; [|done].
      unfold construct_at, Capacity in *. destruct (Hplace x); [done|lia].
    + rewrite (forward_capacity v Hle Hfits).
      destruct (RawMemory_sized _) as [new_data|] eqn:Hnew; [|done].
      apply RawMemory_sized_exact in Hnew as (Hc & _ & Hbuf); [|done].
      destruct made as [x|]; [|done]. rewrite Hbuf, Hc. unfold construct_at.
      destruct (relocate_n _ _ _ _ _ _) as [[old nb]|[old nb]] eqn:Hrun; [|done].
      unfold Capacity in *.
      apply Hgrow in Hrun as [Hinv' ->]; [|lia|done].
      by intros [= <- <-].
  - intros made index v' lost. unfold EmplaceBack.
    destruct (N.eqb_spec (size_ v) (Capacity v)) as [Heq|Hne].
    + destruct (doubled_capacity v Heq Hfits) as [-> _].
      destruct (RawMemory_sized _) as [new_data|] eqn:Hnew; [|done].
      apply RawMemory_sized_exact in Hnew as (Hc & _ & Hbuf);
        [|by apply Hdoubled].
      destruct made as [x|]; [|done]. rewrite Hbuf, Hc. unfold construct_at.
      destruct (relocate_n _ _ _ _ _ _) as [[old nb]|[old nb]] eqn:Hrun; [|done].
      unfold Capacity in *.
      apply Hgrow in Hrun as [Hinv' ->]; [|lia|by apply Hdoubled].
      by intros [= _ <- <-].
    + destruct made as [x|]; [|done]. intros [= _ <- <-]. split; [|done].
      unfold construct_at. by destruct (Hplace x).
Qed.

Lemma growth_keeps_the_invariant_witness :
  let v := MkVector (MkRawMemory [Live 1%Z; Live 2%Z] 2) 2 in
  well_formed (E := int_element) v ∧ fits (E := int_element) v ∧
  invariant (self_of (PushBack_copy (E := int_element) 3%Z v)) ∧
  lost_of (PushBack_copy (E := int_element) 3%Z v) = [].
Proof.
  intros v.
  assert (well_formed (E := int_element) v) as Hwf
    by (split_and!; [reflexivity|reflexivity|vm_compute; discriminate|reflexivity|reflexivity]).
  assert (fits (E := int_element) v) as Hfits by (split; reflexivity).
  assert (invariant v) as Hinv.
  { apply (invariant_intro (E := int_element)); [exact Hwf|]. simpl. intros i Hi. lia. }
  destruct (growth_keeps_the_invariant Z int_element v Hwf Hinv Hfits)
    as (_ & _ & Hpush & _).
  split; [exact Hwf|]. split; [exact Hfits|].
  eapply (Hpush eq_refl). reflexivity.
Defined.

Section PushThenPopLemmas.
Context {T : Type} `{E : Element T}.

(** What [PushBack(U&&)] leaves when it returns, on a vector that meets
    the invariant: the invariant again, one element more, the new element
    in the slot after the old ones. *)
Lemma PushBack_forward_returned copy_constructible_U (x : T) (v v1 : Vector T)
    lost :
  well_formed v → invariant v → fits v →
  PushBack_forward copy_constructible_U (Some x) v = Returned tt v1 lost →
  well_formed v1 ∧ invariant v1 ∧ size_ v1 = size_ v + 1 ∧
  at_index v1 (size_ v) = Some (Live x).
Proof.
  intros Hwf Hinv Hfits.
  pose proof Hwf as (Hlen & Hcap & Hle & _ & Hbytes).
  pose proof Hinv as (_ & _ & Hraw).
  pose proof (fits_add_1 v Hwf Hfits) as Hadd.
  pose proof (forward_capacity_bytes v Hwf Hfits) as Hgrown.
  unfold PushBack_forward, at_index.
  destruct (N.ltb_spec (size_ v) (Capacity v)) as [Hlt|Hge].
  - intros [= <- _]. unfold construct_at, Capacity in *. simpl.
    assert (<[N.to_nat (size_ v) := Live x]> (buffer_ (data_ v))
              !! N.to_nat (size_ v) = Some (Live x)) as Hnew
      by (apply list_lookup_insert_eq; lia).
    assert (well_formed
              (MkVector
                 (MkRawMemory (<[N.to_nat (size_ v) := Live x]> (buffer_ (data_ v)))
                    (capacity_ (data_ v)))
                 (SizeT.add (size_ v) 1))) as Hwf1.
    { apply (appended_well_formed _ _ _ x);
        [done|by rewrite length_insert|done|lia|done|].
      intros i Hi. apply list_lookup_insert_ne. lia. }
    split_and!; [done| |by apply SizeT_add_small|done].
    apply invariant_intro; [done|]. simpl.
    rewrite SizeT_add_small by done. intros i Hi.
    rewrite list_lookup_insert_ne by lia. apply Hraw. lia.
  - rewrite (forward_capacity v Hle Hfits).
    destruct (RawMemory_sized _) as [new_data|] eqn:Hnew; [|done].
    apply RawMemory_sized_exact in Hnew as (Hc & _ & Hbuf); [|done].
    rewrite Hbuf, Hc. unfold construct_at.
    destruct (relocate_n _ _ _ _ _ _) as [[old nb]|[old nb]] eqn:Hrun; [|done].
    unfold Capacity in *.
    apply relocated_block in Hrun as (Hlen' & Hnew & Hsame & Hrest); [|done|lia].
    unfold adopt. simpl. intros [= <- _]. simpl.
    assert (well_formed
              (MkVector
                 (MkRawMemory nb (N.max (2 * capacity_ (data_ v)) (size_ v + 1)))
                 (SizeT.add (size_ v) 1))) as Hwf1
      by (apply (appended_well_formed _ _ _ x); [done|done|done|lia|done|done]).
    split_and!; [done| |by apply SizeT_add_small|done].
    apply invariant_intro; [done|]. simpl.
    rewrite SizeT_add_small by done. intros i Hi. apply Hrest; lia.
Qed.

(** On a vector that meets the invariant, slot [size_] holds no object:
    it is raw, or past the block. *)
Lemma no_object_at_size (v : Vector T) :
  well_formed v → invariant v →
  ¬ ∃ y, buffer_ (data_ v) !! N.to_nat (size_ v) = Some (Live y).
Proof.
  intros (Hlen & _ & Hle & _) (_ & _ & Hraw) [y Hy].
  destruct (decide (size_ v < capacity_ (data_ v))) as [Hlt|Hge].
  - rewrite Hraw in Hy by lia. done.
  - rewrite lookup_ge_None_2 in Hy by lia. done.
Qed.

End PushThenPopLemmas.

(** C6.  [PushBack(x)] then [PopBack()] does not take back what was
    pushed.  On a well-formed vector that meets the invariant, whenever
    [PushBack(U&&)] returns, the new element sits at index [size] of the
    old vector and slot [size_] of the new one holds no object; that slot
    is the one [PopBack] calls the destructor on, a call that is not
    defined unless the destructor is trivial, and the element pushed is
    left alive at index [size_] of the vector [PopBack] gives. *)
Theorem PopBack_after_PushBack_destroys_no_object :
  ∀ (T : Type) (E : Element T) (v : Vector T) (x : T)
    copy_constructible_U v1 lost,
    well_formed v → invariant v → fits v →
    PushBack_forward copy_constructible_U (Some x) v = Returned tt v1 lost →
    at_index v1 (size_ v) = Some (Live x) ∧
    (¬ ∃ y, at_index v1 (size_ v1) = Some (Live y)) ∧
    buffer_ (data_ (PopBack v1))
      = destroy_at (buffer_ (data_ v1)) (N.to_nat (size_ v1)) ∧
    (is_trivially_destructible = false →
       ¬ destroy_at_defined (buffer_ (data_ v1)) (N.to_nat (size_ v1))) ∧
    size_ (PopBack v1) = size_ v ∧
    at_index (PopBack v1) (size_ (PopBack v1)) = Some (Live x).
Proof.
  intros T E v x ccu v1 lost Hwf Hinv Hfits Hrun.
  apply PushBack_forward_returned in Hrun as (Hwf1 & Hinv1 & Hsize & Hx);
    [|done..].
  pose proof (fits_add_1 v Hwf Hfits) as Hadd.
  pose proof (no_object_at_size v1 Hwf1 Hinv1) as Hnone.
  assert (PopBack v1
            = MkVector
                (MkRawMemory
                   (destroy_at (buffer_ (data_ v1)) (N.to_nat (size_ v1)))
                   (capacity_ (data_ v1)))
                (size_ v)) as ->.
  { unfold PopBack, with_buffer. rewrite Hsize.
    destruct (N.eqb_spec (size_ v + 1) 0) as [?|_]; [lia|]. simpl.
    f_equal. rewrite SizeT_sub_small by lia. lia. }
  unfold at_index in *. simpl.
  split_and!; [done|done|done| |done|].
  - intros Htrivial [Hdtor|Hlive]; [congruence|done].
  - unfold destroy_at. rewrite list_lookup_insert_ne by lia. done.
Qed.

Lemma PopBack_after_PushBack_destroys_no_object_witness :
  let v := MkVector (MkRawMemory [Live 1%Z] 1) 1 in
  let v1 := MkVector (MkRawMemory [Live 1%Z; Live 7%Z] 2) 2 in
  well_formed (E := brittle_element) v ∧ invariant v ∧
  fits (E := brittle_element) v ∧
  PushBack_forward (E := brittle_element) true (Some 7%Z) v = Returned tt v1 [] ∧
  ¬ destroy_at_defined (E := brittle_element) (buffer_ (data_ v1))
      (N.to_nat (size_ v1)) ∧
  PopBack v1 = MkVector (MkRawMemory [Live 1%Z; Live 7%Z] 2) 1.
Proof.
  intros v v1.
  assert (well_formed (E := brittle_element) v) as Hwf
    by (split_and!; [reflexivity|reflexivity|vm_compute; discriminate|reflexivity|reflexivity]).
  assert (fits (E := brittle_element) v) as Hfits by (split; reflexivity).
  assert (invariant v) as Hinv.
  { apply (invariant_intro (E := brittle_element)); [exact Hwf|].
    simpl. intros i Hi. lia. }
  assert (PushBack_forward (E := brittle_element) true (Some 7%Z) v
            = Returned tt v1 []) as Hrun by reflexivity.
  destruct (PopBack_after_PushBack_destroys_no_object Z brittle_element v 7%Z
              true v1 [] Hwf Hinv Hfits Hrun) as (_ & _ & _ & Hdtor & _).
  split_and!; [exact Hwf|exact Hinv|exact Hfits|exact Hrun
              |exact (Hdtor eq_refl)|reflexivity].
Defined.



(** X14.  With an element type whose destructor is trivial, on a
    well-formed vector [PopBack] keeps the capacity and leaves the vector
    holding its sequence without the last element; on an empty vector it
    changes nothing. *)
Theorem PopBack_drops_the_last_element :
  ∀ (T : Type) (E : Element T) (v : Vector T),
    is_trivially_destructible = true →
    well_formed v →
    Capacity (PopBack v) = Capacity v ∧
    elements (PopBack v) = take (N.to_nat (size_ v) - 1) (elements v) ∧
    (size_ v = 0 → PopBack v = v).
Proof.
  intros T E v _ Hwf. pose proof Hwf as (Hlen & Hcap & Hle & _ & Hbytes).
  pose proof (elements_length v Hwf) as Hxs.
  pose proof SizeT_modulus_gt_1 as Hmod.
  unfold PopBack. destruct (N.eqb_spec (size_ v) 0) as [Hz|Hnz].
  - split_and!; [done| |done].
    rewrite Hz in *. simpl. by destruct (elements v).
  - split_and!; [done| |done].
    apply elements_intro; simpl; rewrite ?SizeT_sub_small by lia.
    + rewrite length_take. lia.
    + intros i x Hx. apply lookup_take_Some in Hx as [Hx Hi].
      apply elements_lookup in Hx as [_ Hx]; [|done].
      unfold destroy_at. by rewrite list_lookup_insert_ne by lia.
Qed.

Lemma PopBack_drops_the_last_element_witness :
  let v := MkVector (MkRawMemory [Live 1%Z; Live 2%Z; Live 3%Z; Raw] 4) 3 in
  well_formed (E := int_element) v ∧ elements (PopBack v) = [1; 2]%Z.
Proof.
  intros v.
  assert (well_formed (E := int_element) v) as Hwf
    by (split_and!; [reflexivity|reflexivity|vm_compute; discriminate|reflexivity|reflexivity]).
  split; [exact Hwf|].
  destruct (PopBack_drops_the_last_element Z int_element v eq_refl Hwf)
    as (_ & Helems & _).
  exact Helems.
Defined.

(** X15.  On a well-formed vector and for [n] with [n * sizeof(T)]
    counted by a [size_t] without a wrap, whenever [Resize(n)] returns,
    the vector is well-formed and holds the first [n] elements of the old
    sequence followed, when [n] exceeds the old size, by value-initialised
    elements up to [n]; the capacity never shrinks, and grows to exactly
    [n] (not doubled) when [n] exceeds it. *)
Theorem Resize_gives_the_sequence :
  ∀ (T : Type) (E : Element T) (v : Vector T) (n : N) v' lost,
    well_formed v → n * sizeof_T < SizeT.modulus →
    Resize n v = Returned tt v' lost →
    well_formed v' ∧ size_ v' = n ∧
    Capacity v' = N.max (Capacity v) n ∧
    ∀ x, (size_ v < n → value_init = Some x) →
      elements v' = take (N.to_nat n) (elements v)
                    ++ replicate (N.to_nat n - N.to_nat (size_ v)) x.
Proof.
  intros T E v n v' lost Hwf Hn Hrun.
  pose proof (Resize_well_formed n v Hwf Hn) as Hwf'.
  rewrite Hrun in Hwf'. simpl in Hwf'. split; [done|].
  pose proof Hwf as (Hlen & Hcap & Hle & _ & Hbytes).
  pose proof (elements_length v Hwf) as Hxs.
  pose proof (slots_below_bytes n) as Hslots.
  unfold Resize, Capacity in *.
  destruct (N.ltb_spec n (size_ v)) as [Hlt|Hge].
  - injection Hrun as <- _. simpl. split; [done|]. split; [lia|].
    intros x _. replace (N.to_nat n - N.to_nat (size_ v))%nat with 0%nat by lia.
    simpl. rewrite app_nil_r. apply elements_intro; simpl.
    + rewrite length_take. lia.
    + intros i y Hy. apply lookup_take_Some in Hy as [Hy Hi].
      apply elements_lookup in Hy as [_ Hy]; [|done].
      by rewrite destroy_n_lookup_out by lia.
  - destruct (N.ltb_spec (size_ v) n) as [Hgt|Heq].
    + destruct (Reserve n v) as [[] v1 lost1|v1 lost1] eqn:Hreserve; [|done].
      apply Reserve_returned in Hreserve as (Hsize & Hcap1 & Hlen1 & Hsame);
        [|done..].
      unfold Capacity, uninitialized_value_construct_n in *. rewrite Hsize in Hrun.
      destruct value_init as [x|] eqn:Hinit.
      * destruct (uninitialized_value_construct_from_done x (buffer_ (data_ v1))
                    (N.to_nat (size_ v)) (N.to_nat (size_ v))
                    (N.to_nat (SizeT.sub n (size_ v))) Hinit)
          as (buf & Hbuild & Hlen2 & Hout & Hin).
        rewrite Hbuild in Hrun. injection Hrun as <- _. simpl.
        rewrite SizeT_sub_small in Hin, Hout by lia.
        split; [done|]. split; [done|]. intros y Hy.
        assert (y = x) as -> by (specialize (Hy Hgt); congruence).
        rewrite take_ge by lia.
        apply elements_intro; simpl.
        -- rewrite length_app, length_replicate. lia.
        -- intros i y Hy'. apply lookup_app_Some in Hy' as [Hy'|[Hi Hy']].
           ++ apply elements_lookup in Hy' as [Hi Hy']; [|done].
              by rewrite Hout, Hsame by lia.
           ++ apply lookup_replicate in Hy' as [-> Hi'].
              apply Hin; lia.
      * destruct (uninitialized_value_construct_from_threw (buffer_ (data_ v1))
                    (N.to_nat (size_ v)) (N.to_nat (size_ v))
                    (N.to_nat (SizeT.sub n (size_ v))) Hinit) as [buf Hthrew];
          [rewrite SizeT_sub_small by lia; lia|].
        by rewrite Hthrew in Hrun.
    + injection Hrun as <- _. split; [lia|]. split; [lia|].
      intros x _. replace (N.to_nat n - N.to_nat (size_ v))%nat with 0%nat by lia.
      simpl. rewrite app_nil_r, take_ge by lia. done.
Qed.

Lemma Resize_gives_the_sequence_witness :
  let v := MkVector (MkRawMemory [Live 1%Z; Live 2%Z; Live 3%Z] 3) 3 in
  well_formed (E := int_element) v ∧
  elements (self_of (Resize (E := int_element) 5 v)) = [1; 2; 3; 0; 0]%Z ∧
  Capacity (self_of (Resize (E := int_element) 5 v)) = 5 ∧
  elements (self_of (Resize (E := int_element) 2 v)) = [1; 2]%Z.
Proof.
  intros v.
  assert (well_formed (E := int_element) v) as Hwf
    by (split_and!; [reflexivity|reflexivity|vm_compute; discriminate|reflexivity|reflexivity]).
  split; [exact Hwf|].
  edestruct (Resize_gives_the_sequence Z int_element v 5)
    as (_ & _ & Hcap5 & Helems5); [exact Hwf|reflexivity|reflexivity|].
  edestruct (Resize_gives_the_sequence Z int_element v 2)
    as (_ & _ & _ & Helems2); [exact Hwf|reflexivity|reflexivity|].
  split; [exact (Helems5 0%Z (λ _, eq_refl))|].
  split; [exact Hcap5|].
  exact (Helems2 0%Z (λ _, eq_refl)).
Defined.

(** X16.  [Emplace] at [end()] does what [PushBack(U&&)] does for a [U]
    as copyable as [T]: the two calls return or throw together and leave
    the same vector.  On a well-formed vector whose doubled capacity fits
    [size_t], so does [EmplaceBack]. *)
Theorem appending_three_ways :
  ∀ (T : Type) (E : Element T) (v : Vector T) (made : option T),
    has_returned (Emplace (size_ v) made v)
      = has_returned (PushBack_forward is_copy_constructible made v) ∧
    self_of (Emplace (size_ v) made v)
      = self_of (PushBack_forward is_copy_constructible made v) ∧
    (well_formed v → fits v →
       has_returned (EmplaceBack made v)
         = has_returned (PushBack_forward is_copy_constructible made v) ∧
       self_of (EmplaceBack made v)
         = self_of (PushBack_forward is_copy_constructible made v)).
Proof.
  intros T E v made.
  assert (has_returned (Emplace (size_ v) made v)
            = has_returned (PushBack_forward is_copy_constructible made v) ∧
          self_of (Emplace (size_ v) made v)
            = self_of (PushBack_forward is_copy_constructible made v)) as [H1 H2].
  { unfold Emplace, PushBack_forward. fold relocate_by_move.
    rewrite N.eqb_refl. simpl. destruct (size_ v <? Capacity v).
    - by destruct made.
    - destruct (RawMemory_sized _) as [new_data|]; [|done].
      destruct made as [x|]; [|done].
      destruct (relocate_n _ _ _ _ _ _) as [[old nb]|[old nb]]; [|done].
      assert (SizeT.sub (size_ v) (size_ v) = 0) as ->.
      { unfold SizeT.sub.
        replace (size_ v + SizeT.modulus - size_ v) with SizeT.modulus by lia.
        apply N.Div0.mod_same. }
      assert (∀ d, relocate_n relocate_by_move old (N.to_nat (size_ v))
                     (N.to_nat 0) nb d = Done (old, nb)) as ->
        by (intros d; unfold relocate_n; by destruct relocate_by_move).
      done. }
  split; [done|]. split; [done|].
  intros Hwf Hfits. pose proof Hwf as (_ & _ & Hle & _).
  unfold EmplaceBack, PushBack_forward. fold relocate_by_move.
  destruct (N.eqb_spec (size_ v) (Capacity v)) as [Heq|Hne].
  - destruct (N.ltb_spec (size_ v) (Capacity v)) as [?|_]; [lia|].
    destruct (doubled_capacity v Heq Hfits) as [-> ->].
    rewrite (forward_capacity v Hle Hfits).
    destruct (RawMemory_sized _) as [new_data|]; [|done].
    destruct made as [x|]; [|done].
    destruct (relocate_n _ _ _ _ _ _) as [[old nb]|[old nb]]; [|done].
    by destruct (adopt _ _ _ _).
  - destruct (N.ltb_spec (size_ v) (Capacity v)) as [_|?];
      [|unfold Capacity in *; lia].
    by destruct made.
Qed.

Lemma appending_three_ways_witness :
  let v := MkVector (MkRawMemory [Live 1%Z; Live 2%Z] 2) 2 in
  well_formed (E := int_element) v ∧ fits (E := int_element) v ∧
  self_of (EmplaceBack (E := int_element) (Some 3%Z) v)
    = self_of (PushBack_forward (E := int_element) true (Some 3%Z) v).
Proof.
  intros v.
  assert (well_formed (E := int_element) v) as Hwf
    by (split_and!; [reflexivity|reflexivity|vm_compute; discriminate|reflexivity|reflexivity]).
  assert (fits (E := int_element) v) as Hfits by (split; reflexivity).
  destruct (appending_three_ways Z int_element v (Some 3%Z)) as (_ & _ & Hsame).
  split; [exact Hwf|]. split; [exact Hfits|].
  exact (proj2 (Hsame Hwf Hfits)).
Defined.

Section InvariantLemmas2.
Context {T : Type} `{E : Element T}.

Lemma Vector_destroy_loses_nothing (v : Vector T) :
  well_formed v → invariant v → Vector_destroy v = [].
Proof.
  intros Hwf (_ & _ & Hraw). pose proof Hwf as (Hlen & _ & Hle & _).
  unfold Vector_destroy. apply Deallocate_nil. intros i x Hx.
  assert (i < length (buffer_ (data_ v)))%nat as Hi
    by (apply lookup_lt_Some in Hx; by rewrite destroy_n_length in Hx).
  destruct (decide (i < N.to_nat (size_ v))%nat) as [Hlow|Hhigh].
  - by rewrite destroy_n_lookup_in in Hx by lia.
  - rewrite destroy_n_lookup_out in Hx by lia.
    rewrite <- (Nat2N.id i), Hraw in Hx by lia. done.
Qed.

(** The old block, once the elements relocated out of it have been
    destroyed, holds no object if it held none from [size_] on. *)
Lemma adopt_nothing_lost (v : Vector T) old nb capacity :
  well_formed v → invariant v →
  length old = length (buffer_ (data_ v)) →
  (∀ i : nat, (N.to_nat (size_ v) ≤ i)%nat → old !! i = buffer_ (data_ v) !! i) →
  adopt old v nb capacity = (MkRawMemory nb capacity, []).
Proof.
  intros Hwf (_ & _ & Hraw) Hlen' Hout. pose proof Hwf as (Hlen & _ & Hle & _).
  unfold adopt, RawMemory_Swap. simpl. f_equal.
  apply Deallocate_nil. intros i x Hx.
  assert (i < length old)%nat as Hi
    by (apply lookup_lt_Some in Hx; by rewrite destroy_n_length in Hx).
  destruct (decide (i < N.to_nat (size_ v))%nat) as [Hlow|Hhigh].
  - by rewrite destroy_n_lookup_in in Hx by lia.
  - rewrite destroy_n_lookup_out, Hout in Hx by lia.
    rewrite <- (Nat2N.id i), Hraw in Hx by lia. done.
Qed.

Lemma Resize_keeps_invariant (n : N) (v v' : Vector T) lost :
  well_formed v → invariant v → n * sizeof_T < SizeT.modulus →
  Resize n v = Returned tt v' lost → invariant v' ∧ lost = [].
Proof.
  intros Hwf Hinv Hn Hrun.
  pose proof (slots_below_bytes n) as Hslots.
  pose proof (Resize_well_formed n v Hwf Hn) as Hwf'.
  rewrite Hrun in Hwf'. simpl in Hwf'.
  pose proof Hwf as (Hlen & Hcap & Hle & _ & Hbytes).
  pose proof Hinv as (_ & _ & Hraw).
  unfold Resize in Hrun.
  destruct (N.ltb_spec n (size_ v)) as [Hlt|Hge].
  - injection Hrun as <- <-. split; [|done].
    apply invariant_intro; [done|]. simpl. intros i Hi.
    rewrite SizeT_sub_small by lia.
    destruct (decide (i < size_ v)) as [Hlow|Hhigh].
    + apply destroy_n_lookup_in; lia.
    + rewrite destroy_n_lookup_out by lia. apply Hraw. lia.
  - destruct (N.ltb_spec (size_ v) n) as [Hgt|Heq];
      [|by injection Hrun as <- <-].
    unfold Reserve in Hrun.
    assert (∀ v1 lost1,
              size_ v1 = size_ v → lost1 = [] →
              length (buffer_ (data_ v1)) = N.to_nat (capacity_ (data_ v1)) →
              n ≤ capacity_ (data_ v1) →
              (∀ i : N, size_ v ≤ i < capacity_ (data_ v1) →
                 buffer_ (data_ v1) !! N.to_nat i = Some Raw) →
              match uninitialized_value_construct_n (buffer_ (data_ v1))
                      (N.to_nat (size_ v1))
                      (N.to_nat (SizeT.sub n (size_ v1))) with
              | Threw buf => Raised (with_buffer v1 buf) lost1
              | Done buf =>
                  Returned tt (MkVector (data_ (with_buffer v1 buf)) n) lost1
              end = Returned tt v' lost →
              invariant v' ∧ lost = []) as Hbuild.
    { intros v1 lost1 Hsize -> Hlen1 Hcap1 Hraw1.
      rewrite Hsize. unfold uninitialized_value_construct_n.
      destruct value_init as [x|] eqn:Hinit.
      - destruct (uninitialized_value_construct_from_done x (buffer_ (data_ v1))
                    (N.to_nat (size_ v)) (N.to_nat (size_ v))
                    (N.to_nat (SizeT.sub n (size_ v))) Hinit)
          as (buf & -> & _ & Hout & _).
        rewrite SizeT_sub_small in Hout by lia.
        intros [= <- <-]. split; [|done].
        apply invariant_intro; [done|]. simpl. intros i Hi.
        rewrite Hout by lia. apply Hraw1. lia.
      - destruct (uninitialized_value_construct_from_threw (buffer_ (data_ v1))
                    (N.to_nat (size_ v)) (N.to_nat (size_ v))
                    (N.to_nat (SizeT.sub n (size_ v))) Hinit) as [buf ->];
          [rewrite SizeT_sub_small by lia; lia|done]. }
    destruct (N.ltb_spec (Capacity v) n) as [Hsmall|Hroom].
    + destruct (RawMemory_sized n) as [new_data|] eqn:Hnew; [|done].
      apply RawMemory_sized_exact in Hnew as (Hc & _ & Hbuf); [|done].
      rewrite Hbuf, Hc in Hrun.
      destruct (relocate_n _ _ _ _ _ _) as [[old nb]|[old nb]] eqn:Hreloc; [|done].
      pose proof (relocate_n_source _ _ _ _ _ _ _ _ Hreloc) as [Hlen' Hout'].
      rewrite (adopt_nothing_lost v old nb n Hwf Hinv Hlen') in Hrun
        by (intros i Hi; apply Hout'; lia).
      apply relocated_prefix in Hreloc as (Hlenb & Houtb & _);
        [|done|rewrite length_replicate; unfold Capacity in *; lia].
      rewrite length_replicate in Hlenb.
      apply (Hbuild (MkVector (MkRawMemory nb n) (size_ v)) []);
        simpl; [done|done|done|lia| |done].
      intros i Hi. rewrite Houtb by lia. apply lookup_replicate_2. lia.
    + unfold Capacity in *.
      apply (Hbuild v []); [done|done|done|lia| |done].
      intros i Hi. apply Hraw. lia.
Qed.

Lemma copy_assign_keeps_invariant (l r v' : Vector T) lost :
  well_formed l → invariant l → well_formed r →
  copy_assign l r = Returned tt v' lost → invariant v' ∧ lost = [].
Proof.
  intros Hl Hinv Hr Hrun.
  pose proof (copy_assign_well_formed l r Hl Hr) as Hwf'.
  rewrite Hrun in Hwf'. simpl in Hwf'.
  pose proof Hinv as (_ & _ & Hraw).
  destruct (N.lt_ge_cases (Capacity l) (size_ r)) as [Hlt|Hge].
  - destruct (copy_assign_reallocating l r Hl Hr Hlt)
      as [[_ Hraised]|(c & Hcopy & Hret)]; [congruence|].
    rewrite Hret in Hrun. injection Hrun as <- <-.
    apply Vector_copy_returned in Hcopy as (Hsize & Hcap & _); [|done].
    split; [|by apply Vector_destroy_loses_nothing].
    apply invariant_intro; [done|]. unfold Capacity in Hcap. intros i Hi. lia.
  - destruct (copy_assign_in_place l r Hl Hr Hge) as (Hcap & _ & Hdone).
    rewrite Hrun in Hcap, Hdone. simpl in Hcap, Hdone.
    destruct (Hdone eq_refl) as (Hsize & _ & Hsurplus & Hrest).
    unfold at_index, Capacity in *. split.
    + apply invariant_intro; [done|]. intros i Hi.
      destruct (decide (i < size_ l)) as [Hlow|Hhigh].
      * apply Hsurplus. lia.
      * rewrite Hrest by lia. apply Hraw. lia.
    + unfold copy_assign in Hrun.
      destruct (Capacity l <? size_ r) eqn:Hc; [apply N.ltb_lt in Hc; unfold Capacity in Hc; lia|].
      destruct (size_ l <=? Size r).
      * destruct (copy_assign_loop _ _ _ _); [|done].
        destruct (uninitialized_copy_n _ _ _ _ _); [|done].
        by injection Hrun as _ <-.
      * destruct (copy_assign_loop _ _ _ _); [|done].
        by injection Hrun as _ <-.
Qed.

Lemma Emplace_keeps_invariant (pos : N) (x : T) (v : Vector T) r v' lost :
  well_formed v → invariant v → fits v → pos ≤ size_ v →
  Emplace pos (Some x) v = Returned r v' lost → invariant v' ∧ lost = [].
Proof.
  intros Hwf Hinv Hfits Hpos Hrun.
  pose proof (Emplace_returned pos x v r v' lost Hwf Hfits Hpos Hrun)
    as (_ & Hwf' & _ & _).
  pose proof Hwf as (Hlen & Hcap & Hle & _ & Hbytes).
  pose proof Hinv as (_ & _ & Hraw).
  pose proof SizeT_modulus_gt_1 as Hmod.
  pose proof (fits_add_1 v Hwf Hfits) as Hadd.
  pose proof (forward_capacity_bytes v Hwf Hfits) as Hgrown.
  unfold Emplace, Capacity in *.
  destruct (N.ltb_spec (size_ v) (capacity_ (data_ v))) as [Hlt|Hge].
  - destruct (N.eqb_spec pos (size_ v)) as [->|Hne]; simpl in Hrun.
    + injection Hrun as _ <- <-. split; [|done].
      apply invariant_intro; [done|]. simpl.
      rewrite SizeT_add_small by done. intros i Hi. unfold construct_at.
      rewrite list_lookup_insert_ne by lia. apply Hraw. lia.
    + assert (pos < size_ v) as Hin by lia.
      rewrite SizeT_sub_small in Hrun by lia.
      destruct (well_formed_live v (N.to_nat (size_ v - 1)) Hwf) as [z Hz]; [lia|].
      unfold uninitialized_move_1_within in Hrun. rewrite Hz in Hrun.
      destruct (move_throws z); [done|]. unfold construct_at in Hrun.
      replace (N.to_nat (size_ v))
        with (N.to_nat pos + (N.to_nat (size_ v - 1) - N.to_nat pos) + 1)%nat
        in Hrun at 2 by lia.
      destruct (move_backward _ _ _ _) as [buf2|buf2] eqn:Hshift; [|done].
      apply move_backward_shift_right in Hshift as (_ & Hout2 & _);
        [|rewrite !length_insert; lia].
      unfold move_assign_at in Hrun. destruct (move_assign_throws x); [done|].
      injection Hrun as _ <- <-. split; [|done].
      apply invariant_intro; [done|]. simpl.
      rewrite SizeT_add_small by done. intros i Hi.
      rewrite list_lookup_insert_ne by lia. rewrite Hout2 by lia.
      rewrite !list_lookup_insert_ne by lia. apply Hraw. lia.
  - assert (size_ v = capacity_ (data_ v)) as Hfull by lia.
    pose proof (forward_capacity v) as Hgrow. unfold Capacity in Hgrow.
    rewrite Hgrow in Hrun by (done || lia).
    destruct (RawMemory_sized _) as [new_data|] eqn:Hnew; [|done].
    apply RawMemory_sized_exact in Hnew as (Hc & _ & Hbuf); [|done].
    rewrite Hbuf, Hc in Hrun. unfold construct_at in Hrun.
    destruct (relocate_n _ _ _ _ _ _) as [[old1 nb1]|[old1 nb1]] eqn:Hrun1;
      [|done].
    rewrite SizeT_sub_small in Hrun by lia.
    destruct (relocate_n _ old1 _ _ _ _) as [[old nb]|[old nb]] eqn:Hrun2;
      [|done].
    pose proof (relocate_n_source _ _ _ _ _ _ _ _ Hrun1) as [Hlen1 Hold1].
    pose proof (relocate_n_source _ _ _ _ _ _ _ _ Hrun2) as [Hlen2 Hold2].
    apply relocate_n_done in Hrun1 as (_ & Hout1 & _).
    apply relocate_n_done in Hrun2 as (_ & Hout2 & _).
    rewrite (adopt_nothing_lost v old nb _ Hwf Hinv) in Hrun.
    + injection Hrun as _ <- <-. split; [|done].
      apply invariant_intro; [done|]. simpl.
      rewrite SizeT_add_small by done. intros i Hi.
      rewrite Hout2, Hout1 by lia. rewrite list_lookup_insert_ne by lia.
      apply lookup_replicate_2. lia.
    + congruence.
    + intros i Hi. rewrite Hold2, Hold1 by lia. done.
Qed.

End InvariantLemmas2.

(** X17.  On a well-formed vector that meets the invariant, whenever
    [Resize(n)] (with [n * sizeof(T)] counted by a [size_t] without a
    wrap), copy assignment from a well-formed vector, [Emplace] or
    [Insert] returns, the vector meets the invariant again and no object
    was lost. *)
Theorem resize_assign_insert_keep_the_invariant :
  ∀ (T : Type) (E : Element T) (v : Vector T),
    well_formed v → invariant v →
    (∀ n v' lost, n * sizeof_T < SizeT.modulus →
       Resize n v = Returned tt v' lost →
       invariant v' ∧ lost = []) ∧
    (∀ rhs v' lost, well_formed rhs → copy_assign v rhs = Returned tt v' lost →
       invariant v' ∧ lost = []) ∧
    (fits v →
       ∀ pos x r v' lost, pos ≤ size_ v →
         Emplace pos (Some x) v = Returned r v' lost ∨
         Insert_copy pos x v = Returned r v' lost ∨
         Insert_move pos x v = Returned r v' lost →
         invariant v' ∧ lost = []).
Proof.
  intros T E v Hwf Hinv. split_and!.
  - intros n v' lost Hn Hrun.
    exact (Resize_keeps_invariant n v v' lost Hwf Hinv Hn Hrun).
  - intros rhs v' lost Hrhs Hrun.
    exact (copy_assign_keeps_invariant v rhs v' lost Hwf Hinv Hrhs Hrun).
  - intros Hfits pos x r v' lost Hpos Hrun.
    assert (Emplace pos (Some x) v = Returned r v' lost) as Hsome.
    { assert (∀ r v' lost, Emplace pos None v ≠ Returned r v' lost) as Hnone.
      { intros r0 v0 lost0. unfold Emplace.
        destruct (size_ v <? Capacity v).
        - by destruct (negb (pos =? size_ v)).
        - by destruct (RawMemory_sized _). }
      destruct Hrun as [Hrun|[Hrun|Hrun]]; [done|..].
      - unfold Insert_copy in Hrun.
        destruct (copy_throws x); [by apply Hnone in Hrun|done].
      - unfold Insert_move in Hrun.
        destruct (move_throws x); [by apply Hnone in Hrun|done]. }
    exact (Emplace_keeps_invariant pos x v r v' lost Hwf Hinv Hfits Hpos Hsome).
Qed.

Lemma resize_assign_insert_keep_the_invariant_witness :
  let v := MkVector (MkRawMemory [Live 1%Z; Live 2%Z; Live 3%Z; Raw] 4) 3 in
  well_formed (E := int_element) v ∧ invariant v ∧
  invariant (self_of (Resize (E := int_element) 1 v)) ∧
  invariant (self_of (Insert_copy (E := int_element) 1 7%Z v)).
Proof.
  intros v.
  assert (well_formed (E := int_element) v) as Hwf
    by (split_and!; [reflexivity|reflexivity|vm_compute; discriminate|reflexivity|reflexivity]).
  assert (invariant v) as Hinv.
  { apply (invariant_intro (E := int_element)); [exact Hwf|]. simpl. intros i Hi.
    assert (i = 3) as -> by lia. reflexivity. }
  destruct (resize_assign_insert_keep_the_invariant Z int_element v Hwf Hinv)
    as (Hresize & _ & Hinsert).
  split; [exact Hwf|]. split; [exact Hinv|]. split.
  - exact (proj1 (Hresize 1 (self_of (Resize (E := int_element) 1 v))
                    (lost_of (Resize (E := int_element) 1 v)) eq_refl eq_refl)).
  - assert (1 ≤ size_ v) as Hpos by (vm_compute; discriminate).
    exact (proj1 (Hinsert (conj eq_refl eq_refl) 1 7%Z 1
                    (self_of (Insert_copy (E := int_element) 1 7%Z v))
                    (lost_of (Insert_copy (E := int_element) 1 7%Z v)) Hpos
                    (or_intror (or_introl eq_refl)))).
Defined.
